(** * react-declassify: the rewriter of [src/index.ts] over a store of AST nodes

    The plugin rewrites a Babel syntax tree in place.  Babel nodes are plain
    JavaScript objects that the code shares and mutates ([replaceWith],
    [push], [splice], [node.optional = true]), so the embedding keeps a store
    of objects addressed by location, and every function of [index.ts] is a
    computation over that store.

    - an object is a finite map from property names to values ([obj]); the
      store is the list of the objects made so far, and the location of an
      object is its position in it;
    - an array of nodes is the list of their locations ([VArr]);
    - a [NodePath] is modelled by the slot it designates: the parent object,
      the key, and the index when the key holds a list.  [path.node] reads the
      slot and [path.replaceWith] writes it;
    - a thrown exception carries the store as it was when it was thrown, so
      that a [catch] continues from the mutated tree. *)

From stdpp Require Import gmap strings list fin_maps pretty.

(** ** Values, objects, the store *)

Abbreviation loc := nat.

Inductive val :=
  | VUndef
  | VNull
  | VBool (b : bool)
  | VStr (s : string)
  | VRef (l : loc)
  | VArr (ls : list loc).

#[global] Instance val_eq_dec : EqDecision val.
Proof. solve_decision. Defined.

Abbreviation obj := (gmap string val).
Abbreviation store := (list obj).

(** [o.k] of JavaScript: a missing property reads as [undefined]. *)
Definition prop (o : obj) (k : string) : val := default VUndef (o !! k).

(** JavaScript truthiness of the values that occur in node properties. *)
Definition truthy (v : val) : bool :=
  match v with
  | VUndef | VNull => false
  | VBool b => b
  | VStr s => negb (String.eqb s "")
  | VRef _ | VArr _ => true
  end.

Definition Scope := nat.

(** A [NodePath]: where the node sits, the path of its parent, its scope. *)
#[warnings="-register-all"]
Inductive path := Path {
  parentPath : option path;
  parent : loc;
  key : string;
  index : option nat;
  scope : Scope }.

Inductive exn :=
  | AnalysisError (message : string)
  | Error (message : string)
  | TypeError (message : string)
  | RangeError (message : string).

Definition isAnalysisError (e : exn) : bool :=
  match e with AnalysisError _ => true | _ => false end.

Section Declassify.

(** The state of Babel's scope tracker is kept abstract. *)
Variable ScopeState : Type.

Record state := State {
  heap : store;
  scopes : ScopeState }.

(** The location the next new object gets. *)
Definition next (s : state) : loc := length (heap s).

Inductive outcome (A : Type) :=
  | Ok (a : A) (s : state)
  | Throw (e : exn) (s : state).
Arguments Ok {A} a s.
Arguments Throw {A} e s.

Definition M (A : Type) := state -> outcome A.

Definition ret {A} (a : A) : M A := fun s => Ok a s.
Definition bind {A B} (m : M A) (k : A -> M B) : M B :=
  fun s => match m s with Ok a s' => k a s' | Throw e s' => Throw e s' end.
Definition throw {A} (e : exn) : M A := fun s => Throw e s.
(** [try { m } catch (e) { h e }] *)
Definition try_catch {A} (m : M A) (h : exn -> M A) : M A :=
  fun s => match m s with Ok a s' => Ok a s' | Throw e s' => h e s' end.

Notation "'let!' x ':=' m 'in' k" := (bind m (fun x => k))
  (at level 10, x name, m at level 100, k at level 200).
Notation "'do!' m 'in' k" := (bind m (fun _ => k))
  (at level 10, m at level 100, k at level 200).

(** [for (const x of xs) f x] *)
Fixpoint forM_ {A} (xs : list A) (f : A -> M unit) : M unit :=
  match xs with
  | [] => ret tt
  | x :: xs' => do! f x in forM_ xs' f
  end.

(** [xs.map(f)] where [f] builds nodes *)
Fixpoint mapM {A B} (f : A -> M B) (xs : list A) : M (list B) :=
  match xs with
  | [] => ret []
  | x :: xs' => let! y := f x in let! ys := mapM f xs' in ret (y :: ys)
  end.

(** *** Store primitives *)

(** A node literal: a fresh object. *)
Definition alloc (o : obj) : M loc :=
  fun s => Ok (next s) (State (heap s ++ [o]) (scopes s)).

Definition getObj (l : loc) : M obj :=
  fun s => match heap s !! l with
           | Some o => Ok o s
           | None => Throw (TypeError "Cannot read properties of undefined") s
           end.

(** [l.k] *)
Definition getField (l : loc) (k : string) : M val :=
  let! o := getObj l in ret (prop o k).

(** [l.k = v] *)
Definition setField (l : loc) (k : string) (v : val) : M unit :=
  fun s => match heap s !! l with
           | Some o => Ok tt (State (<[l := <[k := v]> o]> (heap s)) (scopes s))
           | None => Throw (TypeError "Cannot set properties of undefined") s
           end.

(** Dereferencing a value that must be an object. *)
Definition asRef (v : val) : M loc :=
  match v with
  | VRef l => ret l
  | _ => throw (TypeError "Cannot read properties of undefined")
  end.

(** A value used as an array ([for ... of], [.length], [.some], [.push]). *)
Definition asArr (v : val) : M (list loc) :=
  match v with
  | VArr ls => ret ls
  | _ => throw (TypeError "value is not iterable")
  end.

(** [node.type] *)
Definition typeOf (l : loc) : M val := getField l "type".

Definition isType (l : loc) (ty : string) : M bool :=
  let! t := typeOf l in ret (bool_decide (t = VStr ty)).

(** ** NodePath operations *)

(** The value held by the slot of a path in a store. *)
Definition slotVal (h : store) (p : path) : val :=
  match h !! parent p with
  | None => VUndef
  | Some o =>
      match index p with
      | None => prop o (key p)
      | Some i =>
          match prop o (key p) with
          | VArr ls => from_option VRef VUndef (ls !! i)
          | _ => VUndef
          end
      end
  end.

(** [path.node], possibly [null] or [undefined] *)
Definition pathVal (p : path) : M val := fun s => Ok (slotVal (heap s) p) s.

(** [path.node] where the code goes on to use the node *)
Definition pathNode (p : path) : M loc := let! v := pathVal p in asRef v.

(** [path.get(k)] for a key that holds a single node *)
Definition pathGet (p : path) (k : string) : M path :=
  let! n := pathNode p in ret (Path (Some p) n k None (scope p)).

(** [path.get(k)] for a key that holds a list of nodes *)
Definition pathGetList (p : path) (k : string) : M (list path) :=
  let! n := pathNode p in
  let! v := getField n k in
  let! ls := asArr v in
  ret (imap (fun i _ => Path (Some p) n k (Some i) (scope p)) ls).

(** [container[key] = node], the store update of [path.replaceWith(node)].
    Babel refuses a path without a container. *)
Definition replaceWith (p : path) (n : loc) : M unit :=
  let! o := getObj (parent p) in
  match index p with
  | None => setField (parent p) (key p) (VRef n)
  | Some i =>
      match prop o (key p) with
      | VArr ls =>
          if decide (i < length ls)
          then setField (parent p) (key p) (VArr (<[i := n]> ls))
          else throw (Error "Container is falsy")
      | _ => throw (Error "Container is falsy")
      end
  end.

(** [path.replaceWithMultiple(nodes)]: the node's place in its list is taken
    by [nodes], in order. *)
Definition replaceWithMultiple (p : path) (ns : list loc) : M unit :=
  let! o := getObj (parent p) in
  match index p, prop o (key p) with
  | Some i, VArr ls =>
      if decide (i < length ls)
      then setField (parent p) (key p) (VArr (take i ls ++ ns ++ drop (S i) ls))
      else throw (Error "Container is falsy")
  | _, _ => throw (Error "We don't know what to do with this node type")
  end.

(** [path.insertAfter(node)] on a path in a list *)
Definition insertAfter (p : path) (n : loc) : M unit :=
  let! o := getObj (parent p) in
  match index p, prop o (key p) with
  | Some i, VArr ls =>
      setField (parent p) (key p) (VArr (take (S i) ls ++ n :: drop (S i) ls))
  | _, _ => throw (Error "We don't know what to do with this node type")
  end.

(** [path.isX()]: the path holds a node, and it has type [ty]. *)
Definition slotIsType (h : store) (p : path) (ty : string) : bool :=
  match slotVal h p with
  | VRef l => match h !! l with
              | Some o => bool_decide (prop o "type" = VStr ty)
              | None => false
              end
  | _ => false
  end.

Definition pathIsType (p : path) (ty : string) : M bool :=
  fun s => Ok (slotIsType (heap s) p ty) s.

(** [path.replaceWith(v)] for a value read off the tree: Babel refuses a
    falsy replacement. *)
Definition replaceWithVal (p : path) (v : val) : M unit :=
  match v with
  | VRef n => replaceWith p n
  | _ => throw (Error "You passed `path.replaceWith()` a falsy node")
  end.

(** ** Node builders of [@babel/types]

    [t.x(...)] makes a fresh object with the builder's properties; a builder
    argument left out takes the default Babel gives it.  Before it returns
    the node, a builder checks each argument against the definition of its
    field ([validateNode]), in the order of the builder's parameters, and
    throws a [TypeError] on the first argument that fails. *)

Definition mkObj (ty : string) (fields : list (string * val)) : obj :=
  <["type" := VStr ty]> (list_to_map fields).

Definition nullish (v : val) : bool :=
  match v with VUndef | VNull => true | _ => false end.

(** [a ?? b] *)
Definition coalesce (a b : val) : val := if nullish a then b else a.

(** A builder parameter with a default: [undefined] takes the default. *)
Definition orDefault (d v : val) : val :=
  match v with VUndef => d | _ => v end.

(** *** Validation of builder arguments

    [aliasHas alias type] is the table of the node types under each alias
    ([FLIPPED_ALIAS_KEYS[alias].includes(type)]: [Expression], [Pattern],
    [LVal], [TSType], ...), taken as it comes. *)
Variable aliasHas : string -> string -> bool.

(** [val?.type] *)
Definition typeOfVal (h : store) (v : val) : val :=
  match v with
  | VRef l => from_option (fun o => prop o "type") VUndef (h !! l)
  | _ => VUndef
  end.

(** [isType(nodeType, targetType)]: the type itself, or a type under the
    alias. *)
Definition isOfType (nodeType : val) (targetType : string) : bool :=
  match nodeType with
  | VStr ty => String.eqb ty targetType || aliasHas targetType ty
  | _ => false
  end.

(** [types.some(type => is(type, val))] *)
Definition isNode (h : store) (types : list string) (v : val) : bool :=
  existsb (isOfType (typeOfVal h v)) types.

(** The double quote of [JSON.stringify]. *)
Definition quote : string :=
  String (Ascii.Ascii false true false false false true false false) EmptyString.

(** [JSON.stringify] of a node type, of a list of node types. *)
Definition jsonType (v : val) : string :=
  match v with
  | VStr ty => quote +:+ ty +:+ quote
  | VNull => "null"
  | VBool true => "true"
  | VBool false => "false"
  | _ => "undefined"
  end.

Definition jsonTypes (types : list string) : string :=
  "[" +:+ String.concat "," (map (fun ty => quote +:+ ty +:+ quote) types) +:+ "]".

(** [getType(val)] of [@babel/types] *)
Definition getType (v : val) : string :=
  match v with
  | VUndef => "undefined"
  | VNull => "null"
  | VBool _ => "boolean"
  | VStr _ => "string"
  | VRef _ => "object"
  | VArr _ => "array"
  end.

(** [assertNodeType(...types)] on the field [key] of a node of type [ty] *)
Definition assertNodeType (ty : string) (types : list string) (key : string) (v : val)
    : M unit :=
  fun s =>
    if isNode (heap s) types v then Ok tt s
    else Throw (TypeError ("Property " +:+ key +:+ " of " +:+ ty
                           +:+ " expected node to be of a type " +:+ jsonTypes types
                           +:+ " but instead got " +:+ jsonType (typeOfVal (heap s) v))) s.

(** [assertValueType(type)] *)
Definition assertValueType (type : string) (key : string) (v : val) : M unit :=
  if String.eqb (getType v) type then ret tt
  else throw (TypeError ("Property " +:+ key +:+ " expected type of " +:+ type
                         +:+ " but got " +:+ getType v)).

(** [assertOneOf(...values)] on a text *)
Definition assertOneOf (values : list string) (key : string) (v : string) : M unit :=
  if existsb (String.eqb v) values then ret tt
  else throw (TypeError ("Property " +:+ key +:+ " expected value to be one of "
                         +:+ jsonTypes values +:+ " but got " +:+ quote +:+ v +:+ quote)).

(** [assertEach(check)]: the elements of an array, each under the key
    [key[i]]. *)
Definition assertEach (check : string -> val -> M unit) (key : string) (v : val)
    : M unit :=
  match v with
  | VArr ls =>
      forM_ (imap (fun i l => (i, l)) ls)
        (fun '(i, l) => check (key +:+ "[" +:+ pretty i +:+ "]") (VRef l))
  | _ => ret tt
  end.

(** A field that is [optional]: [null] and [undefined] are not checked. *)
Definition optionally (check : string -> val -> M unit) (key : string) (v : val)
    : M unit :=
  if nullish v then ret tt else check key v.

(** [chain(assertValueType("array"), assertEach(assertNodeType(...types)))] *)
Definition assertArrayOf (ty : string) (types : list string) (key : string) (v : val)
    : M unit :=
  do! assertValueType "array" key v in
  assertEach (assertNodeType ty types) key v.

(** The parameters of a function *)
Definition assertParams (ty : string) (params : val) : M unit :=
  assertArrayOf ty ["Identifier"; "Pattern"; "RestElement"] "params" params.

(** *** The builders *)

Definition identifier (name : string) : M loc :=
  alloc (mkObj "Identifier" [("name", VStr name)]).

Definition nullLiteral : M loc := alloc (mkObj "NullLiteral" []).

(** [computed] is left out: the property is checked as a name. *)
Definition memberExpression (object property : loc) : M loc :=
  do! assertNodeType "MemberExpression" ["Expression"; "Super"] "object" (VRef object) in
  do! assertNodeType "MemberExpression" ["Identifier"; "PrivateName"]
        "property" (VRef property) in
  alloc (mkObj "MemberExpression"
    [("object", VRef object); ("property", VRef property);
     ("computed", VBool false); ("optional", VNull)]).

Definition callExpression (callee : loc) (args : list loc) : M loc :=
  do! assertNodeType "CallExpression" ["Expression"; "Super"; "V8IntrinsicIdentifier"]
        "callee" (VRef callee) in
  do! assertArrayOf "CallExpression"
        ["Expression"; "SpreadElement"; "JSXNamespacedName"; "ArgumentPlaceholder"]
        "arguments" (VArr args) in
  alloc (mkObj "CallExpression" [("callee", VRef callee); ("arguments", VArr args)]).

Definition variableDeclarator (id init : loc) : M loc :=
  do! assertNodeType "VariableDeclarator" ["LVal"] "id" (VRef id) in
  do! optionally (assertNodeType "VariableDeclarator" ["Expression"]) "init" (VRef init) in
  alloc (mkObj "VariableDeclarator" [("id", VRef id); ("init", VRef init)]).

Definition variableDeclaration (kind : string) (declarations : list loc) : M loc :=
  do! assertOneOf ["var"; "let"; "const"; "using"; "await using"] "kind" kind in
  do! assertArrayOf "VariableDeclaration" ["VariableDeclarator"]
        "declarations" (VArr declarations) in
  alloc (mkObj "VariableDeclaration"
    [("kind", VStr kind); ("declarations", VArr declarations)]).

Definition objectPattern (properties : list loc) : M loc :=
  do! assertArrayOf "ObjectPattern" ["RestElement"; "ObjectProperty"]
        "properties" (VArr properties) in
  alloc (mkObj "ObjectPattern" [("properties", VArr properties)]).

(** The key is checked as a name, or as an expression when [computed]. *)
Definition objectProperty (k v : loc) (computed shorthand : bool) : M loc :=
  do! assertNodeType "ObjectProperty"
        (if computed then ["Expression"]
         else ["Identifier"; "StringLiteral"; "NumericLiteral"; "BigIntLiteral";
               "DecimalLiteral"; "PrivateName"])
        "key" (VRef k) in
  do! assertNodeType "ObjectProperty" ["Expression"; "PatternLike"] "value" (VRef v) in
  alloc (mkObj "ObjectProperty"
    [("key", VRef k); ("value", VRef v); ("computed", VBool computed);
     ("shorthand", VBool shorthand); ("decorators", VNull)]).

Definition assignmentPattern (left right : loc) : M loc :=
  do! assertNodeType "AssignmentPattern"
        ["Identifier"; "ObjectPattern"; "ArrayPattern"; "MemberExpression";
         "TSAsExpression"; "TSSatisfiesExpression"; "TSTypeAssertion";
         "TSNonNullExpression"]
        "left" (VRef left) in
  do! assertNodeType "AssignmentPattern" ["Expression"] "right" (VRef right) in
  alloc (mkObj "AssignmentPattern" [("left", VRef left); ("right", VRef right)]).

(** [assertNodeOrValueType("null", "PatternLike", "LVal")] on each element:
    an element here is a node, never the value [null], so the check is the
    one on the node's type. *)
Definition arrayPattern (elements : list loc) : M loc :=
  do! assertArrayOf "ArrayPattern" ["null"; "PatternLike"; "LVal"]
        "elements" (VArr elements) in
  alloc (mkObj "ArrayPattern" [("elements", VArr elements)]).

Definition blockStatement (body : list loc) : M loc :=
  do! assertArrayOf "BlockStatement" ["Statement"] "body" (VArr body) in
  alloc (mkObj "BlockStatement" [("body", VArr body); ("directives", VArr [])]).

Definition returnStatement (argument : val) : M loc :=
  let argument := orDefault VNull argument in
  do! optionally (assertNodeType "ReturnStatement" ["Expression"]) "argument" argument in
  alloc (mkObj "ReturnStatement" [("argument", argument)]).

(** [t.functionDeclaration] and [t.functionExpression] have the same
    parameters and the same fields: [ty] is the type of the node. *)
Definition functionNode (ty : string) (id params body generator async : val) : M loc :=
  let id := orDefault VNull id in
  let generator := orDefault (VBool false) generator in
  let async := orDefault (VBool false) async in
  do! optionally (assertNodeType ty ["Identifier"]) "id" id in
  do! assertParams ty params in
  do! assertNodeType ty ["BlockStatement"] "body" body in
  do! assertValueType "boolean" "generator" generator in
  do! assertValueType "boolean" "async" async in
  alloc (mkObj ty
    [("id", id); ("params", params); ("body", body);
     ("generator", generator); ("async", async)]).

Definition functionDeclaration : val -> val -> val -> val -> val -> M loc :=
  functionNode "FunctionDeclaration".
Definition functionExpression : val -> val -> val -> val -> val -> M loc :=
  functionNode "FunctionExpression".

Definition arrowFunctionExpression (params body async : val) : M loc :=
  let async := orDefault (VBool false) async in
  do! assertParams "ArrowFunctionExpression" params in
  do! assertNodeType "ArrowFunctionExpression" ["BlockStatement"; "Expression"]
        "body" body in
  do! assertValueType "boolean" "async" async in
  alloc (mkObj "ArrowFunctionExpression"
    [("params", params); ("body", body); ("async", async); ("expression", VNull)]).

Definition exportDefaultDeclaration (declaration : loc) : M loc :=
  do! assertNodeType "ExportDefaultDeclaration"
        ["TSDeclareFunction"; "FunctionDeclaration"; "ClassDeclaration"; "Expression"]
        "declaration" (VRef declaration) in
  alloc (mkObj "ExportDefaultDeclaration" [("declaration", VRef declaration)]).

Definition importSpecifier (local imported : loc) : M loc :=
  do! assertNodeType "ImportSpecifier" ["Identifier"] "local" (VRef local) in
  do! assertNodeType "ImportSpecifier" ["Identifier"; "StringLiteral"]
        "imported" (VRef imported) in
  alloc (mkObj "ImportSpecifier" [("local", VRef local); ("imported", VRef imported)]).

Definition tsTypeAnnotation (typeAnnotation : loc) : M loc :=
  do! assertNodeType "TSTypeAnnotation" ["TSType"] "typeAnnotation" (VRef typeAnnotation) in
  alloc (mkObj "TSTypeAnnotation" [("typeAnnotation", VRef typeAnnotation)]).

Definition tsUnionType (types : list loc) : M loc :=
  do! assertArrayOf "TSUnionType" ["TSType"] "types" (VArr types) in
  alloc (mkObj "TSUnionType" [("types", VArr types)]).

Definition tsUndefinedKeyword : M loc := alloc (mkObj "TSUndefinedKeyword" []).

Definition tsTypeReference (typeName : loc) (typeParameters : val) : M loc :=
  let typeParameters := orDefault VNull typeParameters in
  do! assertNodeType "TSTypeReference" ["TSEntityName"] "typeName" (VRef typeName) in
  do! optionally (assertNodeType "TSTypeReference" ["TSTypeParameterInstantiation"])
        "typeParameters" typeParameters in
  alloc (mkObj "TSTypeReference"
    [("typeName", VRef typeName); ("typeParameters", typeParameters)]).

Definition tsQualifiedName (left right : loc) : M loc :=
  do! assertNodeType "TSQualifiedName" ["TSEntityName"] "left" (VRef left) in
  do! assertNodeType "TSQualifiedName" ["Identifier"] "right" (VRef right) in
  alloc (mkObj "TSQualifiedName" [("left", VRef left); ("right", VRef right)]).

Definition tsTypeParameterInstantiation (params : list loc) : M loc :=
  do! assertArrayOf "TSTypeParameterInstantiation" ["TSType"] "params" (VArr params) in
  alloc (mkObj "TSTypeParameterInstantiation" [("params", VArr params)]).

Definition tsFunctionType (typeParameters : val) (parameters : list loc)
    (typeAnnotation : loc) : M loc :=
  let typeParameters := orDefault VNull typeParameters in
  do! optionally (assertNodeType "TSFunctionType" ["TSTypeParameterDeclaration"])
        "typeParameters" typeParameters in
  do! assertArrayOf "TSFunctionType"
        ["ArrayPattern"; "Identifier"; "ObjectPattern"; "RestElement"]
        "parameters" (VArr parameters) in
  do! optionally (assertNodeType "TSFunctionType" ["TSTypeAnnotation"])
        "typeAnnotation" (VRef typeAnnotation) in
  alloc (mkObj "TSFunctionType"
    [("typeParameters", typeParameters);
     ("parameters", VArr parameters); ("typeAnnotation", VRef typeAnnotation)]).

(** [t.cloneNode(node)].  The rewriter clones identifiers only (a class
    name, the local of an import specifier, the property of a member access),
    whose copy is a fresh object with the same properties. *)
Definition cloneNode (n : loc) : M loc := let! o := getObj n in alloc o.

(** ** Helpers of [utils.js] *)

(** Modelled from the spec: [assignReturnType] of [utils.js] is missing; the
    normalizer carries the return-type annotation over with it, so it sets
    [returnType] on the node it is given and returns that node. *)
Definition assignReturnType (n : loc) (returnType : val) : M loc :=
  do! setField n "returnType" returnType in ret n.

(** Modelled from the spec: [assignTypeAnnotation] of [utils.js] is missing;
    it attaches a type annotation to the node it is given. *)
Definition assignTypeAnnotation (n : loc) (typeAnnotation : val) : M loc :=
  do! setField n "typeAnnotation" typeAnnotation in ret n.

(** Modelled from the spec: [assignTypeParameters] of [utils.js] is missing;
    it instantiates a hook call with a type. *)
Definition assignTypeParameters (n : loc) (typeParameters : val) : M loc :=
  do! setField n "typeParameters" typeParameters in ret n.

(** Modelled from the spec: [importName] of [utils.js] is missing; the name a
    specifier imports is the name of its [imported] identifier, or the value
    of its string literal. *)
Definition importName (imported : loc) : M val :=
  let! isStr := isType imported "StringLiteral" in
  if isStr then getField imported "value" else getField imported "name".

(** Modelled from the spec: [nonNullPath] of [utils.js] is missing; it gives
    the path back when the path holds a node. *)
Definition nonNullPath (p : path) : M (option path) :=
  let! v := pathVal p in ret (if truthy v then Some p else None).

(** A property that must hold a string ([t.identifier] validates its name). *)
Definition asStr (v : val) : M string :=
  match v with
  | VStr x => ret x
  | _ => throw (TypeError "expected type of string")
  end.

(** The text of [`${v}`] for the values a node's [type] can take. *)
Definition showVal (v : val) : string :=
  match v with
  | VStr x => x
  | VNull => "null"
  | VBool true => "true"
  | VBool false => "false"
  | _ => "undefined"
  end.

(** ** The collaborators: Babel's scope tracker and [path.remove] *)

(** [scope.getBinding(name)] is truthy *)
Variable scope_getBinding : Scope -> string -> ScopeState -> bool.
(** [scope.generateUid(name)] *)
Variable scope_generateUid : Scope -> string -> ScopeState -> string * ScopeState.
(** [scope.rename(oldName, newName)] *)
Variable scope_rename : Scope -> string -> string -> state -> state.
(** [path.remove()] *)
Variable path_remove : path -> state -> state.

Definition getBinding (sc : Scope) (name : string) : M bool :=
  fun s => Ok (scope_getBinding sc name (scopes s)) s.
Definition generateUid (sc : Scope) (name : string) : M string :=
  fun s => let '(uid, sc') := scope_generateUid sc name (scopes s) in
           Ok uid (State (heap s) sc').
Definition rename (sc : Scope) (oldName newName : string) : M unit :=
  fun s => Ok tt (scope_rename sc oldName newName s).
Definition remove (p : path) : M unit :=
  fun s => Ok tt (path_remove p s).

(** ** Node normalizer (index.ts, lines 379-446) *)

Definition functionName (node : loc) : M val :=
  let! ty := typeOf node in
  if bool_decide (ty = VStr "FunctionDeclaration")
     || bool_decide (ty = VStr "FunctionExpression")
  then let! id := getField node "id" in ret (coalesce id VUndef)
  else ret VUndef.

(** [node.body.type === "BlockStatement" ? node.body
      : t.blockStatement([t.returnStatement(node.body)])] *)
Definition blockBody (node : loc) : M val :=
  let! body := getField node "body" in
  let! b := asRef body in
  let! isBlock := isType b "BlockStatement" in
  if isBlock then ret body
  else let! r := returnStatement body in
       let! blk := blockStatement [r] in
       ret (VRef blk).

Definition functionDeclarationFrom (node : loc) (name : val) : M loc :=
  let! id := (if nullish name then functionName node else ret name) in
  let! params := getField node "params" in
  let! body := blockBody node in
  let! generator := getField node "generator" in
  let! async := getField node "async" in
  let! f := functionDeclaration id params body generator async in
  let! returnType := getField node "returnType" in
  assignReturnType f returnType.

Definition functionExpressionFrom (node : loc) (name : val) : M loc :=
  let! id := (if nullish name then functionName node else ret name) in
  let! params := getField node "params" in
  let! body := blockBody node in
  let! generator := getField node "generator" in
  let! async := getField node "async" in
  let! f := functionExpression id params body generator async in
  let! returnType := getField node "returnType" in
  assignReturnType f returnType.

Definition arrowFunctionExpressionFrom (node : loc) : M loc :=
  let! params := getField node "params" in
  let! body := getField node "body" in
  let! async := getField node "async" in
  let! f := arrowFunctionExpression params body async in
  let! returnType := getField node "returnType" in
  assignReturnType f returnType.

(** ** [toTSEntity] (index.ts, lines 330-341)

    The recursion follows [object] links through the store.  [fuel] bounds the
    number of nested calls; running out of it is the stack overflow of
    JavaScript on a cyclic chain. *)
Fixpoint toTSEntity_rec (fuel : nat) (expr : loc) : M loc :=
  match fuel with
  | 0 => throw (RangeError "Maximum call stack size exceeded")
  | S fuel' =>
      let! ty := typeOf expr in
      let! isMember :=
        (if bool_decide (ty = VStr "MemberExpression") then
           let! computed := getField expr "computed" in
           if truthy computed then ret false
           else let! property := getField expr "property" in
                let! pr := asRef property in
                isType pr "Identifier"
         else ret false) in
      if isMember then
        let! object := getField expr "object" in
        let! ob := asRef object in
        let! left := toTSEntity_rec fuel' ob in
        let! property := getField expr "property" in
        let! pr := asRef property in
        let! right := cloneNode pr in
        tsQualifiedName left right
      else if bool_decide (ty = VStr "Identifier") then cloneNode expr
      else throw (Error ("Cannot convert to TSEntityName: " +:+ showVal ty))
  end.

(** A chain of distinct objects of the store has at most [next s] of them. *)
Definition toTSEntity (expr : loc) : M loc :=
  fun s => toTSEntity_rec (next s) expr s.

(** ** [getReactImport] (index.ts, lines 343-377) *)

Inductive ImportKind := ns | named.

Inductive LibRef :=
  | GlobalRef (globalName : string)
  | ImportRef (kind : ImportKind) (specPath : path).

(** The loop over [decl.get("specifiers")]: the [local] of the first import
    specifier that imports [name]. *)
Fixpoint findSpecifier (name : string) (specs : list path) : M (option loc) :=
  match specs with
  | [] => ret None
  | spec :: rest =>
      let! isSpec := pathIsType spec "ImportSpecifier" in
      if isSpec then
        let! n := pathNode spec in
        let! imported := getField n "imported" in
        let! imp := asRef imported in
        let! nm := importName imp in
        if bool_decide (nm = VStr name) then
          let! local := getField n "local" in
          let! l := asRef local in
          ret (Some l)
        else findSpecifier name rest
      else findSpecifier name rest
  end.

Definition getReactImport (name : string) (superClassRef : LibRef) : M loc :=
  match superClassRef with
  | GlobalRef globalName =>
      let! o := identifier globalName in
      let! p := identifier name in
      memberExpression o p
  | ImportRef ns specPath =>
      let! spec := pathNode specPath in
      let! local := getField spec "local" in
      let! l := asRef local in
      let! nm := getField l "name" in
      let! nm' := asStr nm in
      let! o := identifier nm' in
      let! p := identifier name in
      memberExpression o p
  | ImportRef named specPath =>
      match parentPath specPath with
      | None => throw (TypeError "Cannot read properties of null")
      | Some decl =>
          let! specs := pathGetList decl "specifiers" in
          let! found := findSpecifier name specs in
          match found with
          | Some local => cloneNode local
          | None =>
              (* No existing decl *)
              let! bound := getBinding (scope decl) name in
              let! newName := (if bound then generateUid (scope decl) name
                               else ret name) in
              let! local := identifier newName in
              let! specs' := pathGetList decl "specifiers" in
              match last specs' with
              | None => throw (TypeError "Cannot read properties of undefined")
              | Some lastSpec =>
                  let! imported := (if String.eqb name newName then ret local
                                    else identifier newName) in
                  let! spec := importSpecifier local imported in
                  do! insertAfter lastSpec spec in
                  identifier newName
              end
          end
      end
  end.

(** ** The verified model handed over by the analysis ([analysis.js])

    Modelled from the spec: the types [ComponentHead], [ComponentBody] and
    their parts are declared in [analysis.js], which is missing; the records
    follow section 3 of the specification and the properties [index.ts]
    reads.  Maps are association lists in insertion order. *)

Record ComponentHead := {
  superClassRef : LibRef;
  head_props : option path }.

Record Alias := { alias_scope : Scope; alias_localName : string }.

Record PropBinding := {
  aliases : list Alias;
  newAliasName : string;
  defaultValue : option path;
  typing : option path;
  needsAlias : bool;
  prop_sites : list path }.

Inductive StateSite :=
  | StateExpr (site_path : path)                        (* type: "expr" *)
  | StateSetState (site_path : path) (valuePath : path). (* type: "setState" *)

Inductive StateTypeAnnotation :=
  | MethodAnnotation (params : list path) (returnType : path) (* type: "method" *)
  | SimpleAnnotation (annot_path : path).

Record StateField := {
  localName : string;
  localSetterName : string;
  init : option path;          (* init.valuePath *)
  typeAnnotation : option StateTypeAnnotation;
  state_sites : list StateSite }.

Inductive FnInit :=
  | MethodInit (init_path : path)   (* init.type === "method": init.path *)
  | FieldInit (initPath : path).    (* init.initPath *)

Inductive FieldKind :=
  | user_defined_function (fn_init : FnInit)
  | user_defined_ref
  | user_defined_direct_ref (ref_init : path).

Record FieldSite := { fsite_type : string; fsite_path : path }.

Record UserField := {
  field_type : FieldKind;
  field_localName : string;
  field_typeAnnotation : option path;
  field_sites : list FieldSite }.

Record Rename := { ren_scope : Scope; oldName : string; newName : string }.

Record ComponentBody := {
  props : list (string * PropBinding);      (* body.props.props *)
  hasDefaults : bool;                       (* body.props.hasDefaults *)
  props_sites : list path;                  (* body.props.sites *)
  body_state : list (string * StateField);  (* body.state *)
  fields : list (string * UserField);       (* body.userDefined.fields *)
  removePaths : list path;                  (* body.locals.removePaths *)
  render_path : path;                       (* body.render.path *)
  renames : list Rename }.                  (* body.render.renames *)

(** [needsProps] of [analysis.js] is missing: taken as it comes. *)
Variable needsProps : ComponentBody -> bool.

(** ** [transformClass] (index.ts, lines 84-328), loop by loop *)

(** lines 88-97 *)
Definition renameAliases (body : ComponentBody) : M unit :=
  forM_ (props body) (fun '(_, prop) =>
    forM_ (aliases prop) (fun alias =>
      if negb (String.eqb (alias_localName alias) (newAliasName prop))
      then rename (alias_scope alias) (alias_localName alias) (newAliasName prop)
      else ret tt)).

(** lines 98-100 *)
Definition removeLocals (body : ComponentBody) : M unit :=
  forM_ (removePaths body) remove.

(** lines 101-105 *)
Definition renameRenderLocals (body : ComponentBody) : M unit :=
  forM_ (renames body) (fun ren => rename (ren_scope ren) (oldName ren) (newName ren)).

(** lines 106-118 *)
Definition rewritePropSites (body : ComponentBody) : M unit :=
  if hasDefaults body then
    forM_ (props body) (fun '(_, prop) =>
      forM_ (prop_sites prop) (fun site =>
        (* this.props.foo -> foo *)
        let! id := identifier (newAliasName prop) in
        replaceWith site id))
  else
    forM_ (props_sites body) (fun site =>
      (* this.props -> props *)
      let! n := pathNode site in
      let! property := getField n "property" in
      replaceWithVal site property).

(** [typeAnnotation.node.types.some((t) => t.type === "TSUndefinedKeyword")] *)
Fixpoint someUndefinedKeyword (types : list loc) : M bool :=
  match types with
  | [] => ret false
  | t :: rest =>
      let! isUndef := isType t "TSUndefinedKeyword" in
      if isUndef then ret true else someUndefinedKeyword rest
  end.

(** lines 119-147; the [if] of lines 140-145 only binds a constant. *)
Definition widenTyping (prop : PropBinding) : M unit :=
  match defaultValue prop, typing prop with
  | Some _, Some typing =>
      (* Make the prop optional *)
      let! tn := pathNode typing in
      do! setField tn "optional" (VBool true) in
      let! isSig := pathIsType typing "TSPropertySignature" in
      if isSig then
        let! outer := pathGet typing "typeAnnotation" in
        let! outer' := nonNullPath outer in
        match outer' with
        | None => ret tt
        | Some outer =>
            let! typeAnnotation := pathGet outer "typeAnnotation" in
            let! isUnion := pathIsType typeAnnotation "TSUnionType" in
            if isUnion then
              let! u := pathNode typeAnnotation in
              let! types := getField u "types" in
              let! tys := asArr types in
              let! has := someUndefinedKeyword tys in
              if has then ret tt (* No need to add undefined *)
              else
                let! undef := tsUndefinedKeyword in
                setField u "types" (VArr (tys ++ [undef]))
            else
              let! old := pathNode typeAnnotation in
              let! undef := tsUndefinedKeyword in
              let! union := tsUnionType [old; undef] in
              replaceWith typeAnnotation union
        end
      else ret tt
  | _, _ => ret tt
  end.

Definition widenPropTypings (body : ComponentBody) : M unit :=
  forM_ (props body) (fun '(_, prop) => widenTyping prop).

(** lines 148-163 *)
Definition rewriteStateSite (stateAnalysis : StateField) (site : StateSite) : M unit :=
  match site with
  | StateExpr p =>
      (* this.state.foo -> foo *)
      let! id := identifier (localName stateAnalysis) in
      replaceWith p id
  | StateSetState p valuePath =>
      (* this.setState({ foo: 1 }) -> setFoo(1) *)
      let! setter := identifier (localSetterName stateAnalysis) in
      let! v := pathNode valuePath in
      let! call := callExpression setter [v] in
      replaceWith p call
  end.

Definition rewriteStateSites (body : ComponentBody) : M unit :=
  forM_ (body_state body) (fun '(_, stateAnalysis) =>
    forM_ (state_sites stateAnalysis) (rewriteStateSite stateAnalysis)).

(** lines 164-185 *)
Definition rewriteFieldSite (field : UserField) (site : FieldSite) : M unit :=
  match field_type field with
  | user_defined_function _ | user_defined_ref =>
      if String.eqb (fsite_type site) "expr" then
        (* this.foo -> foo *)
        let! id := identifier (field_localName field) in
        replaceWith (fsite_path site) id
      else ret tt
  | user_defined_direct_ref _ =>
      if String.eqb (fsite_type site) "expr" then
        (* this.foo -> foo.current *)
        let! id := identifier (field_localName field) in
        let! cur := identifier "current" in
        let! m := memberExpression id cur in
        replaceWith (fsite_path site) m
      else ret tt
  end.

Definition rewriteFieldSites (body : ComponentBody) : M unit :=
  forM_ (fields body) (fun '(_, field) =>
    forM_ (field_sites field) (rewriteFieldSite field)).

(** *** The preamble (lines 186-311) *)

(** [Array.from(body.props.props).filter(([, prop]) => prop.needsAlias)] *)
Definition propsWithAlias (body : ComponentBody) : list (string * PropBinding) :=
  List.filter (fun '(_, prop) => needsAlias prop) (props body).

(** lines 194-206: one property of the object pattern *)
Definition propPattern (np : string * PropBinding) : M loc :=
  let '(name, prop) := np in
  let! k := identifier name in
  let! v := (match defaultValue prop with
             | Some dv =>
                 let! l := identifier (newAliasName prop) in
                 let! d := pathNode dv in
                 assignmentPattern l d
             | None => identifier (newAliasName prop)
             end) in
  objectProperty k v false (String.eqb name (newAliasName prop)).

(** lines 188-210 *)
Definition propsPreamble (body : ComponentBody) : M (list loc) :=
  if Nat.ltb 0 (length (propsWithAlias body)) then
    (* Expand this.props into variables.  E.g. const { foo, bar } = props; *)
    let! properties := mapM propPattern (propsWithAlias body) in
    let! pat := objectPattern properties in
    let! pr := identifier "props" in
    let! d := variableDeclarator pat pr in
    let! decl := variableDeclaration "const" [d] in
    ret [decl]
  else ret [].

(** lines 211-239: one state declaration *)
Definition stateDeclaration (head : ComponentHead) (ts : bool) (field : StateField)
    : M loc :=
  let! callee := getReactImport "useState" (superClassRef head) in
  let! args := (match init field with
                | Some valuePath => let! n := pathNode valuePath in ret [n]
                | None => ret []
                end) in
  let! call := callExpression callee args in
  let! a := identifier (localName field) in
  let! b := identifier (localSetterName field) in
  let! pat := arrayPattern [a; b] in
  let! value :=
    (match ts, typeAnnotation field with
     | true, Some (MethodAnnotation params returnType) =>
         let! ps := mapM pathNode params in
         let! r := pathNode returnType in
         let! ann := tsTypeAnnotation r in
         let! ft := tsFunctionType VUndef ps ann in
         let! inst := tsTypeParameterInstantiation [ft] in
         assignTypeParameters call (VRef inst)
     | true, Some (SimpleAnnotation p) =>
         let! n := pathNode p in
         let! inst := tsTypeParameterInstantiation [n] in
         assignTypeParameters call (VRef inst)
     | _, _ => ret call
     end) in
  let! d := variableDeclarator pat value in
  variableDeclaration "const" [d].

Definition statePreamble (head : ComponentHead) (ts : bool) (body : ComponentBody)
    : M (list loc) :=
  mapM (fun '(_, field) => stateDeclaration head ts field) (body_state body).

(** lines 270-309: [const foo = useRef(seed)], type-instantiated in TS mode *)
Definition refDeclaration (head : ComponentHead) (ts : bool) (field : UserField)
    (seed : M loc) : M loc :=
  let! callee := getReactImport "useRef" (superClassRef head) in
  let! arg := seed in
  let! call := callExpression callee [arg] in
  let! id := identifier (field_localName field) in
  let! value :=
    (match ts, field_typeAnnotation field with
     | true, Some ta =>
         let! n := pathNode ta in
         let! inst := tsTypeParameterInstantiation [n] in
         assignTypeParameters call (VRef inst)
     | _, _ => ret call
     end) in
  let! d := variableDeclarator id value in
  variableDeclaration "const" [d].

(** lines 240-311: the declaration of one user-defined field *)
Definition fieldDeclaration (head : ComponentHead) (ts : bool) (field : UserField)
    : M loc :=
  match field_type field with
  | user_defined_function (MethodInit p) =>
      (* Method definitions. *)
      let! methNode := pathNode p in
      let! id := identifier (field_localName field) in
      functionDeclarationFrom methNode (VRef id)
  | user_defined_function (FieldInit initPath) =>
      let! methNode := pathNode initPath in
      let! isFn := isType methNode "FunctionExpression" in
      if isFn && negb (bool_decide (is_Some (field_typeAnnotation field))) then
        let! id := identifier (field_localName field) in
        functionDeclarationFrom methNode (VRef id)
      else
        let! expr := (if isFn then functionExpressionFrom methNode VUndef
                      else arrowFunctionExpressionFrom methNode) in
        let! id := identifier (field_localName field) in
        let! ann := (match field_typeAnnotation field with
                     | Some ta =>
                         let! n := pathNode ta in
                         let! a := tsTypeAnnotation n in
                         ret (VRef a)
                     | None => ret VUndef
                     end) in
        let! id' := assignTypeAnnotation id ann in
        let! d := variableDeclarator id' expr in
        variableDeclaration "const" [d]
  | user_defined_ref =>
      (* const foo = useRef(null); *)
      refDeclaration head ts field nullLiteral
  | user_defined_direct_ref ref_init =>
      (* const foo = useRef(init); *)
      refDeclaration head ts field (pathNode ref_init)
  end.

Definition fieldsPreamble (head : ComponentHead) (ts : bool) (body : ComponentBody)
    : M (list loc) :=
  mapM (fun '(_, field) => fieldDeclaration head ts field) (fields body).

(** Preamble is a set of statements to be added before the original render body. *)
Definition buildPreamble (head : ComponentHead) (ts : bool) (body : ComponentBody)
    : M (list loc) :=
  let! p1 := propsPreamble body in
  let! p2 := statePreamble head ts body in
  let! p3 := fieldsPreamble head ts body in
  ret (p1 ++ p2 ++ p3).

(** lines 312-327 *)
Definition assemble (head : ComponentHead) (ts : bool) (body : ComponentBody)
    (preamble : list loc) : M (loc * val) :=
  let! r := pathNode (render_path body) in
  let! b := getField r "body" in
  let! bodyNode := asRef b in
  let! stmts := getField bodyNode "body" in
  let! ss := asArr stmts in
  (* bodyNode.body.splice(0, 0, ...preamble) *)
  do! setField bodyNode "body" (VArr (preamble ++ ss)) in
  let! params := (if needsProps body
                  then let! p := identifier "props" in ret [p]
                  else ret []) in
  let! funcNode := arrowFunctionExpression (VArr params) (VRef bodyNode) VUndef in
  let! typeNode :=
    (if ts then
       let! fc := getReactImport "FC" (superClassRef head) in
       let! entity := toTSEntity fc in
       let! tp := (match head_props head with
                   | Some p =>
                       let! n := pathNode p in
                       let! inst := tsTypeParameterInstantiation [n] in
                       ret (VRef inst)
                   | None => ret VNull
                   end) in
       let! r := tsTypeReference entity tp in
       ret (VRef r)
     else ret VUndef) in
  ret (funcNode, typeNode).

Definition transformClass (head : ComponentHead) (body : ComponentBody) (ts : bool)
    : M (loc * val) :=
  do! renameAliases body in
  do! removeLocals body in
  do! renameRenderLocals body in
  do! rewritePropSites body in
  do! widenPropTypings body in
  do! rewriteStateSites body in
  do! rewriteFieldSites body in
  let! preamble := buildPreamble head ts body in
  assemble head ts body preamble.

(** ** [refreshComments] (lines 448-466) and Babel's [addComment] *)

(** [l.k ??= v] *)
Definition setIfNullish (l : loc) (k : string) (v : val) : M unit :=
  let! cur := getField l k in
  if nullish cur then setField l k v else ret tt.

(** [node.k ?? []] *)
Definition commentsOf (node : loc) (k : string) : M (list loc) :=
  let! v := getField node k in
  if nullish v then ret [] else asArr v.

Definition refreshComments (node : loc) : M unit :=
  let! leading := commentsOf node "leadingComments" in
  do! forM_ leading (fun comment =>
        do! setIfNullish comment "leading" (VBool true) in
        setIfNullish comment "trailing" (VBool false)) in
  let! trailing := commentsOf node "trailingComments" in
  do! forM_ trailing (fun comment =>
        do! setIfNullish comment "leading" (VBool false) in
        setIfNullish comment "trailing" (VBool true)) in
  let! l := commentsOf node "leadingComments" in
  let! i := commentsOf node "innerComments" in
  let! t := commentsOf node "trailingComments" in
  do! setField node "comments" (VArr (l ++ i ++ t)) in
  setField node "original" VUndef.

(** [t.addComment(node, type, content)]: a block comment, put in front of the
    leading comments or behind the others. *)
Definition addComment (node : loc) (type : string) (content : string) : M unit :=
  let! c := alloc (mkObj "CommentBlock" [("value", VStr content)]) in
  let k := type +:+ "Comments" in
  let! cur := getField node k in
  if truthy cur then
    let! ls := asArr cur in
    if String.eqb type "leading" then setField node k (VArr (c :: ls))
    else setField node k (VArr (ls ++ [c]))
  else setField node k (VArr [c]).

(** ** The visitor (lines 8-77) *)

(** Modelled from the spec: [analyzeHead] and [analyzeBody] of [analysis.js]
    are missing; section 6 has them as pure functions of the class node, the
    first giving a head or nothing, the second a body or a thrown failure. *)
Variable analyzeHead : path -> state -> option ComponentHead.
Variable analyzeBody : path -> ComponentHead -> state -> exn + ComponentBody.

Definition runAnalyzeBody (p : path) (head : ComponentHead) : M ComponentBody :=
  fun s => match analyzeBody p head s with
           | inl e => Throw e s
           | inr body => Ok body s
           end.

Definition exn_message (e : exn) : string :=
  match e with
  | AnalysisError m | Error m | TypeError m | RangeError m => m
  end.

(** The [catch] clauses, lines 44-50 and 66-72 *)
Definition disable (target : path) (e : exn) : M unit :=
  if negb (isAnalysisError e) then throw e
  else
    let! node := pathNode target in
    do! addComment node "leading"
          (" react-declassify-disable Cannot perform transformation: "
           +:+ exn_message e +:+ " ") in
    let! node' := pathNode target in
    refreshComments node'.

(** lines 26-36 and 55-65: [const <id> = <funcNode>] *)
Definition componentDeclaration (p : path) (ts : bool) (funcNode : loc) (typeNode : val)
    : M loc :=
  let! node := pathNode p in
  let! id := getField node "id" in
  let! idn := asRef id in
  let! id' := (if ts then
                 let! c := cloneNode idn in
                 let! ty := asRef typeNode in
                 let! ann := tsTypeAnnotation ty in
                 assignTypeAnnotation c (VRef ann)
               else cloneNode idn) in
  let! d := variableDeclarator id' funcNode in
  variableDeclaration "const" [d].

Definition ClassDeclaration (ts : bool) (p : path) : M unit :=
  fun s =>
  match analyzeHead p s with
  | None => Ok tt s
  | Some head =>
      match parentPath p with
      | None => Throw (TypeError "Cannot read properties of null") s
      | Some declPath =>
          (let! isExportDefault := pathIsType declPath "ExportDefaultDeclaration" in
           if isExportDefault then
             try_catch
               (let! body := runAnalyzeBody p head in
                let! r := transformClass head body ts in
                let '(funcNode, typeNode) := r in
                let! node := pathNode p in
                let! id := getField node "id" in
                if truthy id then
                  let! decl := componentDeclaration p ts funcNode typeNode in
                  let! idn := asRef id in
                  let! c := cloneNode idn in
                  let! exp := exportDefaultDeclaration c in
                  replaceWithMultiple declPath [decl; exp]
                else replaceWith p funcNode)
               (disable declPath)
           else
             try_catch
               (let! body := runAnalyzeBody p head in
                let! r := transformClass head body ts in
                let '(funcNode, typeNode) := r in
                let! decl := componentDeclaration p ts funcNode typeNode in
                replaceWith p decl)
               (disable p)) s
      end
  end.

(** The host calls the visitor on the class declarations it finds, one after
    the other; an exception that leaves a visitor ends the run. *)
Definition visitAll (ts : bool) (ps : list path) : M unit :=
  forM_ ps (ClassDeclaration ts).

(** * Properties *)

(** ** Running a computation *)

Lemma bind_Ok {A B} (m : M A) (k : A -> M B) s b t :
  bind m k s = Ok b t <-> exists a s', m s = Ok a s' /\ k a s' = Ok b t.
Proof.
  unfold bind. split.
  - destruct (m s) as [a s'|e s']; [eauto | discriminate].
  - intros (a & s' & -> & H). exact H.
Qed.

Lemma bind_Throw {A B} (m : M A) (k : A -> M B) s e t :
  bind m k s = Throw e t <->
  m s = Throw e t \/ exists a s', m s = Ok a s' /\ k a s' = Throw e t.
Proof.
  unfold bind. split.
  - destruct (m s) as [a s'|e' s'] eqn:E; [right; eauto | left; congruence].
  - intros [H | (a & s' & H1 & H2)]; rewrite ?H, ?H1; auto.
Qed.

Lemma ret_Ok {A} (a b : A) s t : ret a s = Ok b t <-> b = a /\ t = s.
Proof. unfold ret. split; [intros [= -> ->]; auto | intros [-> ->]; auto]. Qed.

Lemma getObj_Ok l s o t :
  getObj l s = Ok o t <-> t = s /\ heap s !! l = Some o.
Proof.
  unfold getObj. destruct (heap s !! l) eqn:E; split.
  - intros [= -> ->]; auto.
  - intros [-> [= ->]]; auto.
  - discriminate.
  - intros [_ [=]].
Qed.

Lemma getField_Ok l k s v t :
  getField l k s = Ok v t <->
  t = s /\ exists o, heap s !! l = Some o /\ v = prop o k.
Proof.
  unfold getField. rewrite bind_Ok. split.
  - intros (o & s' & H1 & H2). apply getObj_Ok in H1 as [-> H1].
    apply ret_Ok in H2 as [-> ->]. eauto.
  - intros [-> (o & H & ->)]. exists o, s. split; [by apply getObj_Ok | done].
Qed.

Lemma asRef_Ok v s l t : asRef v s = Ok l t <-> t = s /\ v = VRef l.
Proof.
  unfold asRef, throw, ret. destruct v; split; intros H; try discriminate;
    try (by destruct H as [_ [=]]); [by injection H as -> -> | by destruct H as [-> [= ->]]].
Qed.

Lemma asArr_Ok v s ls t : asArr v s = Ok ls t <-> t = s /\ v = VArr ls.
Proof.
  unfold asArr, throw, ret. destruct v; split; intros H; try discriminate;
    try (by destruct H as [_ [=]]); [by injection H as -> -> | by destruct H as [-> [= ->]]].
Qed.

Lemma asStr_Ok v s x t : asStr v s = Ok x t <-> t = s /\ v = VStr x.
Proof.
  unfold asStr, throw, ret. destruct v; split; intros H; try discriminate;
    try (by destruct H as [_ [=]]); [by injection H as -> -> | by destruct H as [-> [= ->]]].
Qed.

Lemma isType_Ok l ty s b t :
  isType l ty s = Ok b t <->
  t = s /\ exists o, heap s !! l = Some o /\ b = bool_decide (prop o "type" = VStr ty).
Proof.
  unfold isType, typeOf. rewrite bind_Ok. split.
  - intros (v & s' & H1 & H2). apply getField_Ok in H1 as [-> (o & Ho & ->)].
    apply ret_Ok in H2 as [-> ->]. eauto.
  - intros [-> (o & Ho & ->)]. exists (prop o "type"), s.
    split; [apply getField_Ok; eauto | done].
Qed.

Lemma pathVal_Ok p s v t :
  pathVal p s = Ok v t <-> t = s /\ v = slotVal (heap s) p.
Proof. unfold pathVal. split; [intros [= <- <-]; auto | intros [-> ->]; auto]. Qed.

Lemma pathNode_Ok p s l t :
  pathNode p s = Ok l t <-> t = s /\ slotVal (heap s) p = VRef l.
Proof.
  unfold pathNode. rewrite bind_Ok. split.
  - intros (v & s' & H1 & H2). apply pathVal_Ok in H1 as [-> ->].
    apply asRef_Ok in H2 as [-> H2]. auto.
  - intros [-> H]. exists (VRef l), s. split; [by apply pathVal_Ok | by apply asRef_Ok].
Qed.

Lemma alloc_Ok o s l t :
  alloc o s = Ok l t <->
  l = next s /\ t = State (heap s ++ [o]) (scopes s).
Proof. unfold alloc. split; [intros [= <- <-]; auto | intros [-> ->]; auto]. Qed.

Lemma setField_Ok l k v s u t :
  setField l k v s = Ok u t <->
  exists o, heap s !! l = Some o /\
            t = State (<[l := <[k := v]> o]> (heap s)) (scopes s).
Proof.
  unfold setField. destruct (heap s !! l) eqn:E; split.
  - intros [= <-]. eauto.
  - intros (o' & [= <-] & ->). by destruct u.
  - discriminate.
  - intros (o' & [=] & _).
Qed.

(** [wp m Q s]: from [s], [m] returns, with a result and a store in [Q]. *)
Definition wp {A} (m : M A) (Q : A -> state -> Prop) (s : state) : Prop :=
  match m s with
  | Ok a t => Q a t
  | Throw _ _ => False
  end.

Lemma wp_Ok {A} (m : M A) Q s : wp m Q s <-> exists a t, m s = Ok a t /\ Q a t.
Proof.
  unfold wp. destruct (m s) as [a t|e t]; split; try done; eauto.
  - by intros (? & ? & [= <- <-] & ?).
  - by intros (? & ? & [=] & ?).
Qed.

Lemma wp_mono {A} (m : M A) (Q Q' : A -> state -> Prop) s :
  wp m Q s -> (forall a t, Q a t -> Q' a t) -> wp m Q' s.
Proof. unfold wp. destruct (m s); auto. Qed.

Lemma wp_bind {A B} (m : M A) (k : A -> M B) Q s :
  wp m (fun a s' => wp (k a) Q s') s -> wp (bind m k) Q s.
Proof. unfold wp, bind. by destruct (m s). Qed.

Lemma wp_eq {A} (m : M A) (Q : A -> state -> Prop) s a t :
  m s = Ok a t -> Q a t -> wp m Q s.
Proof. unfold wp. by intros ->. Qed.

Lemma wp_ret {A} (a : A) (Q : A -> state -> Prop) s : Q a s -> wp (ret a) Q s.
Proof. done. Qed.

Lemma wp_alloc (o : obj) (Q : loc -> state -> Prop) s :
  Q (next s) (State (heap s ++ [o]) (scopes s)) ->
  wp (alloc o) Q s.
Proof. done. Qed.

Lemma wp_getObj l (o : obj) (Q : obj -> state -> Prop) s :
  heap s !! l = Some o -> Q o s -> wp (getObj l) Q s.
Proof. unfold wp, getObj. by intros ->. Qed.

Lemma wp_getField l k (o : obj) (Q : val -> state -> Prop) s :
  heap s !! l = Some o -> Q (prop o k) s -> wp (getField l k) Q s.
Proof. intros H HQ. apply wp_bind. by apply (wp_getObj l o). Qed.

Lemma wp_isType l ty (o : obj) (Q : bool -> state -> Prop) s :
  heap s !! l = Some o -> Q (bool_decide (prop o "type" = VStr ty)) s ->
  wp (isType l ty) Q s.
Proof. intros H HQ. apply wp_bind. by apply (wp_getField l "type" o). Qed.

Lemma wp_setField l k v (o : obj) (Q : unit -> state -> Prop) s :
  heap s !! l = Some o ->
  Q tt (State (<[l := <[k := v]> o]> (heap s)) (scopes s)) ->
  wp (setField l k v) Q s.
Proof. unfold wp, setField. by intros ->. Qed.

Lemma wp_asRef l (Q : loc -> state -> Prop) s : Q l s -> wp (asRef (VRef l)) Q s.
Proof. done. Qed.

Lemma wp_asArr ls (Q : list loc -> state -> Prop) s : Q ls s -> wp (asArr (VArr ls)) Q s.
Proof. done. Qed.

Lemma wp_pathNode p l (Q : loc -> state -> Prop) s :
  slotVal (heap s) p = VRef l -> Q l s -> wp (pathNode p) Q s.
Proof. intros H HQ. unfold wp, pathNode, bind, pathVal. by rewrite H. Qed.

(** ** The node normalizer *)

(** *** What the builders accept *)

(** An array of nodes of the types [types]. *)
Definition arrayOk (h : store) (types : list string) (v : val) : bool :=
  match v with
  | VArr ls => forallb (fun l => isNode h types (VRef l)) ls
  | _ => false
  end.

(** The parameters are an array of parameter nodes. *)
Definition paramsOk (h : store) (params : val) : bool :=
  arrayOk h ["Identifier"; "Pattern"; "RestElement"] params.

(** A flag is a boolean, or [undefined], which the builder takes for
    [false]. *)
Definition flagOk (v : val) : bool :=
  match v with VUndef | VBool _ => true | _ => false end.

(** A name is [null], [undefined] or an identifier. *)
Definition idOk (h : store) (id : val) : bool :=
  nullish id || isNode h ["Identifier"] id.

(** [v.type === "BlockStatement"] *)
Definition blockNode (h : store) (v : val) : bool :=
  bool_decide (typeOfVal h v = VStr "BlockStatement").

(** A body is a block, or an expression. *)
Definition bodyOk (h : store) (body : val) : bool :=
  blockNode h body || isNode h ["Expression"] body.

(** [name ?? functionName(node)] for the node [o]. *)
Definition defaultName (o : obj) (name : val) : val :=
  if nullish name then
    if bool_decide (prop o "type" = VStr "FunctionDeclaration")
       || bool_decide (prop o "type" = VStr "FunctionExpression")
    then coalesce (prop o "id") VUndef
    else VUndef
  else name.

(** A function-like node [o] that the conversions to a declaration and to a
    function expression named [name] take: the properties they hand to the
    builder pass its checks. *)
Definition functionOk (h : store) (o : obj) (name : val) : bool :=
  idOk h (defaultName o name)
  && paramsOk h (prop o "params")
  && bodyOk h (prop o "body")
  && flagOk (prop o "generator")
  && flagOk (prop o "async").

(** A function-like node that the conversion to an arrow takes. *)
Definition arrowOk (h : store) (o : obj) : bool :=
  paramsOk h (prop o "params")
  && isNode h ["BlockStatement"; "Expression"] (prop o "body")
  && flagOk (prop o "async").

(** *** The checks, run *)

Arguments isNode : simpl never.

Lemma assertNodeType_Ok ty types key v s u t :
  assertNodeType ty types key v s = Ok u t <->
  t = s /\ isNode (heap s) types v = true.
Proof.
  unfold assertNodeType. destruct (isNode (heap s) types v); split.
  - by intros [= _ <-].
  - intros [-> _]. by destruct u.
  - discriminate.
  - by intros [_ ?].
Qed.

Lemma assertValueType_Ok type key v s u t :
  assertValueType type key v s = Ok u t <-> t = s /\ getType v = type.
Proof.
  unfold assertValueType. destruct (String.eqb_spec (getType v) type); split.
  - by intros [_ <-]%ret_Ok.
  - intros [-> _]. by destruct u.
  - discriminate.
  - by intros [_ ?].
Qed.

Lemma optionally_Ok ty types key v s u t :
  optionally (assertNodeType ty types) key v s = Ok u t <->
  t = s /\ nullish v || isNode (heap s) types v = true.
Proof.
  unfold optionally. destruct (nullish v); simpl.
  - split; [by intros [_ <-]%ret_Ok|]. intros [-> _]. by destruct u.
  - apply assertNodeType_Ok.
Qed.

Lemma assertEach_Ok ty types key ls s u t :
  assertEach (assertNodeType ty types) key (VArr ls) s = Ok u t <->
  t = s /\ forallb (fun l => isNode (heap s) types (VRef l)) ls = true.
Proof.
  unfold assertEach.
  cut (forall g : nat -> nat,
         forM_ (imap (fun i l => (g i, l)) ls)
           (fun '(i, l) => assertNodeType ty types (key +:+ "[" +:+ pretty i +:+ "]")
                             (VRef l)) s = Ok u t <->
         t = s /\ forallb (fun l => isNode (heap s) types (VRef l)) ls = true).
  { intros H. apply (H id). }
  induction ls as [|l ls IH]; intros g; simpl.
  - split; [by intros [_ <-]%ret_Ok|]. intros [-> _]. by destruct u.
  - rewrite bind_Ok. split.
    + intros ([] & s' & [-> Hl]%assertNodeType_Ok & H).
      apply (IH (g ∘ S)) in H as [-> H]. by rewrite Hl, H.
    + intros [-> [Hl H]%andb_true_iff]. exists tt, s.
      split; [by apply assertNodeType_Ok|]. by apply (IH (g ∘ S)).
Qed.

Lemma assertArrayOf_Ok ty types key v s u t :
  assertArrayOf ty types key v s = Ok u t <->
  t = s /\ arrayOk (heap s) types v = true.
Proof.
  unfold assertArrayOf, arrayOk. rewrite bind_Ok. split.
  - intros ([] & s' & [-> Hty]%assertValueType_Ok & H).
    destruct v; try discriminate. by apply assertEach_Ok in H.
  - intros [-> H]. destruct v; try discriminate. exists tt, s.
    split; [by apply assertValueType_Ok|]. by apply assertEach_Ok.
Qed.

Lemma assertParams_Ok ty params s u t :
  assertParams ty params s = Ok u t <-> t = s /\ paramsOk (heap s) params = true.
Proof. apply assertArrayOf_Ok. Qed.

Lemma assertOneOf_Ok values key v s u t :
  assertOneOf values key v s = Ok u t <->
  t = s /\ existsb (String.eqb v) values = true.
Proof.
  unfold assertOneOf. destruct (existsb _ _); split.
  - by intros [_ <-]%ret_Ok.
  - intros [-> _]. by destruct u.
  - discriminate.
  - by intros [_ ?].
Qed.

(** A check returns in the state it was run in. *)
Definition isCheck (m : M unit) : Prop := forall s u t, m s = Ok u t -> t = s.

Lemma isCheck_assertNodeType ty types key v : isCheck (assertNodeType ty types key v).
Proof. by intros s u t [-> _]%assertNodeType_Ok. Qed.

Lemma isCheck_assertValueType type key v : isCheck (assertValueType type key v).
Proof. by intros s u t [-> _]%assertValueType_Ok. Qed.

Lemma isCheck_optionally ty types key v :
  isCheck (optionally (assertNodeType ty types) key v).
Proof. by intros s u t [-> _]%optionally_Ok. Qed.

Lemma isCheck_assertArrayOf ty types key v : isCheck (assertArrayOf ty types key v).
Proof. by intros s u t [-> _]%assertArrayOf_Ok. Qed.

Lemma isCheck_assertParams ty params : isCheck (assertParams ty params).
Proof. apply isCheck_assertArrayOf. Qed.

Lemma isCheck_assertOneOf values key v : isCheck (assertOneOf values key v).
Proof. by intros s u t [-> _]%assertOneOf_Ok. Qed.

Create HintDb checks.
#[local] Hint Resolve isCheck_assertNodeType isCheck_assertValueType isCheck_optionally
  isCheck_assertArrayOf isCheck_assertParams isCheck_assertOneOf : checks.

(** A run that returns has gone through its checks. *)
Lemma bind_check {B} (m : M unit) (k : unit -> M B) s b t :
  isCheck m -> bind m k s = Ok b t -> k tt s = Ok b t.
Proof.
  intros Hm H. apply bind_Ok in H as ([] & s' & H1 & H2).
  by rewrite (Hm _ _ _ H1) in H2.
Qed.

Ltac skip_check H :=
  lazymatch type of H with
  | bind ?m ?k ?s = Ok ?b ?t =>
      let C := constr:(ltac:(solve [auto with checks]) : isCheck m) in
      apply (bind_check m k s b t C) in H; cbv beta in H
  end.

Lemma flagOk_boolean v : flagOk v = true -> getType (orDefault (VBool false) v) = "boolean".
Proof. by destruct v. Qed.

(** The checks read the types of nodes: they go through in a larger store. *)
Lemma isNode_mono (h h' : store) types v :
  (forall l (x : obj), h !! l = Some x -> h' !! l = Some x) ->
  isNode h types v = true -> isNode h' types v = true.
Proof.
  intros Hh H. unfold isNode in *.
  assert (typeOfVal h' v = typeOfVal h v) as ->; [|done].
  destruct v as [| | | |l|]; try done. simpl in *.
  destruct (h !! l) as [x|] eqn:Hx; [by rewrite (Hh _ _ Hx)|].
  simpl in H. exfalso. clear -H. induction types as [|ty types IH]; [done|by apply IH].
Qed.

Lemma arrayOk_mono (h h' : store) types v :
  (forall l (x : obj), h !! l = Some x -> h' !! l = Some x) ->
  arrayOk h types v = true -> arrayOk h' types v = true.
Proof.
  intros Hh. unfold arrayOk. destruct v as [| | | | |ls]; try done.
  rewrite !forallb_forall. intros H l Hl. eapply isNode_mono; eauto.
Qed.

Lemma paramsOk_mono (h h' : store) params :
  (forall l (x : obj), h !! l = Some x -> h' !! l = Some x) ->
  paramsOk h params = true -> paramsOk h' params = true.
Proof.
  intros Hh. by apply arrayOk_mono.
Qed.

Lemma idOk_mono (h h' : store) id :
  (forall l (x : obj), h !! l = Some x -> h' !! l = Some x) ->
  idOk h id = true -> idOk h' id = true.
Proof.
  intros Hh. unfold idOk. destruct (nullish id); [done|]. rewrite !orb_false_l.
  by apply isNode_mono.
Qed.

Lemma idOk_orDefault h id : idOk h (orDefault VNull id) = idOk h id.
Proof. by destruct id. Qed.

(** *** The conversions *)

(** [v] is the body [body] of a function-like node, as a block: [body]
    itself when it is a block statement, and otherwise a new block whose only
    statement returns [body]. *)
Definition normalizedBody (h : store) (body v : val) : Prop :=
  exists b bo, body = VRef b /\ h !! b = Some bo /\
    if bool_decide (prop bo "type" = VStr "BlockStatement") then v = body
    else exists blk r,
      v = VRef blk /\
      h !! blk = Some (mkObj "BlockStatement" [("body", VArr [r]); ("directives", VArr [])]) /\
      h !! r = Some (mkObj "ReturnStatement" [("argument", body)]).

(** What a conversion to a declaration or to a function expression of type
    [ty] makes of the node [o]. *)
Definition normalizedFunction (ty : string) (o : obj) (name : val)
    (h : store) (f : loc) : Prop :=
  exists fo, h !! f = Some fo /\
    prop fo "type" = VStr ty /\
    (nullish name = false -> prop fo "id" = name) /\
    prop fo "params" = prop o "params" /\
    normalizedBody h (prop o "body") (prop fo "body") /\
    prop fo "generator" = orDefault (VBool false) (prop o "generator") /\
    prop fo "async" = orDefault (VBool false) (prop o "async") /\
    prop fo "returnType" = prop o "returnType".

(** What the conversion to an arrow expression makes of the node [o]: the
    arrow has no [generator] property. *)
Definition arrowOf (o : obj) (h : store) (f : loc) : Prop :=
  exists fo : obj, h !! f = Some fo /\
    prop fo "type" = VStr "ArrowFunctionExpression" /\
    prop fo "params" = prop o "params" /\
    prop fo "body" = prop o "body" /\
    prop fo "async" = orDefault (VBool false) (prop o "async") /\
    prop fo "returnType" = prop o "returnType" /\
    fo !! "generator" = None.

Lemma bind_run {A B} (m : M A) (k : A -> M B) s a s' :
  m s = Ok a s' -> bind m k s = k a s'.
Proof. unfold bind. by intros ->. Qed.

Lemma getField_run l k (o : obj) s :
  heap s !! l = Some o -> getField l k s = Ok (prop o k) s.
Proof. intros H. apply getField_Ok. eauto. Qed.

Lemma isType_run l ty (o : obj) s :
  heap s !! l = Some o ->
  isType l ty s = Ok (bool_decide (prop o "type" = VStr ty)) s.
Proof. intros H. apply isType_Ok. eauto. Qed.

Lemma functionName_run node (o : obj) s :
  heap s !! node = Some o ->
  functionName node s = Ok (defaultName o VUndef) s.
Proof.
  intros Ho. unfold functionName, typeOf, defaultName. simpl.
  rewrite (bind_run _ _ _ _ _ (getField_run _ "type" _ _ Ho)).
  destruct (_ || _); [|done].
  by rewrite (bind_run _ _ _ _ _ (getField_run _ "id" _ _ Ho)).
Qed.

Lemma defaultName_run node name (o : obj) s :
  heap s !! node = Some o ->
  (if nullish name then functionName node else ret name) s = Ok (defaultName o name) s.
Proof.
  intros Ho. unfold defaultName. destruct (nullish name) eqn:E; [|done].
  by rewrite (functionName_run _ _ _ Ho).
Qed.

Lemma defaultName_name o name : nullish name = false -> defaultName o name = name.
Proof. unfold defaultName. by intros ->. Qed.

Lemma prop_mkObj_type ty fields : prop (mkObj ty fields) "type" = VStr ty.
Proof. unfold prop, mkObj. by rewrite lookup_insert_eq. Qed.

Lemma lookup_alloc_old (h : store) (o x : obj) l :
  h !! l = Some x -> (h ++ [o]) !! l = Some x.
Proof. apply lookup_app_l_Some. Qed.

Lemma lookup_alloc_new (h : store) (o : obj) : (h ++ [o]) !! length h = Some o.
Proof. apply list_lookup_middle. done. Qed.

Lemma wp_validated {A} (m : M unit) (k : M A) (Q : A -> state -> Prop) s :
  m s = Ok tt s -> wp k Q s -> wp (do! m in k) Q s.
Proof. intros Hm Hk. apply wp_bind. by apply (wp_eq _ _ _ _ _ Hm). Qed.

Lemma bodyOk_node h body :
  bodyOk h body = true ->
  exists b bo, body = VRef b /\ h !! b = Some bo /\
    (bool_decide (prop bo "type" = VStr "BlockStatement") = false ->
     isNode h ["Expression"] body = true).
Proof.
  unfold bodyOk, blockNode, isNode. intros H.
  assert (exists ty, typeOfVal h body = VStr ty) as [ty Hty].
  { destruct (typeOfVal h body) as [| | |ty| |]; try (by vm_compute in H). eauto. }
  destruct body as [| | | |b|]; try done. simpl in *.
  destruct (h !! b) as [bo|] eqn:Hbo; [|done]. simpl in *. exists b, bo.
  split; [done|]. split; [done|]. intros E. by rewrite E in H.
Qed.

Lemma wp_blockBody node (o : obj) (Q : val -> state -> Prop) s :
  aliasHas "Statement" "ReturnStatement" = true ->
  heap s !! node = Some o -> bodyOk (heap s) (prop o "body") = true ->
  (forall v t, next s <= next t ->
     (forall l x, heap s !! l = Some x -> heap t !! l = Some x) ->
     normalizedBody (heap t) (prop o "body") v ->
     isNode (heap t) ["BlockStatement"] v = true -> Q v t) ->
  wp (blockBody node) Q s.
Proof.
  intros Hret Ho Hok HQ. apply bodyOk_node in Hok as (b & bo & Hb & Hbo & Hexpr).
  unfold blockBody.
  apply wp_bind, (wp_getField _ _ o); [done|]. rewrite Hb.
  apply wp_bind, wp_asRef, wp_bind, (wp_isType _ _ bo); [done|].
  destruct (bool_decide _) eqn:E.
  - apply wp_ret, HQ; auto; [exists b, bo; by rewrite E|].
    apply bool_decide_eq_true in E. unfold isNode. simpl. rewrite Hbo. simpl.
    rewrite E. unfold isOfType. by rewrite String.eqb_refl.
  - unfold returnStatement, blockStatement. simpl orDefault.
    apply wp_bind, wp_validated.
    { apply optionally_Ok. split; [done|].
      change (isNode (heap s) ["Expression"] (VRef b) = true).
      rewrite <- Hb. by apply Hexpr. }
    apply wp_alloc, wp_bind, wp_validated.
    { apply assertArrayOf_Ok. split; [done|]. unfold arrayOk, isNode, next. simpl.
      rewrite lookup_alloc_new. simpl. rewrite prop_mkObj_type. simpl.
      by rewrite Hret. }
    apply wp_alloc, wp_ret.
    apply HQ.
    + unfold next. simpl. rewrite !length_app. lia.
    + intros l x Hx. simpl. by do 2 apply lookup_alloc_old.
    + exists b, bo. split; [done|]. split.
      { simpl. by do 2 apply lookup_alloc_old. }
      rewrite E. unfold next. simpl.
      exists (length (heap s ++ [mkObj "ReturnStatement" [("argument", VRef b)]])),
        (length (heap s)).
      split; [done|]. split.
      * apply lookup_alloc_new.
      * rewrite Hb. apply lookup_alloc_old, lookup_alloc_new.
    + unfold isNode, next. simpl. rewrite lookup_alloc_new. simpl.
      by rewrite prop_mkObj_type.
Qed.

Ltac prop_solve :=
  unfold prop, mkObj; simpl;
  repeat (rewrite lookup_insert_eq || rewrite lookup_insert_ne by done);
  try done.

Lemma normalizedBody_mono h h' body v :
  (forall l (x : obj), h !! l = Some x -> h' !! l = Some x) ->
  normalizedBody h body v -> normalizedBody h' body v.
Proof.
  intros Hh (b & bo & -> & Hb & H). exists b, bo. split; [done|]. split; [auto|].
  destruct (bool_decide _); [done|].
  destruct H as (blk & r & -> & H1 & H2). exists blk, r. auto.
Qed.

Lemma wp_functionLike ty node name (o : obj) s :
  aliasHas "Statement" "ReturnStatement" = true ->
  heap s !! node = Some o -> functionOk (heap s) o name = true ->
  wp (let! id := (if nullish name then functionName node else ret name) in
      let! params := getField node "params" in
      let! body := blockBody node in
      let! generator := getField node "generator" in
      let! async := getField node "async" in
      let! f := functionNode ty id params body generator async in
      let! returnType := getField node "returnType" in
      assignReturnType f returnType)
     (fun f t => normalizedFunction ty o name (heap t) f) s.
Proof.
  intros Hret Ho Hok. unfold functionOk in Hok.
  apply andb_true_iff in Hok as [Hok Hasync]. apply andb_true_iff in Hok as [Hok Hgen].
  apply andb_true_iff in Hok as [Hok Hbody]. apply andb_true_iff in Hok as [Hid Hparams].
  apply wp_bind, (wp_eq _ _ _ _ _ (defaultName_run _ name _ _ Ho)).
  apply wp_bind, (wp_getField _ _ o); [done|].
  apply wp_bind, (wp_blockBody _ o); try done.
  intros body t Hnext Hold Hnorm Hblock.
  apply wp_bind, (wp_getField _ _ o); [by apply Hold|].
  apply wp_bind, (wp_getField _ _ o); [by apply Hold|].
  unfold functionNode. apply wp_bind.
  apply wp_validated.
  { apply optionally_Ok. split; [done|].
    fold (idOk (heap t) (orDefault VNull (defaultName o name))).
    rewrite idOk_orDefault. by eapply idOk_mono. }
  apply wp_validated.
  { apply assertParams_Ok. split; [done|]. by eapply paramsOk_mono. }
  apply wp_validated; [by apply assertNodeType_Ok|].
  apply wp_validated; [apply assertValueType_Ok; split; [done|by apply flagOk_boolean]|].
  apply wp_validated; [apply assertValueType_Ok; split; [done|by apply flagOk_boolean]|].
  apply wp_alloc.
  apply wp_bind, (wp_getField _ _ o); [simpl; by apply lookup_alloc_old, Hold|].
  unfold assignReturnType. apply wp_bind.
  eapply wp_setField; [simpl; apply lookup_alloc_new|].
  apply wp_ret. unfold next; simpl.
  eexists. split; [apply list_lookup_insert_eq; rewrite length_app; simpl; lia|].
  split; [prop_solve|]. split.
  { intros Hn. rewrite (defaultName_name _ _ Hn). prop_solve. by destruct name. }
  split; [prop_solve|]. split.
  { match goal with |- normalizedBody _ _ ?v =>
      assert (v = body) as -> by prop_solve end.
    eapply normalizedBody_mono; [|exact Hnorm].
    intros l x Hx. pose proof (lookup_lt_Some _ _ _ Hx).
    rewrite list_lookup_insert_ne by lia. by apply lookup_alloc_old. }
  repeat split; prop_solve.
Qed.

Lemma wp_arrowFunctionExpressionFrom node (o : obj) s :
  heap s !! node = Some o -> arrowOk (heap s) o = true ->
  wp (arrowFunctionExpressionFrom node) (fun f t => arrowOf o (heap t) f) s.
Proof.
  intros Ho Hok. unfold arrowOk in Hok.
  apply andb_true_iff in Hok as [Hok Hasync]. apply andb_true_iff in Hok as [Hparams Hbody].
  unfold arrowFunctionExpressionFrom.
  apply wp_bind, (wp_getField _ _ o); [done|].
  apply wp_bind, (wp_getField _ _ o); [done|].
  apply wp_bind, (wp_getField _ _ o); [done|].
  unfold arrowFunctionExpression. apply wp_bind.
  apply wp_validated; [by apply assertParams_Ok|].
  apply wp_validated; [by apply assertNodeType_Ok|].
  apply wp_validated; [apply assertValueType_Ok; split; [done|by apply flagOk_boolean]|].
  apply wp_alloc.
  apply wp_bind, (wp_getField _ _ o); [simpl; by apply lookup_alloc_old|].
  unfold assignReturnType. apply wp_bind.
  eapply wp_setField; [simpl; apply lookup_alloc_new|].
  apply wp_ret. unfold next; simpl.
  eexists. split; [apply list_lookup_insert_eq; rewrite length_app; simpl; lia|].
  repeat split; prop_solve.
Qed.

(** A well-formed node for the conversions to a function is one for the
    conversion to an arrow. *)
Lemma functionOk_arrowOk h o name : functionOk h o name = true -> arrowOk h o = true.
Proof.
  unfold functionOk, arrowOk. intros H.
  apply andb_true_iff in H as [H Hasync]. apply andb_true_iff in H as [H _].
  apply andb_true_iff in H as [H Hbody]. apply andb_true_iff in H as [_ Hparams].
  rewrite Hparams, Hasync, andb_true_r. simpl.
  unfold bodyOk, blockNode, isNode in *. simpl in *.
  destruct (typeOfVal h (prop o "body")) as [| | |ty| |]; try done. simpl in *.
  rewrite orb_false_r in Hbody. apply orb_true_iff in Hbody as [Hb|Hb].
  - apply bool_decide_eq_true in Hb. injection Hb as ->. by rewrite String.eqb_refl.
  - rewrite Hb. by rewrite !orb_true_r.
Qed.

(** C6, as amended: on a function-like node whose parameters, body, flags
    and name pass the checks of the builders ([functionOk]), and with return
    statements among the statements of Babel's table, the conversions
    to a function declaration and to a function expression return, make the
    body a block (an expression body becomes a block with one return
    statement) and carry over the parameters, the generator flag, the async
    flag and the return-type annotation; the conversion to an arrow
    expression returns as well and carries over the parameters, the async
    flag and the return-type annotation, keeping the body as it is and
    setting no generator flag. *)
Theorem C6_normalizer_conversions node name (o : obj) s
    (Hreturn : aliasHas "Statement" "ReturnStatement" = true)
    (Hnode : heap s !! node = Some o)
    (Hok : functionOk (heap s) o name = true) :
  (exists f t, functionDeclarationFrom node name s = Ok f t /\
     normalizedFunction "FunctionDeclaration" o name (heap t) f) /\
  (exists f t, functionExpressionFrom node name s = Ok f t /\
     normalizedFunction "FunctionExpression" o name (heap t) f) /\
  (exists f t, arrowFunctionExpressionFrom node s = Ok f t /\
     arrowOf o (heap t) f).
Proof.
  split; [|split].
  - apply wp_Ok. by apply wp_functionLike.
  - apply wp_Ok. by apply wp_functionLike.
  - apply wp_Ok. apply wp_arrowFunctionExpressionFrom; [done|].
    by eapply functionOk_arrowOk.
Qed.

(** ** [toTSEntity] *)

Ltac inv_step :=
  match goal with
  | H : bind _ _ _ = Ok _ _ |- _ => skip_check H
  | H : bind _ _ _ = Ok _ _ |- _ => apply bind_Ok in H as (? & ? & ? & H)
  | H : ret _ _ = Ok _ _ |- _ => apply ret_Ok in H as [? ?]; subst
  | H : throw _ _ = Ok _ _ |- _ => discriminate H
  | H : getObj _ _ = Ok _ _ |- _ => apply getObj_Ok in H as [? ?]; subst
  | H : getField _ _ _ = Ok _ _ |- _ => apply getField_Ok in H as [? (? & ? & ?)]; subst
  | H : typeOf _ _ = Ok _ _ |- _ => apply getField_Ok in H as [? (? & ? & ?)]; subst
  | H : asRef _ _ = Ok _ _ |- _ => apply asRef_Ok in H as [? ?]; subst
  | H : asArr _ _ = Ok _ _ |- _ => apply asArr_Ok in H as [? ?]; subst
  | H : asStr _ _ = Ok _ _ |- _ => apply asStr_Ok in H as [? ?]; subst
  | H : isType _ _ _ = Ok _ _ |- _ => apply isType_Ok in H as [? (? & ? & ?)]; subst
  | H : pathVal _ _ = Ok _ _ |- _ => apply pathVal_Ok in H as [? ?]; subst
  | H : pathNode _ _ = Ok _ _ |- _ => apply pathNode_Ok in H as [? ?]; subst
  | H : alloc _ _ = Ok _ _ |- _ => apply alloc_Ok in H as [? ?]; subst
  | H : setField _ _ _ _ = Ok _ _ |- _ => apply setField_Ok in H as (? & ? & ?); subst
  end.
Ltac inv_run := repeat inv_step.

(** A member access that [toTSEntity] descends into: not computed, with an
    identifier as its property. *)
Definition entityMember (h : store) (o : obj) (object : loc) : Prop :=
  prop o "type" = VStr "MemberExpression" /\
  truthy (prop o "computed") = false /\
  (exists pr po, prop o "property" = VRef pr /\ h !! pr = Some po /\
                 prop po "type" = VStr "Identifier") /\
  prop o "object" = VRef object.

(** [entityExpr h e d]: [e] is built from identifiers and such member
    accesses only, [d] of them. *)
Inductive entityExpr (h : store) : loc -> nat -> Prop :=
  | entity_identifier e o :
      h !! e = Some o -> prop o "type" = VStr "Identifier" ->
      entityExpr h e 0
  | entity_member e o object d :
      h !! e = Some o -> entityMember h o object ->
      entityExpr h object d ->
      entityExpr h e (S d).

(** A node that is neither an identifier nor such a member access. *)
Definition otherShape (h : store) (o : obj) : Prop :=
  prop o "type" <> VStr "Identifier" /\
  (prop o "type" <> VStr "MemberExpression" \/
   truthy (prop o "computed") = true \/
   exists pr po, prop o "property" = VRef pr /\ h !! pr = Some po /\
                 prop po "type" <> VStr "Identifier").

(** [otherExpr h e d ty]: under [d] member accesses, [e] holds a node of
    another shape, of type [ty]. *)
Inductive otherExpr (h : store) : loc -> nat -> val -> Prop :=
  | other_here e o :
      h !! e = Some o -> otherShape h o ->
      otherExpr h e 0 (prop o "type")
  | other_below e o object d ty :
      h !! e = Some o -> entityMember h o object ->
      otherExpr h object d ty ->
      otherExpr h e (S d) ty.

Lemma toTSEntity_only fuel : forall e s r t,
  toTSEntity_rec fuel e s = Ok r t -> exists d, entityExpr (heap s) e d.
Proof.
  induction fuel as [|fuel IH]; intros e s r t H; [discriminate|].
  simpl in H. apply bind_Ok in H as (ty & s1 & Hty & H).
  apply getField_Ok in Hty as [-> (o & Ho & ->)].
  apply bind_Ok in H as (isMember & s1 & Hm & H).
  destruct (bool_decide (prop o "type" = VStr "MemberExpression")) eqn:Et.
  - apply bool_decide_eq_true in Et.
    apply bind_Ok in Hm as (computed & s2 & Hc & Hm).
    apply getField_Ok in Hc as [-> (o' & Ho' & ->)].
    assert (o' = o) as -> by congruence.
    destruct (truthy (prop o "computed")) eqn:Ec.
    + apply ret_Ok in Hm as [-> ->].
      rewrite Et in H. simpl in H. discriminate.
    + inv_run.
      match goal with H : heap s !! e = Some ?x |- _ =>
        assert (x = o) as -> by congruence end.
      destruct (bool_decide (prop _ "type" = VStr "Identifier")) eqn:Ep.
      * apply bool_decide_eq_true in Ep.
        inv_run.
        repeat match goal with H : heap s !! e = Some ?x |- _ =>
          assert (x = o) as -> by congruence; clear H end.
        match goal with H : toTSEntity_rec _ _ _ = Ok _ _ |- _ =>
          apply IH in H as (d & Hd) end.
        exists (S d). eapply entity_member; eauto.
        split; [done|]. split; [done|]. split; eauto.
      * rewrite Et in H. simpl in H. discriminate.
  - apply ret_Ok in Hm as [-> ->].
    destruct (bool_decide (prop o "type" = VStr "Identifier")) eqn:Ei.
    + apply bool_decide_eq_true in Ei. exists 0. by eapply entity_identifier.
    + discriminate.
Qed.

Lemma isNode_alloc_new (h : store) ty fields types :
  existsb (isOfType (VStr ty)) types = true ->
  isNode (h ++ [mkObj ty fields]) types (VRef (length h)) = true.
Proof.
  intros H. unfold isNode. simpl. rewrite lookup_alloc_new. simpl.
  by rewrite prop_mkObj_type.
Qed.

Lemma isNode_lookup (h : store) l (o : obj) ty types :
  h !! l = Some o -> prop o "type" = VStr ty ->
  existsb (isOfType (VStr ty)) types = true ->
  isNode h types (VRef l) = true.
Proof. intros Ho Hty H. unfold isNode. simpl. rewrite Ho. simpl. by rewrite Hty. Qed.

Lemma toTSEntity_succeeds fuel
    (Hid : aliasHas "TSEntityName" "Identifier" = true)
    (Hqn : aliasHas "TSEntityName" "TSQualifiedName" = true) : forall s e d,
  entityExpr (heap s) e d -> d < fuel ->
  exists r t, toTSEntity_rec fuel e s = Ok r t /\
              scopes t = scopes s /\ (exists h', heap t = heap s ++ h') /\
              isNode (heap t) ["TSEntityName"] (VRef r) = true.
Proof.
  induction fuel as [|fuel IH]; intros s e d He Hf; [lia|].
  simpl. unfold typeOf, cloneNode.
  inversion He as [e' o Ho Ht | e' o object d' Ho Hm Hd]; subst.
  - rewrite (bind_run _ _ _ _ _ (getField_run e "type" o s Ho)).
    rewrite Ht. simpl. unfold bind at 1. simpl.
    rewrite (bind_run _ _ _ _ _ (proj2 (getObj_Ok e s o s) (conj eq_refl Ho))).
    eexists _, _. split; [reflexivity|]. split; [done|]. split; [simpl; eauto|].
    cbn [heap]. eapply isNode_lookup; [apply lookup_alloc_new|exact Ht|].
    simpl. by rewrite Hid.
  - destruct (IH s object d' Hd ltac:(lia)) as (left & t & Hleft & Hsc & [h' Hh'] & Hl).
    pose proof Hm as (Ht & Hc & (pr & po & Hp & Hpo & Hpt) & Hob).
    rewrite (bind_run _ _ _ _ _ (getField_run e "type" o s Ho)).
    rewrite Ht. simpl.
    rewrite (bind_run _ _ s true s).
    2:{ rewrite (bind_run _ _ _ _ _ (getField_run e "computed" o s Ho)).
        rewrite Hc.
        rewrite (bind_run _ _ _ _ _ (getField_run e "property" o s Ho)).
        rewrite Hp. unfold bind at 1. simpl.
        rewrite (isType_run pr "Identifier" po) by done.
        by rewrite bool_decide_eq_true_2. }
    rewrite (bind_run _ _ _ _ _ (getField_run e "object" o s Ho)).
    rewrite Hob. unfold bind at 1. simpl.
    rewrite (bind_run _ _ _ _ _ Hleft).
    assert (forall l (x : obj), heap s !! l = Some x -> heap t !! l = Some x) as Hold
      by (intros; rewrite Hh'; by apply lookup_app_l_Some).
    rewrite (bind_run _ _ _ _ _ (getField_run e "property" o t (Hold _ _ Ho))).
    rewrite Hp. unfold bind at 1. simpl.
    unfold bind at 1 2.
    rewrite (proj2 (getObj_Ok pr t po t) (conj eq_refl (Hold _ _ Hpo))).
    cbn [alloc]. unfold tsQualifiedName.
    erewrite (bind_run _ _ _ tt).
    2:{ apply assertNodeType_Ok. split; [reflexivity|]. simpl.
        eapply isNode_mono; [|exact Hl]. intros; by apply lookup_alloc_old. }
    erewrite (bind_run _ _ _ tt).
    2:{ apply assertNodeType_Ok. split; [reflexivity|]. simpl.
        by eapply isNode_lookup; [apply lookup_alloc_new|exact Hpt|]. }
    eexists _, _. split; [reflexivity|]. split; [done|]. split.
    { simpl. eexists. rewrite Hh', <- !app_assoc. reflexivity. }
    unfold next. cbn [heap].
    apply isNode_alloc_new. simpl. by rewrite Hqn.
Qed.

Lemma toTSEntity_throws fuel : forall s e d ty,
  otherExpr (heap s) e d ty -> d < fuel ->
  toTSEntity_rec fuel e s
  = Throw (Error ("Cannot convert to TSEntityName: " +:+ showVal ty)) s.
Proof.
  induction fuel as [|fuel IH]; intros s e d ty He Hf; [lia|].
  simpl. unfold typeOf.
  inversion He as [e' o Ho [Hni Hsh] | e' o object d' ty' Ho Hm Hd]; subst.
  - rewrite (bind_run _ _ _ _ _ (getField_run e "type" o s Ho)).
    rewrite (bind_run _ _ s false s).
    { by rewrite bool_decide_eq_false_2. }
    destruct (bool_decide (prop o "type" = VStr "MemberExpression")) eqn:Et; [|done].
    apply bool_decide_eq_true in Et.
    rewrite (bind_run _ _ _ _ _ (getField_run e "computed" o s Ho)).
    destruct Hsh as [Hsh | [Hsh | (pr & po & Hp & Hpo & Hpt)]]; [done | by rewrite Hsh |].
    destruct (truthy (prop o "computed")); [done|].
    rewrite (bind_run _ _ _ _ _ (getField_run e "property" o s Ho)).
    rewrite Hp. unfold bind at 1. simpl.
    rewrite (isType_run pr "Identifier" po) by done.
    by rewrite bool_decide_eq_false_2.
  - pose proof Hm as (Ht & Hc & (pr & po & Hp & Hpo & Hpt) & Hob).
    rewrite (bind_run _ _ _ _ _ (getField_run e "type" o s Ho)).
    rewrite Ht. simpl.
    rewrite (bind_run _ _ s true s).
    2:{ rewrite (bind_run _ _ _ _ _ (getField_run e "computed" o s Ho)).
        rewrite Hc.
        rewrite (bind_run _ _ _ _ _ (getField_run e "property" o s Ho)).
        rewrite Hp. unfold bind at 1. simpl.
        rewrite (isType_run pr "Identifier" po) by done.
        by rewrite bool_decide_eq_true_2. }
    rewrite (bind_run _ _ _ _ _ (getField_run e "object" o s Ho)).
    rewrite Hob. unfold bind at 1. simpl.
    unfold bind. by rewrite (IH s object d' ty Hd ltac:(lia)).
Qed.

(** ** No [AnalysisError] comes out of the transformation *)

Definition noAE {A} (m : M A) : Prop :=
  forall s e t, m s = Throw e t -> isAnalysisError e = false.

Lemma noAE_ret {A} (a : A) : noAE (ret a).
Proof. intros s e t. discriminate. Qed.

Lemma noAE_throw {A} e : isAnalysisError e = false -> noAE (@throw A e).
Proof. intros He s e' t [= <- _]. done. Qed.

Lemma noAE_bind {A B} (m : M A) (k : A -> M B) :
  noAE m -> (forall a, noAE (k a)) -> noAE (bind m k).
Proof.
  intros Hm Hk s e t H. apply bind_Throw in H as [H | (a & s' & _ & H)].
  - by apply (Hm s e t).
  - by apply (Hk a s' e t).
Qed.

Lemma noAE_total {A} (m : M A) : (forall s, exists a t, m s = Ok a t) -> noAE m.
Proof. intros H s e t Hs. destruct (H s) as (a & t' & Ha). congruence. Qed.

Lemma noAE_forM {A} (xs : list A) (f : A -> M unit) :
  (forall x, noAE (f x)) -> noAE (forM_ xs f).
Proof.
  intros Hf. induction xs as [|x xs IH]; simpl.
  - apply noAE_ret.
  - apply noAE_bind; auto.
Qed.

Lemma noAE_mapM {A B} (f : A -> M B) (xs : list A) :
  (forall x, noAE (f x)) -> noAE (mapM f xs).
Proof.
  intros Hf. induction xs as [|x xs IH]; simpl.
  - apply noAE_ret.
  - apply noAE_bind; [auto|]. intros y. apply noAE_bind; [auto|]. intros ys.
    apply noAE_ret.
Qed.

Lemma noAE_alloc o : noAE (alloc o).
Proof. apply noAE_total. intros s. unfold alloc. eauto. Qed.

Lemma noAE_getObj l : noAE (getObj l).
Proof. intros s e t. unfold getObj. destruct (heap s !! l); [done|]. by intros [= <- _]. Qed.

Lemma noAE_setField l k v : noAE (setField l k v).
Proof. intros s e t. unfold setField. destruct (heap s !! l); [done|]. by intros [= <- _]. Qed.

Lemma noAE_asRef v : noAE (asRef v).
Proof. destruct v; first [apply noAE_ret | by apply noAE_throw]. Qed.

Lemma noAE_asArr v : noAE (asArr v).
Proof. destruct v; first [apply noAE_ret | by apply noAE_throw]. Qed.

Lemma noAE_asStr v : noAE (asStr v).
Proof. destruct v; first [apply noAE_ret | by apply noAE_throw]. Qed.

Lemma noAE_pathVal p : noAE (pathVal p).
Proof. apply noAE_total. intros s. unfold pathVal. eauto. Qed.

Lemma noAE_pathIsType p ty : noAE (pathIsType p ty).
Proof. apply noAE_total. intros s. unfold pathIsType. eauto. Qed.

Lemma noAE_getBinding sc name : noAE (getBinding sc name).
Proof. apply noAE_total. intros s. unfold getBinding. eauto. Qed.

Lemma noAE_generateUid sc name : noAE (generateUid sc name).
Proof.
  apply noAE_total. intros s. unfold generateUid.
  destruct (scope_generateUid sc name (scopes s)). eauto.
Qed.

Lemma noAE_rename sc a b : noAE (rename sc a b).
Proof. apply noAE_total. intros s. unfold rename. eauto. Qed.

Lemma noAE_remove p : noAE (remove p).
Proof. apply noAE_total. intros s. unfold remove. eauto. Qed.

Create HintDb noae.
#[local] Hint Resolve noAE_ret noAE_alloc noAE_getObj noAE_setField noAE_asRef
  noAE_asArr noAE_asStr noAE_pathVal noAE_pathIsType noAE_getBinding
  noAE_generateUid noAE_rename noAE_remove : noae.

(** Splits a computation into its calls, down to the ones in [noae]. *)
Ltac noae :=
  repeat first
    [ progress intros
    | solve [eauto with noae]
    | apply noAE_bind
    | apply noAE_forM
    | apply noAE_mapM
    | apply noAE_throw; reflexivity
    | match goal with
      | |- noAE (match ?x with _ => _ end) => destruct x
      | |- noAE (let '(_, _) := ?x in _) => destruct x
      | |- noAE (if ?b then _ else _) => destruct b
      end ].

Lemma noAE_assertNodeType ty types key v : noAE (assertNodeType ty types key v).
Proof.
  intros s e t. unfold assertNodeType. destruct (isNode _ _ _); [done|]. by intros [= <- _].
Qed.

Lemma noAE_assertValueType type key v : noAE (assertValueType type key v).
Proof. unfold assertValueType. noae. Qed.
#[local] Hint Resolve noAE_assertNodeType noAE_assertValueType : noae.

Lemma noAE_optionally ty types key v : noAE (optionally (assertNodeType ty types) key v).
Proof. unfold optionally. noae. Qed.

Lemma noAE_assertArrayOf ty types key v : noAE (assertArrayOf ty types key v).
Proof. unfold assertArrayOf, assertEach. noae. Qed.

Lemma noAE_assertParams ty params : noAE (assertParams ty params).
Proof. apply noAE_assertArrayOf. Qed.

Lemma noAE_assertOneOf values key v : noAE (assertOneOf values key v).
Proof. unfold assertOneOf. noae. Qed.
#[local] Hint Resolve noAE_optionally noAE_assertArrayOf noAE_assertParams
  noAE_assertOneOf : noae.

Lemma noAE_getField l k : noAE (getField l k).
Proof. unfold getField. noae. Qed.
#[local] Hint Resolve noAE_getField : noae.

Lemma noAE_isType l ty : noAE (isType l ty).
Proof. unfold isType, typeOf. noae. Qed.
#[local] Hint Resolve noAE_isType : noae.

Lemma noAE_pathNode p : noAE (pathNode p).
Proof. unfold pathNode. noae. Qed.
#[local] Hint Resolve noAE_pathNode : noae.

Lemma noAE_pathGet p k : noAE (pathGet p k).
Proof. unfold pathGet. noae. Qed.

Lemma noAE_pathGetList p k : noAE (pathGetList p k).
Proof. unfold pathGetList. noae. Qed.

Lemma noAE_replaceWith p n : noAE (replaceWith p n).
Proof. unfold replaceWith. noae. Qed.
#[local] Hint Resolve noAE_pathGet noAE_pathGetList noAE_replaceWith : noae.

Lemma noAE_replaceWithVal p v : noAE (replaceWithVal p v).
Proof. unfold replaceWithVal. noae. Qed.

Lemma noAE_replaceWithMultiple p ns : noAE (replaceWithMultiple p ns).
Proof. unfold replaceWithMultiple. noae. Qed.

Lemma noAE_insertAfter p n : noAE (insertAfter p n).
Proof. unfold insertAfter. noae. Qed.

Lemma noAE_cloneNode n : noAE (cloneNode n).
Proof. unfold cloneNode. noae. Qed.
#[local] Hint Resolve noAE_replaceWithVal noAE_replaceWithMultiple noAE_insertAfter
  noAE_cloneNode : noae.

Lemma noAE_functionDeclarationFrom node name : noAE (functionDeclarationFrom node name).
Proof.
  unfold functionDeclarationFrom, functionName, blockBody, typeOf, returnStatement,
    blockStatement, functionDeclaration, functionNode, assignReturnType. noae.
Qed.

Lemma noAE_functionExpressionFrom node name : noAE (functionExpressionFrom node name).
Proof.
  unfold functionExpressionFrom, functionName, blockBody, typeOf, returnStatement,
    blockStatement, functionExpression, functionNode, assignReturnType. noae.
Qed.

Lemma noAE_arrowFunctionExpressionFrom node : noAE (arrowFunctionExpressionFrom node).
Proof.
  unfold arrowFunctionExpressionFrom, arrowFunctionExpression, assignReturnType. noae.
Qed.

Lemma noAE_toTSEntity_rec fuel : forall e, noAE (toTSEntity_rec fuel e).
Proof.
  induction fuel as [|fuel IH]; intros e; simpl; [by apply noAE_throw|].
  unfold typeOf, tsQualifiedName. noae.
Qed.

Lemma noAE_toTSEntity e : noAE (toTSEntity e).
Proof. intros s x t. apply noAE_toTSEntity_rec. Qed.

Lemma noAE_findSpecifier name specs : noAE (findSpecifier name specs).
Proof.
  induction specs as [|spec rest IH]; simpl; [apply noAE_ret|].
  unfold importName. noae.
Qed.

Lemma noAE_getReactImport name ref : noAE (getReactImport name ref).
Proof.
  pose proof (noAE_findSpecifier name).
  unfold getReactImport, identifier, memberExpression, importSpecifier. noae.
Qed.
#[local] Hint Resolve noAE_functionDeclarationFrom noAE_functionExpressionFrom
  noAE_arrowFunctionExpressionFrom noAE_toTSEntity noAE_getReactImport : noae.

Lemma noAE_someUndefinedKeyword types : noAE (someUndefinedKeyword types).
Proof. induction types as [|t rest IH]; simpl; noae. Qed.
#[local] Hint Resolve noAE_someUndefinedKeyword : noae.

Lemma noAE_transformClass head body ts : noAE (transformClass head body ts).
Proof.
  unfold transformClass, renameAliases, removeLocals, renameRenderLocals,
    rewritePropSites, widenPropTypings, widenTyping, rewriteStateSites,
    rewriteStateSite, rewriteFieldSites, rewriteFieldSite, buildPreamble,
    propsPreamble, propPattern, statePreamble, stateDeclaration, fieldsPreamble,
    fieldDeclaration, refDeclaration, assemble, nonNullPath,
    identifier, nullLiteral, memberExpression, callExpression, variableDeclarator,
    variableDeclaration, objectPattern, objectProperty, assignmentPattern,
    arrayPattern, arrowFunctionExpression, tsTypeAnnotation, tsUnionType,
    tsUndefinedKeyword, tsTypeReference, tsTypeParameterInstantiation,
    tsFunctionType, assignTypeAnnotation, assignTypeParameters.
  noae.
Qed.

(** ** The [catch] clauses of the visitor *)

Lemma disable_rethrows target e s :
  isAnalysisError e = false -> disable target e s = Throw e s.
Proof. unfold disable. by intros ->. Qed.

Lemma try_catch_rethrows {A} (m : M A) h e s t :
  m s = Throw e t -> h e t = Throw e t -> try_catch m h s = Throw e t.
Proof. unfold try_catch. by intros ->. Qed.

(** An exception of the analysis or of the transformation that is not an
    [AnalysisError] leaves the visitor, and ends the run. *)
Lemma ClassDeclaration_rethrows ts p s head declPath e t :
  analyzeHead p s = Some head -> parentPath p = Some declPath ->
  isAnalysisError e = false ->
  (analyzeBody p head s = inl e /\ t = s \/
   exists body, analyzeBody p head s = inr body /\
                transformClass head body ts s = Throw e t) ->
  ClassDeclaration ts p s = Throw e t /\
  forall ps, visitAll ts (p :: ps) s = Throw e t.
Proof.
  intros Hhead Hparent He Hthrow.
  assert (ClassDeclaration ts p s = Throw e t) as Hvisit.
  { unfold ClassDeclaration. rewrite Hhead, Hparent.
    unfold bind at 1. unfold pathIsType at 1.
    destruct (slotIsType (heap s) declPath "ExportDefaultDeclaration").
    - apply try_catch_rethrows; [|by apply disable_rethrows].
      unfold bind at 1. unfold runAnalyzeBody.
      destruct Hthrow as [[-> ->] | (body & -> & Ht)]; [done|].
      unfold bind. by rewrite Ht.
    - apply try_catch_rethrows; [|by apply disable_rethrows].
      unfold bind at 1. unfold runAnalyzeBody.
      destruct Hthrow as [[-> ->] | (body & -> & Ht)]; [done|].
      unfold bind. by rewrite Ht. }
  split; [done|]. intros ps. unfold visitAll. simpl. unfold bind. by rewrite Hvisit.
Qed.

(** ** The diagnostic comment *)

Lemma prop_VArr (o : obj) k ls : prop o k = VArr ls -> o !! k = Some (VArr ls).
Proof.
  unfold prop. destruct (o !! k) as [v|]; simpl; [by intros -> | discriminate].
Qed.

Lemma prop_insert_eq (o : obj) k v : prop (<[k := v]> o) k = v.
Proof. unfold prop. by rewrite lookup_insert_eq. Qed.

Lemma prop_insert_ne (o : obj) k k' v : k <> k' -> prop (<[k := v]> o) k' = prop o k'.
Proof. intros. unfold prop. by rewrite lookup_insert_ne. Qed.

(** [o.k ??= v] on the object itself *)
Definition setIfNull (k : string) (v : val) (o : obj) : obj :=
  if nullish (prop o k) then <[k := v]> o else o.

(** The two assignments [refreshComments] makes on a comment. *)
Definition filled (a b : val) (o : obj) : obj :=
  setIfNull "trailing" b (setIfNull "leading" a o).

Lemma setIfNull_other k k' v o : k <> k' -> prop (setIfNull k v o) k' = prop o k'.
Proof. intros. unfold setIfNull. destruct (nullish _); [by apply prop_insert_ne | done]. Qed.

Lemma setIfNull_set k v o : nullish v = false -> nullish (prop (setIfNull k v o) k) = false.
Proof.
  intros. unfold setIfNull. destruct (nullish (prop o k)) eqn:E; [|done].
  by rewrite prop_insert_eq.
Qed.

Lemma setIfNull_id k v o : nullish (prop o k) = false -> setIfNull k v o = o.
Proof. unfold setIfNull. by intros ->. Qed.

Lemma filled_filled a b a' b' o :
  nullish a = false -> nullish b = false -> filled a' b' (filled a b o) = filled a b o.
Proof.
  intros Ha Hb. unfold filled at 1.
  assert (nullish (prop (filled a b o) "leading") = false) as H1.
  { unfold filled. rewrite setIfNull_other by done. by apply setIfNull_set. }
  rewrite (setIfNull_id "leading") by done.
  apply setIfNull_id. unfold filled. by apply setIfNull_set.
Qed.

Lemma filled_idemp a b o :
  nullish a = false -> nullish b = false -> filled a b (filled a b o) = filled a b o.
Proof. apply filled_filled. Qed.

Lemma setIfNullish_run l k v (o : obj) s :
  heap s !! l = Some o ->
  setIfNullish l k v s = Ok tt (State (<[l := setIfNull k v o]> (heap s)) (scopes s)).
Proof.
  intros Ho. unfold setIfNullish, setIfNull.
  rewrite (bind_run _ _ _ _ _ (getField_run l k o s Ho)).
  destruct (nullish (prop o k)).
  - unfold setField. by rewrite Ho.
  - rewrite list_insert_id by done. by destruct s.
Qed.

(** The loops of [refreshComments] over a list of comments. *)
Definition markAll (a b : val) (cs : list loc) (h : store) : store :=
  foldl (fun h c => alter (filled a b) c h) h cs.

Lemma alter_as_insert (h : store) c (o : obj) f :
  h !! c = Some o -> alter f c h = <[c := f o]> h.
Proof.
  intros Ho. apply list_eq. intros i.
  destruct (decide (i = c)) as [->|].
  - rewrite list_lookup_alter_eq, Ho.
    rewrite list_lookup_insert_eq by (by eapply lookup_lt_Some). done.
  - by rewrite list_lookup_alter_ne, list_lookup_insert_ne.
Qed.

Lemma markAll_run a b cs : forall s,
  (forall x, x ∈ cs -> is_Some (heap s !! x)) ->
  forM_ cs (fun comment =>
      do! setIfNullish comment "leading" a in
      setIfNullish comment "trailing" b) s
  = Ok tt (State (markAll a b cs (heap s)) (scopes s)).
Proof.
  induction cs as [|c cs IH]; intros s Hcs; simpl.
  - by destruct s.
  - destruct (Hcs c) as [o Ho]; [by left|].
    rewrite (bind_run _ _ _ tt (State (alter (filled a b) c (heap s)) (scopes s))).
    + rewrite IH; [done|]. simpl. intros x Hx.
      destruct (Hcs x) as [ox Hox]; [by right|].
      apply lookup_lt_is_Some. rewrite length_alter. by eapply lookup_lt_Some.
    + rewrite (bind_run _ _ _ _ _ (setIfNullish_run c "leading" a o s Ho)).
      erewrite setIfNullish_run.
      2:{ simpl. apply list_lookup_insert_eq. by eapply lookup_lt_Some. }
      simpl. rewrite list_insert_insert_eq. by rewrite (alter_as_insert _ _ o).
Qed.

Lemma length_markAll a b cs : forall h, length (markAll a b cs h) = length h.
Proof.
  induction cs as [|c cs IH]; intros h; simpl; [done|].
  by rewrite IH, length_alter.
Qed.

Lemma markAll_lookup a b cs :
  nullish a = false -> nullish b = false ->
  forall h l,
    markAll a b cs h !! l
    = (if bool_decide (l ∈ cs) then filled a b else id) <$> h !! l.
Proof.
  intros Ha Hb. induction cs as [|c cs IH]; intros h l; simpl.
  - by destruct (h !! l).
  - rewrite IH. destruct (decide (l = c)) as [->|Hne].
    + rewrite list_lookup_alter_eq.
      rewrite (bool_decide_eq_true_2 (c ∈ c :: cs)) by by left.
      destruct (h !! c) as [o|]; destruct (bool_decide _); cbn -[filled];
        try done.
      by rewrite filled_idemp.
    + rewrite list_lookup_alter_ne by done.
      destruct (bool_decide (l ∈ cs)) eqn:E.
      * apply bool_decide_eq_true in E.
        by rewrite (bool_decide_eq_true_2 (l ∈ c :: cs)) by by right.
      * apply bool_decide_eq_false in E.
        rewrite (bool_decide_eq_false_2 (l ∈ c :: cs)); [done|].
        intros [?|?]%elem_of_cons; done.
Qed.

(** A property that holds a list of comments, if any. *)
Definition commentList (v : val) : option (list loc) :=
  match v with
  | VUndef | VNull => Some []
  | VArr ls => Some ls
  | _ => None
  end.

Lemma commentsOf_run n k (o : obj) ls s :
  heap s !! n = Some o -> commentList (prop o k) = Some ls ->
  commentsOf n k s = Ok ls s.
Proof.
  intros Ho Hls. unfold commentsOf.
  rewrite (bind_run _ _ _ _ _ (getField_run n k o s Ho)).
  destruct (prop o k); simpl in *; try discriminate; by injection Hls as <-.
Qed.

Definition disableText (msg : string) : string :=
  " react-declassify-disable Cannot perform transformation: " +:+ msg +:+ " ".

(** The store after the [catch] clause has put its comment on the node [n],
    which was [o], with comments [lead], [inner] and [trail]. *)
Definition commented (msg : string) (lead inner trail : list loc)
    (n : loc) (o : obj) (h : store) : store :=
  let c := length h in
  let o1 := <["leadingComments" := VArr (c :: lead)]> o in
  let h1 := <[n := o1]> (h ++ [mkObj "CommentBlock" [("value", VStr (disableText msg))]]) in
  let h2 := markAll (VBool true) (VBool false) (c :: lead) h1 in
  let h3 := markAll (VBool false) (VBool true) trail h2 in
  <[n := <["original" := VUndef]>
           (<["comments" := VArr ((c :: lead) ++ inner ++ trail)]> o1)]> h3.

Lemma addComment_leading_run n (o : obj) lead text s :
  heap s !! n = Some o ->
  commentList (prop o "leadingComments") = Some lead ->
  addComment n "leading" text s
  = Ok tt (State (<[n := <["leadingComments" := VArr (next s :: lead)]> o]>
                    (heap s ++ [mkObj "CommentBlock" [("value", VStr text)]]))
                 (scopes s)).
Proof.
  intros Ho Hlead. unfold addComment.
  unfold bind at 1. unfold alloc at 1.
  set (s1 := State _ _).
  assert (heap s1 !! n = Some o) as Ho1 by (by apply lookup_alloc_old).
  change (String.append "leading" "Comments") with "leadingComments".
  rewrite (bind_run _ _ _ _ _ (getField_run n "leadingComments" o s1 Ho1)).
  unfold setField.
  destruct (prop o "leadingComments"); simpl in Hlead; try discriminate;
    injection Hlead as <-; simpl; unfold bind; simpl;
    by rewrite (lookup_alloc_old _ _ _ _ Ho).
Qed.

Lemma disable_AnalysisError_run target msg s n (o : obj) lead inner trail :
  slotVal (heap s) target = VRef n -> heap s !! n = Some o ->
  parent target <> n ->
  commentList (prop o "leadingComments") = Some lead ->
  commentList (prop o "innerComments") = Some inner ->
  commentList (prop o "trailingComments") = Some trail ->
  n ∉ lead ++ trail ->
  (forall x, x ∈ lead ++ trail -> is_Some (heap s !! x)) ->
  disable target (AnalysisError msg) s
  = Ok tt (State (commented msg lead inner trail n o (heap s)) (scopes s)).
Proof.
  intros Hslot Ho Hpar Hlead Hinner Htrail Hn Hcs.
  pose proof (lookup_lt_Some _ _ _ Ho) as Hnlt.
  unfold disable. simpl.
  rewrite (bind_run _ _ _ _ _ (proj2 (pathNode_Ok target s n s) (conj eq_refl Hslot))).
  fold (disableText msg).
  rewrite (bind_run _ _ _ _ _ (addComment_leading_run n o lead _ s Ho Hlead)).
  unfold next.
  set (c := length (heap s)).
  set (o1 := <["leadingComments" := VArr (c :: lead)]> o).
  set (co := mkObj "CommentBlock" _).
  set (h1 := <[n := o1]> (heap s ++ [co])).
  assert (length h1 = S c) as Hlen1.
  { unfold h1. rewrite length_insert, length_app. simpl. lia. }
  assert (slotVal h1 target = VRef n) as Hslot1.
  { unfold slotVal in *. unfold h1.
    rewrite list_lookup_insert_ne by done.
    destruct (heap s !! parent target) as [po|] eqn:Hpo; [|done].
    by rewrite (lookup_alloc_old _ co po _ Hpo). }
  rewrite (bind_run _ _ _ _ _
    (proj2 (pathNode_Ok target (State h1 (scopes s)) n _) (conj eq_refl Hslot1))).
  assert (h1 !! n = Some o1) as Ho1.
  { unfold h1. apply list_lookup_insert_eq. rewrite length_app. simpl. lia. }
  unfold refreshComments.
  rewrite (bind_run _ _ _ _ _
    (commentsOf_run n "leadingComments" o1 (c :: lead) (State h1 (scopes s)) Ho1
       ltac:(unfold o1; by rewrite prop_insert_eq))).
  assert (forall x, x ∈ c :: lead -> is_Some (heap (State h1 (scopes s)) !! x)) as Hc1.
  { simpl. intros x [->|Hx]%elem_of_cons.
    - apply lookup_lt_is_Some. lia.
    - destruct (Hcs x) as [ox Hox]; [apply elem_of_app; by left|].
      apply lookup_lt_is_Some. pose proof (lookup_lt_Some _ _ _ Hox). lia. }
  rewrite (bind_run _ _ _ _ _ (markAll_run (VBool true) (VBool false) (c :: lead)
    (State h1 (scopes s)) Hc1)).
  simpl.
  set (h2 := markAll (VBool true) (VBool false) (c :: lead) h1).
  assert (h2 !! n = Some o1) as Ho2.
  { unfold h2. rewrite markAll_lookup by done.
    rewrite bool_decide_eq_false_2, Ho1; [done|].
    intros [->|Hx]%elem_of_cons; [unfold c in Hnlt; lia|].
    apply Hn, elem_of_app. by left. }
  rewrite (bind_run _ _ _ _ _
    (commentsOf_run n "trailingComments" o1 trail (State h2 (scopes s)) Ho2
       ltac:(unfold o1; by rewrite prop_insert_ne))).
  assert (forall x, x ∈ trail -> is_Some (heap (State h2 (scopes s)) !! x)) as Hc2.
  { simpl. intros x Hx.
    destruct (Hcs x) as [ox Hox]; [apply elem_of_app; by right|].
    apply lookup_lt_is_Some. unfold h2. rewrite length_markAll.
    pose proof (lookup_lt_Some _ _ _ Hox). lia. }
  rewrite (bind_run _ _ _ _ _ (markAll_run (VBool false) (VBool true) trail
    (State h2 (scopes s)) Hc2)).
  simpl.
  set (h3 := markAll (VBool false) (VBool true) trail h2).
  assert (h3 !! n = Some o1) as Ho3.
  { unfold h3. rewrite markAll_lookup by done.
    rewrite bool_decide_eq_false_2, Ho2; [done|].
    intros Hx. apply Hn, elem_of_app. by right. }
  rewrite (bind_run _ _ _ _ _
    (commentsOf_run n "leadingComments" o1 (c :: lead) (State h3 (scopes s)) Ho3
       ltac:(unfold o1; by rewrite prop_insert_eq))).
  rewrite (bind_run _ _ _ _ _
    (commentsOf_run n "innerComments" o1 inner (State h3 (scopes s)) Ho3
       ltac:(unfold o1; by rewrite prop_insert_ne))).
  rewrite (bind_run _ _ _ _ _
    (commentsOf_run n "trailingComments" o1 trail (State h3 (scopes s)) Ho3
       ltac:(unfold o1; by rewrite prop_insert_ne))).
  unfold bind, setField. simpl. rewrite Ho3. simpl.
  rewrite list_lookup_insert_eq by (by eapply lookup_lt_Some).
  rewrite list_insert_insert_eq. done.
Qed.

(** What [refreshComments] leaves of an object that is a comment of the node. *)
Definition flagged (lead trail : list loc) (l : loc) (x : obj) : obj :=
  (if bool_decide (l ∈ trail) then filled (VBool false) (VBool true) else id)
    ((if bool_decide (l ∈ lead) then filled (VBool true) (VBool false) else id) x).

Lemma commented_length msg lead inner trail n o h :
  length (commented msg lead inner trail n o h) = S (length h).
Proof.
  unfold commented. cbv zeta.
  rewrite length_insert, !length_markAll, length_insert, length_app. simpl. lia.
Qed.

Lemma commented_node msg lead inner trail n o h :
  n < length h ->
  commented msg lead inner trail n o h !! n
  = Some (<["original" := VUndef]>
            (<["comments" := VArr ((length h :: lead) ++ inner ++ trail)]>
               (<["leadingComments" := VArr (length h :: lead)]> o))).
Proof.
  intros Hn. unfold commented. cbv zeta. apply list_lookup_insert_eq.
  rewrite !length_markAll, length_insert, length_app. simpl. lia.
Qed.

Lemma commented_comment msg lead inner trail n (o : obj) h :
  n < length h -> (forall x, x ∈ trail -> x < length h) ->
  commented msg lead inner trail n o h !! length h
  = Some (filled (VBool true) (VBool false)
            (mkObj "CommentBlock" [("value", VStr (disableText msg))])).
Proof.
  intros Hn Htrail. unfold commented. cbv zeta.
  rewrite list_lookup_insert_ne by lia.
  rewrite !markAll_lookup by done.
  rewrite list_lookup_insert_ne by lia.
  rewrite lookup_alloc_new. simpl.
  rewrite (bool_decide_eq_true_2 (length h ∈ length h :: lead)) by by left.
  rewrite bool_decide_eq_false_2; [done|].
  intros Hx. apply Htrail in Hx. lia.
Qed.

Lemma commented_other msg lead inner trail n (o x : obj) h l :
  l <> n -> h !! l = Some x ->
  commented msg lead inner trail n o h !! l = Some (flagged lead trail l x).
Proof.
  intros Hl Hx. pose proof (lookup_lt_Some _ _ _ Hx) as Hlt.
  unfold commented, flagged. cbv zeta.
  rewrite list_lookup_insert_ne by done.
  rewrite !markAll_lookup by done.
  rewrite list_lookup_insert_ne by done.
  rewrite (lookup_alloc_old _ _ x) by done. simpl.
  replace (bool_decide (l ∈ length h :: lead)) with (bool_decide (l ∈ lead)); [done|].
  apply bool_decide_ext. rewrite elem_of_cons. split; [auto|].
  intros [->|?]; [lia|done].
Qed.

(** C1: an [AnalysisError] of the analysis is caught at the declaration: the
    visitor returns, the run goes on, and the store differs from the one
    before the visit in this only: there is one new comment, with the text
    [" react-declassify-disable Cannot perform transformation: <message> "];
    the node of the declaration has it as its first leading comment, has its
    [comments] refreshed and [original] cleared, and the comments of the node
    have their [leading] and [trailing] marks filled in.  Any other exception,
    of the analysis or of the transformation, leaves the visitor and ends the
    run, and the transformation throws no [AnalysisError] of its own. *)
Theorem C1_diagnostic_boundary ts p s head declPath
    (Hhead : analyzeHead p s = Some head)
    (Hparent : parentPath p = Some declPath) :
  (forall msg n (o : obj) lead inner trail,
     analyzeBody p head s = inl (AnalysisError msg) ->
     let target :=
       if slotIsType (heap s) declPath "ExportDefaultDeclaration" then declPath else p in
     slotVal (heap s) target = VRef n -> heap s !! n = Some o ->
     parent target <> n ->
     commentList (prop o "leadingComments") = Some lead ->
     commentList (prop o "innerComments") = Some inner ->
     commentList (prop o "trailingComments") = Some trail ->
     n ∉ lead ++ trail ->
     (forall x, x ∈ lead ++ trail -> is_Some (heap s !! x)) ->
     exists t,
       ClassDeclaration ts p s = Ok tt t /\
       (forall ps, visitAll ts (p :: ps) s = visitAll ts ps t) /\
       scopes t = scopes s /\
       next t = S (next s) /\
       heap t !! next s
       = Some (filled (VBool true) (VBool false)
                 (mkObj "CommentBlock" [("value", VStr (disableText msg))])) /\
       heap t !! n
       = Some (<["original" := VUndef]>
                 (<["comments" := VArr ((next s :: lead) ++ inner ++ trail)]>
                    (<["leadingComments" := VArr (next s :: lead)]> o))) /\
       (forall l (x : obj), l <> n -> heap s !! l = Some x ->
          heap t !! l = Some (flagged lead trail l x))) /\
  (forall e t,
     isAnalysisError e = false ->
     (analyzeBody p head s = inl e /\ t = s \/
      exists body, analyzeBody p head s = inr body /\
                   transformClass head body ts s = Throw e t) ->
     ClassDeclaration ts p s = Throw e t /\
     forall ps, visitAll ts (p :: ps) s = Throw e t) /\
  (forall body e t,
     transformClass head body ts s = Throw e t -> isAnalysisError e = false).
Proof.
  split; [|split].
  - intros msg n o lead inner trail Hbody target Hslot Ho Hpar Hl Hi Ht Hn Hcs.
    pose proof (disable_AnalysisError_run target msg s n o lead inner trail
                  Hslot Ho Hpar Hl Hi Ht Hn Hcs) as Hrun.
    pose proof (lookup_lt_Some _ _ _ Ho) as Hnlt.
    assert (ClassDeclaration ts p s
            = Ok tt (State (commented msg lead inner trail n o (heap s)) (scopes s)))
      as Hvisit.
    { unfold ClassDeclaration. rewrite Hhead, Hparent.
      unfold bind at 1. unfold pathIsType at 1. subst target.
      destruct (slotIsType (heap s) declPath "ExportDefaultDeclaration");
        unfold try_catch, bind at 1, runAnalyzeBody; by rewrite Hbody. }
    eexists. split; [exact Hvisit|]. split.
    { intros ps. unfold visitAll. simpl. unfold bind at 1. by rewrite Hvisit. }
    split; [done|]. unfold next. simpl. split; [apply commented_length|].
    split.
    { apply commented_comment; [done|]. intros x Hx.
      destruct (Hcs x) as [ox Hox]; [apply elem_of_app; by right|].
      by eapply lookup_lt_Some. }
    split; [by apply commented_node|].
    intros l x Hne Hx. by apply commented_other.
  - intros e t He Hthrow. by apply (ClassDeclaration_rethrows ts p s head declPath).
  - intros body e t. apply noAE_transformClass.
Qed.

(** ** Writing a slot *)

(** The store after [container[key] = n] at the slot of [p]. *)
Definition slotWrite (h : store) (p : path) (n : loc) : store :=
  match h !! parent p with
  | Some o =>
      <[parent p :=
          <[key p := match index p with
                     | None => VRef n
                     | Some i =>
                         match prop o (key p) with
                         | VArr ls => VArr (<[i := n]> ls)
                         | v => v
                         end
                     end]> o]> h
  | None => h
  end.

(** The slot of [p] is there to be written: its parent is an object and, for
    a slot in a list, the list reaches the index. *)
Definition slotOk (h : store) (p : path) : Prop :=
  exists o, h !! parent p = Some o /\
    match index p with
    | None => True
    | Some i => exists ls, prop o (key p) = VArr ls /\ i < length ls
    end.

Lemma slotVal_ref_ok h p l : slotVal h p = VRef l -> slotOk h p.
Proof.
  unfold slotVal, slotOk. destruct (h !! parent p) as [o|]; [|done].
  intros H. exists o. split; [done|].
  destruct (index p) as [i|]; [|done].
  destruct (prop o (key p)); try done.
  destruct (ls !! i) eqn:E; [|done]. eexists. split; [done|]. by eapply lookup_lt_Some.
Qed.

Lemma replaceWith_Ok p n s u t :
  replaceWith p n s = Ok u t <->
  slotOk (heap s) p /\ t = State (slotWrite (heap s) p n) (scopes s).
Proof.
  unfold replaceWith, slotOk, slotWrite. rewrite bind_Ok. split.
  - intros (o & s' & Ho & H). apply getObj_Ok in Ho as [-> Ho]. rewrite Ho.
    destruct (index p) as [i|].
    + destruct (prop o (key p)) eqn:E; try discriminate.
      destruct (decide (i < length ls)); [|discriminate].
      apply setField_Ok in H as (o' & Ho' & ->).
      assert (o' = o) as -> by congruence. split; [|done].
      exists o. split; [done|]. eauto.
    + apply setField_Ok in H as (o' & Ho' & ->).
      assert (o' = o) as -> by congruence. split; [|done]. eauto.
  - intros [(o & Ho & Hi) ->]. exists o, s. split; [by apply getObj_Ok|].
    rewrite Ho. destruct (index p) as [i|].
    + destruct Hi as (ls & -> & Hlt). rewrite decide_True by done.
      apply setField_Ok. eauto.
    + apply setField_Ok. eauto.
Qed.

Lemma length_slotWrite h p n : length (slotWrite h p n) = length h.
Proof. unfold slotWrite. destruct (h !! parent p); [apply length_insert | done]. Qed.

Lemma lookup_slotWrite_ne h p n l : l <> parent p -> slotWrite h p n !! l = h !! l.
Proof.
  intros Hl. unfold slotWrite. destruct (h !! parent p); [|done].
  by rewrite list_lookup_insert_ne.
Qed.

Lemma slotVal_slotWrite h p n : slotOk h p -> slotVal (slotWrite h p n) p = VRef n.
Proof.
  intros (o & Ho & Hi). unfold slotVal, slotWrite. rewrite Ho.
  rewrite list_lookup_insert_eq by (by eapply lookup_lt_Some).
  rewrite prop_insert_eq. destruct (index p) as [i|]; [|done].
  destruct Hi as (ls & -> & Hlt). by rewrite list_lookup_insert_eq.
Qed.

(** Two slots that a write to one can change the reading of the other. *)
Definition overlap (p q : path) : Prop :=
  parent p = parent q /\ key p = key q /\
  match index p, index q with
  | Some i, Some j => i = j
  | _, _ => True
  end.

#[global] Instance overlap_dec p q : Decision (overlap p q).
Proof. unfold overlap. destruct (index p), (index q); apply _. Defined.

Lemma slotVal_slotWrite_other h p q n :
  ~ overlap p q -> slotVal (slotWrite h p n) q = slotVal h q.
Proof.
  intros Hov. unfold slotVal, slotWrite.
  destruct (h !! parent p) as [o|] eqn:Ho; [|done].
  destruct (decide (parent q = parent p)) as [Hp|Hp].
  - rewrite Hp, Ho. rewrite list_lookup_insert_eq by (by eapply lookup_lt_Some).
    destruct (decide (key q = key p)) as [Hk|Hk].
    + rewrite Hk, prop_insert_eq.
      unfold overlap in Hov. rewrite Hp, Hk in Hov.
      destruct (index p) as [i|], (index q) as [j|]; try (exfalso; by apply Hov).
      destruct (prop o (key p)); try done.
      rewrite list_lookup_insert_ne; [done|]. intros ->. by apply Hov.
    + by rewrite prop_insert_ne.
  - by rewrite list_lookup_insert_ne.
Qed.

(** ** Stepping through a computation *)

Lemma lookup_snoc_eq (h : store) (o : obj) l : l = length h -> (h ++ [o]) !! l = Some o.
Proof. intros ->. apply lookup_alloc_new. Qed.

Ltac len_solve :=
  unfold next in *; cbn [heap scopes] in *;
  repeat (rewrite length_app || rewrite length_insert || rewrite length_slotWrite);
  cbn [length]; lia.

Ltac lookup_solve :=
  unfold next; cbn [heap scopes];
  repeat first
    [ eassumption
    | apply lookup_snoc_eq; len_solve
    | rewrite lookup_app_l by len_solve
    | rewrite list_lookup_insert_ne by len_solve
    | apply list_lookup_insert_eq; len_solve
    | rewrite lookup_slotWrite_ne by len_solve ].

(** The checks of the builders, in a run *)
Lemma wp_assertNodeType ty types key v (Q : unit -> state -> Prop) s :
  isNode (heap s) types v = true -> Q tt s -> wp (assertNodeType ty types key v) Q s.
Proof. intros H HQ. unfold wp, assertNodeType. by rewrite H. Qed.

Lemma wp_optionally ty types key v (Q : unit -> state -> Prop) s :
  isNode (heap s) types v = true -> Q tt s ->
  wp (optionally (assertNodeType ty types) key v) Q s.
Proof.
  intros H HQ. unfold optionally. destruct (nullish v); [done|].
  by apply wp_assertNodeType.
Qed.

Lemma wp_optionally_null ty types key (Q : unit -> state -> Prop) s :
  Q tt s -> wp (optionally (assertNodeType ty types) key VNull) Q s.
Proof. done. Qed.

Lemma wp_assertArrayOf ty types key ls (Q : unit -> state -> Prop) s :
  Forall (fun l => isNode (heap s) types (VRef l) = true) ls -> Q tt s ->
  wp (assertArrayOf ty types key (VArr ls)) Q s.
Proof.
  intros H HQ. eapply wp_eq; [|exact HQ]. apply assertArrayOf_Ok. split; [done|].
  simpl. apply forallb_forall. intros l Hl. rewrite Forall_forall in H.
  apply H. by apply list_elem_of_In.
Qed.

Lemma wp_assertOneOf values key v (Q : unit -> state -> Prop) s :
  existsb (String.eqb v) values = true -> Q tt s -> wp (assertOneOf values key v) Q s.
Proof. intros H HQ. unfold assertOneOf. by rewrite H. Qed.

(** The type of a node stays as it is where the nodes keep their types. *)
Lemma isNode_types (h h' : store) types v :
  (forall l (x : obj), h !! l = Some x ->
     exists x' : obj, h' !! l = Some x' /\ prop x' "type" = prop x "type") ->
  isNode h types v = true -> isNode h' types v = true.
Proof.
  intros Hh H. unfold isNode in *.
  assert (typeOfVal h' v = typeOfVal h v) as ->; [|done].
  destruct v as [| | | |l|]; try done. simpl in *.
  destruct (h !! l) as [x|] eqn:Hx.
  - destruct (Hh _ _ Hx) as (x' & -> & Hty). simpl. by rewrite Hty.
  - simpl in H. exfalso. clear -H.
    induction types as [|ty types IH]; [done|by apply IH].
Qed.

Lemma isNode_app (h h' : store) types v :
  isNode h types v = true -> isNode (h ++ h') types v = true.
Proof. apply isNode_mono. intros l x. apply lookup_app_l_Some. Qed.

Lemma isNode_insert_field (h : store) l k w (o : obj) types v :
  h !! l = Some o -> k <> "type" ->
  isNode h types v = true -> isNode (<[l := <[k := w]> o]> h) types v = true.
Proof.
  intros Ho Hk. apply isNode_types. intros l' x Hx.
  destruct (decide (l' = l)) as [->|Hl].
  - rewrite list_lookup_insert_eq by (by eapply lookup_lt_Some).
    eexists. split; [done|]. unfold prop. rewrite lookup_insert_ne by done. congruence.
  - rewrite list_lookup_insert_ne by done. eauto.
Qed.

(** The entries of the table among the hypotheses decide a type. *)
Ltac alias_solve :=
  simpl;
  repeat match goal with H : aliasHas _ _ = true |- _ => rewrite H end;
  simpl; rewrite ?orb_true_r; done.

(** A node of a known type, at a known place. *)
Ltac node_solve :=
  first
    [ eassumption
    | eapply isNode_lookup; [lookup_solve | prop_solve | alias_solve]
    | apply isNode_app; node_solve
    | eapply isNode_insert_field; [lookup_solve | done | node_solve] ].

Ltac wp_step :=
  lazymatch goal with
  | |- wp (bind _ _) _ _ => apply wp_bind
  | |- wp (assertNodeType _ _ _ _) _ _ => apply wp_assertNodeType; [node_solve|]
  | |- wp (optionally _ _ VNull) _ _ => apply wp_optionally_null
  | |- wp (optionally _ _ _) _ _ => apply wp_optionally; [node_solve|]
  | |- wp (assertArrayOf _ _ _ _) _ _ =>
      apply wp_assertArrayOf; [repeat constructor; node_solve|]
  | |- wp (assertOneOf _ _ _) _ _ => apply wp_assertOneOf; [reflexivity|]
  | |- wp (ret _) _ _ => apply wp_ret
  | |- wp (alloc _) _ _ => apply wp_alloc
  | |- wp (getObj _) _ _ => eapply wp_getObj; [lookup_solve|]
  | |- wp (getField _ _) _ _ => eapply wp_getField; [lookup_solve|]
  | |- wp (isType _ _) _ _ => eapply wp_isType; [lookup_solve|]
  | |- wp (setField _ _ _) _ _ => eapply wp_setField; [lookup_solve|]
  | |- wp (asRef (VRef _)) _ _ => apply wp_asRef
  | |- wp (asArr (VArr _)) _ _ => apply wp_asArr
  | |- wp (pathNode _) _ _ => eapply wp_pathNode; [eassumption|]
  end.
Ltac wp_run := repeat (wp_step; unfold next; cbn [heap scopes]).

Lemma wp_try_catch {A} (m : M A) h (Q : A -> state -> Prop) s :
  wp m Q s -> wp (try_catch m h) Q s.
Proof. unfold wp, try_catch. by destruct (m s). Qed.

Lemma wp_replaceWith p n (Q : unit -> state -> Prop) s :
  slotOk (heap s) p -> Q tt (State (slotWrite (heap s) p n) (scopes s)) ->
  wp (replaceWith p n) Q s.
Proof.
  intros Hok HQ. apply wp_Ok. exists tt. eexists. split; [|exact HQ].
  by apply replaceWith_Ok.
Qed.

Lemma wp_replaceWithMultiple p ns (o : obj) i ls (Q : unit -> state -> Prop) s :
  heap s !! parent p = Some o -> index p = Some i ->
  prop o (key p) = VArr ls -> i < length ls ->
  Q tt (State (<[parent p := <[key p := VArr (take i ls ++ ns ++ drop (S i) ls)]> o]>
                 (heap s)) (scopes s)) ->
  wp (replaceWithMultiple p ns) Q s.
Proof.
  intros Ho Hi Hls Hlt HQ. unfold replaceWithMultiple.
  apply wp_bind, (wp_getObj _ o); [done|].
  rewrite Hi, Hls, decide_True by done.
  by apply (wp_setField _ _ _ o).
Qed.

(** [t] has the objects of [s] as they are, and maybe more. *)
Definition extends (s t : state) : Prop :=
  scopes t = scopes s /\ next s <= next t /\
  forall l (x : obj), heap s !! l = Some x -> heap t !! l = Some x.

Lemma extends_refl s : extends s s.
Proof. unfold extends. auto. Qed.

Lemma extends_trans s t u : extends s t -> extends t u -> extends s u.
Proof.
  intros (H1 & H2 & H3) (H4 & H5 & H6). split; [congruence|]. split; [lia|]. auto.
Qed.

Lemma extends_slotVal s t p l :
  extends s t -> slotVal (heap s) p = VRef l -> slotVal (heap t) p = VRef l.
Proof.
  intros (_ & _ & H) Hs. unfold slotVal in *.
  destruct (heap s !! parent p) as [o|] eqn:Ho; [|done].
  by rewrite (H _ _ Ho).
Qed.

Ltac extends_solve :=
  unfold extends, next; cbn [heap scopes];
  split; [reflexivity|]; split; [len_solve|];
  let l := fresh "l" in let x := fresh "x" in let H := fresh "H" in
  intros l x H; pose proof (lookup_lt_Some _ _ _ H); lookup_solve.

(** ** The replacement of the class *)

(** [const <id> = <init>], in nodes made from [n0] on *)
Definition isConstDeclaration (n0 : loc) (h : store) (decl id init : loc) : Prop :=
  exists d,
    n0 <= decl /\ n0 <= d /\
    h !! decl = Some (mkObj "VariableDeclaration"
                        [("kind", VStr "const"); ("declarations", VArr [d])]) /\
    h !! d = Some (mkObj "VariableDeclarator" [("id", VRef id); ("init", VRef init)]).

(** [c] is a copy of the identifier [ido] made from [n0] on, annotated with
    the function type in TypeScript mode. *)
Definition isComponentId (n0 : loc) (h : store) (ts : bool) (ido : obj)
    (typeNode : val) (c : loc) : Prop :=
  n0 <= c /\
  if ts then
    exists ann ty,
      n0 <= ann /\ typeNode = VRef ty /\
      h !! c = Some (<["typeAnnotation" := VRef ann]> ido) /\
      h !! ann = Some (mkObj "TSTypeAnnotation" [("typeAnnotation", VRef ty)])
  else h !! c = Some ido.

Lemma isConstDeclaration_stable n0 h h' decl id init :
  (forall l, n0 <= l -> l < length h -> h' !! l = h !! l) ->
  isConstDeclaration n0 h decl id init -> isConstDeclaration n0 h' decl id init.
Proof.
  intros Hh (d & H1 & H2 & H3 & H4). exists d.
  pose proof (lookup_lt_Some _ _ _ H3). pose proof (lookup_lt_Some _ _ _ H4).
  rewrite !Hh by done. auto.
Qed.

Lemma isComponentId_stable n0 h h' ts ido typeNode c :
  (forall l, n0 <= l -> l < length h -> h' !! l = h !! l) ->
  isComponentId n0 h ts ido typeNode c -> isComponentId n0 h' ts ido typeNode c.
Proof.
  intros Hh [Hc H]. split; [done|]. destruct ts.
  - destruct H as (ann & ty & H1 & H2 & H3 & H4). exists ann, ty.
    pose proof (lookup_lt_Some _ _ _ H3). pose proof (lookup_lt_Some _ _ _ H4).
    rewrite !Hh by done. auto.
  - pose proof (lookup_lt_Some _ _ _ H). by rewrite Hh.
Qed.

Lemma wp_componentDeclaration p ts funcNode typeNode s cn (co ido : obj) idn
    (Q : loc -> state -> Prop) :
  aliasHas "LVal" "Identifier" = true ->
  slotVal (heap s) p = VRef cn -> heap s !! cn = Some co ->
  prop co "id" = VRef idn -> heap s !! idn = Some ido ->
  prop ido "type" = VStr "Identifier" ->
  isNode (heap s) ["Expression"] (VRef funcNode) = true ->
  (ts = true ->
   exists ty, typeNode = VRef ty /\ isNode (heap s) ["TSType"] typeNode = true) ->
  (forall decl c t,
     extends s t ->
     isConstDeclaration (next s) (heap t) decl c funcNode ->
     isComponentId (next s) (heap t) ts ido typeNode c ->
     Q decl t) ->
  wp (componentDeclaration p ts funcNode typeNode) Q s.
Proof.
  intros HLVal Hslot Hco Hid Hido Hidt Hfunc Hts HQ. unfold componentDeclaration.
  pose proof (lookup_lt_Some _ _ _ Hco). pose proof (lookup_lt_Some _ _ _ Hido).
  wp_run. rewrite Hid. wp_run.
  destruct ts.
  - destruct (Hts eq_refl) as (ty & -> & Hty).
    unfold cloneNode, tsTypeAnnotation, assignTypeAnnotation, variableDeclarator,
      variableDeclaration.
    wp_run.
    eapply (HQ _ (length (heap s))).
    + extends_solve.
    + eexists. split; [|split; [|split]]; [| |lookup_solve..]; len_solve.
    + split; [len_solve|]. eexists _, _.
      split; [|split; [done|split]]; [|lookup_solve..]. len_solve.
  - unfold cloneNode, variableDeclarator, variableDeclaration.
    wp_run.
    eapply (HQ _ (length (heap s))).
    + extends_solve.
    + eexists. split; [|split; [|split]]; [| |lookup_solve..]; len_solve.
    + split; [len_solve|]. cbn. lookup_solve.
Qed.

Lemma extends_slotOk s t p : extends s t -> slotOk (heap s) p -> slotOk (heap t) p.
Proof. intros (_ & _ & H) (o & Ho & Hi). exists o. split; [by apply H | done]. Qed.

Lemma wp_ClassDeclaration ts p s head declPath body r t1 (Q : unit -> state -> Prop) :
  analyzeHead p s = Some head -> parentPath p = Some declPath ->
  analyzeBody p head s = inr body ->
  transformClass head body ts s = Ok r t1 ->
  (if slotIsType (heap s) declPath "ExportDefaultDeclaration" then
     wp (let '(funcNode, typeNode) := r in
         let! node := pathNode p in
         let! id := getField node "id" in
         if truthy id then
           let! decl := componentDeclaration p ts funcNode typeNode in
           let! idn := asRef id in
           let! c := cloneNode idn in
           let! exp := exportDefaultDeclaration c in
           replaceWithMultiple declPath [decl; exp]
         else replaceWith p funcNode) Q t1
   else
     wp (let '(funcNode, typeNode) := r in
         let! decl := componentDeclaration p ts funcNode typeNode in
         replaceWith p decl) Q t1) ->
  wp (ClassDeclaration ts p) Q s.
Proof.
  intros Hhead Hparent Hbody Htr H.
  unfold wp at 1. unfold ClassDeclaration. rewrite Hhead, Hparent.
  unfold bind at 1. unfold pathIsType at 1.
  destruct (slotIsType (heap s) declPath "ExportDefaultDeclaration").
  - apply wp_try_catch. apply wp_bind. unfold runAnalyzeBody, wp at 1. rewrite Hbody.
    apply wp_bind. by apply (wp_eq _ _ _ r t1).
  - apply wp_try_catch. apply wp_bind. unfold runAnalyzeBody, wp at 1. rewrite Hbody.
    apply wp_bind. by apply (wp_eq _ _ _ r t1).
Qed.

(** ** What a run leaves as it was *)

(** [l.k] in a store *)
Definition field (h : store) (l : loc) (k : string) : val :=
  match h !! l with
  | Some x => prop x k
  | None => VUndef
  end.

Definition fieldPath (l : loc) (k : string) : path := Path None l k None 0.


(** [pframe C s t]: from [s] to [t] objects were added, and every slot of an
    object of [s] that [C] covers reads as before. *)
Definition pframe (C : path -> val -> Prop) (s t : state) : Prop :=
  next s <= next t /\
  forall q, parent q < next s -> C q (slotVal (heap s) q) ->
            slotVal (heap t) q = slotVal (heap s) q.

Lemma pframe_refl C s : pframe C s s.
Proof. split; auto. Qed.

Lemma pframe_trans C1 C2 s t u :
  pframe C1 s t -> pframe C2 t u ->
  pframe (fun q v => C1 q v /\ C2 q v) s u.
Proof.
  intros [H1 H2] [H3 H4]. split; [lia|]. intros q Hq [Hc1 Hc2].
  rewrite <- (H2 q Hq Hc1). apply H4; [lia|]. by rewrite (H2 q Hq Hc1).
Qed.

Lemma pframe_weaken (C C' : path -> val -> Prop) s t :
  (forall q v, C' q v -> C q v) -> pframe C s t -> pframe C' s t.
Proof. intros HC [H1 H2]. split; [done|]. intros q Hq Hc. apply H2; auto. Qed.

Lemma pframe_field C s t l k :
  pframe C s t -> l < next s -> C (fieldPath l k) (field (heap s) l k) ->
  field (heap t) l k = field (heap s) l k.
Proof. intros [_ H] Hl Hc. apply (H (fieldPath l k)); done. Qed.

Lemma slotVal_app_old (h h' : store) q :
  parent q < length h -> slotVal (h ++ h') q = slotVal h q.
Proof. intros Hq. unfold slotVal. by rewrite lookup_app_l. Qed.

Lemma slotOk_app_old (h h' : store) p : slotOk h p -> slotOk (h ++ h') p.
Proof.
  intros (o & Ho & Hi). exists o. split; [|done]. by apply lookup_app_l_Some.
Qed.

Lemma pframe_alloc C s (fresh : store) :
  pframe C s (State (heap s ++ fresh) (scopes s)).
Proof.
  split; [len_solve|]. intros q Hq _. cbn [heap]. by apply slotVal_app_old.
Qed.

(** One rewritten site: new objects, then a write to the slot of [p]. *)
Lemma pframe_write s (fresh : store) p n :
  pframe (fun q _ => ~ overlap p q) s
    (State (slotWrite (heap s ++ fresh) p n) (scopes s)).
Proof.
  split; [len_solve|]. intros q Hq Hov. cbn [heap].
  rewrite slotVal_slotWrite_other by done. by apply slotVal_app_old.
Qed.

(** *** Sites rewritten one after the other *)

Definition overlapb (p q : path) : bool := bool_decide (overlap p q).

(** No two of the slots overlap. *)
Fixpoint separate (ps : list path) : bool :=
  match ps with
  | [] => true
  | p :: rest => forallb (fun q => negb (overlapb p q)) rest && separate rest
  end.

(** The slots are in objects below [n0]. *)
Definition allBelow (n0 : loc) (ps : list path) : bool :=
  forallb (fun p => bool_decide (parent p < n0)) ps.

(** [rewrites n0 ps s t]: [t] comes from [s] by rewriting the sites [ps] in
    turn, each by new objects and one write. *)
Inductive rewrites (n0 : loc) : list path -> state -> state -> Prop :=
  | rewrites_nil s : rewrites n0 [] s s
  | rewrites_cons p ps s fresh n t :
      parent p < n0 -> n0 <= next s -> slotOk (heap s) p ->
      rewrites n0 ps (State (slotWrite (heap s ++ fresh) p n) (scopes s)) t ->
      rewrites n0 (p :: ps) s t.

Lemma rewrites_app n0 ps1 ps2 s t u :
  rewrites n0 ps1 s t -> rewrites n0 ps2 t u -> rewrites n0 (ps1 ++ ps2) s u.
Proof.
  induction 1 as [|p ps s fresh n t Hp Hn Hok Hr IH]; intros H2; simpl; [done|].
  econstructor; eauto.
Qed.

Lemma rewrites_next n0 ps s t : rewrites n0 ps s t -> next s <= next t.
Proof.
  induction 1 as [|p ps s fresh n t Hp Hn Hok Hr IH]; [done|].
  etrans; [|exact IH]. len_solve.
Qed.

Lemma rewrites_scopes n0 ps s t : rewrites n0 ps s t -> scopes t = scopes s.
Proof. induction 1 as [|p ps s fresh n t Hp Hn Hok Hr IH]; [done|]. by rewrite IH. Qed.

(** Slots that no rewritten site overlaps read as before. *)
Lemma rewrites_pframe n0 ps s t :
  rewrites n0 ps s t ->
  pframe (fun q _ => Forall (fun p => ~ overlap p q) ps) s t.
Proof.
  induction 1 as [|p ps s fresh n t Hp Hn Hok Hr IH].
  - apply pframe_refl.
  - eapply pframe_weaken; [|eapply pframe_trans; [apply (pframe_write s fresh p n)|exact IH]].
    intros q v Hall. by inversion Hall.
Qed.

(** Objects made at [n0] or later are not written to. *)
Lemma rewrites_fresh n0 ps s t :
  rewrites n0 ps s t ->
  forall l, n0 <= l -> l < next s -> heap t !! l = heap s !! l.
Proof.
  induction 1 as [|p ps s fresh n t Hp Hn Hok Hr IH]; intros l Hl Hls; [done|].
  rewrite IH; [|done|len_solve]. cbn [heap].
  rewrite lookup_slotWrite_ne by lia. by rewrite lookup_app_l.
Qed.

Lemma slotOk_app_inv (h h' : store) p :
  parent p < length h -> slotOk (h ++ h') p -> slotOk h p.
Proof.
  intros Hp (o & Ho & Hi). exists o. split; [|done].
  by rewrite lookup_app_l in Ho.
Qed.

Lemma overlapb_false p q : negb (overlapb p q) = true <-> ~ overlap p q.
Proof.
  unfold overlapb. rewrite negb_true_iff. apply bool_decide_eq_false.
Qed.

Lemma separate_cons p ps :
  separate (p :: ps) = true ->
  Forall (fun q => ~ overlap p q) ps /\ separate ps = true.
Proof.
  simpl. intros [H1 H2]%andb_true_iff. split; [|done].
  apply Forall_forall. intros q Hq. apply overlapb_false.
  rewrite forallb_forall in H1. apply H1. by apply list_elem_of_In.
Qed.

Lemma overlap_sym p q : overlap p q -> overlap q p.
Proof.
  unfold overlap. intros (H1 & H2 & H3). split; [done|]. split; [done|].
  destruct (index p), (index q); auto.
Qed.

Lemma allBelow_cons n0 p ps :
  allBelow n0 (p :: ps) = true -> parent p < n0 /\ allBelow n0 ps = true.
Proof.
  unfold allBelow. simpl. intros [H1 H2]%andb_true_iff. split; [|done].
  by apply bool_decide_eq_true in H1.
Qed.

Lemma allBelow_app n0 ps qs :
  allBelow n0 (ps ++ qs) = true <-> allBelow n0 ps = true /\ allBelow n0 qs = true.
Proof. unfold allBelow. rewrite forallb_app. apply andb_true_iff. Qed.

Lemma allBelow_elem n0 ps p : allBelow n0 ps = true -> p ∈ ps -> parent p < n0.
Proof.
  unfold allBelow. rewrite forallb_forall. intros H Hp.
  apply list_elem_of_In, H in Hp. by apply bool_decide_eq_true in Hp.
Qed.

(** The site rewritten first keeps its new node when no later site overlaps it. *)
Lemma rewrites_head n0 p ps s fresh n t :
  parent p < next s -> slotOk (heap s) p ->
  rewrites n0 ps (State (slotWrite (heap s ++ fresh) p n) (scopes s)) t ->
  Forall (fun q => ~ overlap p q) ps ->
  slotVal (heap t) p = VRef n.
Proof.
  intros Hp Hok Hr Hsep.
  destruct (rewrites_pframe _ _ _ _ Hr) as [_ Hf].
  rewrite Hf; cbn [heap].
  - apply slotVal_slotWrite. by apply slotOk_app_old.
  - len_solve.
  - eapply Forall_impl; [exact Hsep|]. intros q Hq Hov. by apply Hq, overlap_sym.
Qed.

Lemma forM_ext {A} (xs : list A) (f g : A -> M unit) s :
  (forall x s, f x s = g x s) -> forM_ xs f s = forM_ xs g s.
Proof.
  intros Hfg. revert s. induction xs as [|x xs IH]; intros s; simpl; [done|].
  unfold bind. rewrite Hfg. destruct (g x s); [apply IH | done].
Qed.

Lemma forM_app {A} (xs ys : list A) (f : A -> M unit) s :
  forM_ (xs ++ ys) f s = (do! forM_ xs f in forM_ ys f) s.
Proof.
  revert s. induction xs as [|x xs IH]; intros s; simpl; [done|].
  unfold bind. destruct (f x s) as [[] s'|e s']; [|done].
  rewrite IH. done.
Qed.

Lemma forM_map {A B} (h : A -> B) (xs : list A) (f : B -> M unit) s :
  forM_ (map h xs) f s = forM_ xs (fun x => f (h x)) s.
Proof.
  revert s. induction xs as [|x xs IH]; intros s; simpl; [done|].
  unfold bind. destruct (f (h x) s); [apply IH | done].
Qed.

Lemma forM_flat_map {A B} (xs : list A) (g : A -> list B) (f : B -> M unit) s :
  forM_ xs (fun x => forM_ (g x) f) s = forM_ (flat_map g xs) f s.
Proof.
  revert s. induction xs as [|x xs IH]; intros s; simpl; [done|].
  rewrite forM_app. unfold bind.
  destruct (forM_ (g x) f s); [apply IH | done].
Qed.

(** *** The nodes the rewriter makes *)

Definition identifierObj (name : string) : obj := mkObj "Identifier" [("name", VStr name)].

Definition callObj (callee : loc) (args : list loc) : obj :=
  mkObj "CallExpression" [("callee", VRef callee); ("arguments", VArr args)].

Definition memberObj (object property : loc) : obj :=
  mkObj "MemberExpression"
    [("object", VRef object); ("property", VRef property);
     ("computed", VBool false); ("optional", VNull)].

(** *** State sites (lines 148-163) *)

Definition statePath (site : StateSite) : path :=
  match site with
  | StateExpr p => p
  | StateSetState p _ => p
  end.

(** The state sites in the order in which they are rewritten. *)
Definition stateJobs (body : ComponentBody) : list (StateField * StateSite) :=
  flat_map (fun '(_, f) => map (pair f) (state_sites f)) (body_state body).

Definition stateSitePaths (body : ComponentBody) : list path :=
  map (fun j => statePath j.2) (stateJobs body).

Lemma rewriteStateSites_jobs body s :
  rewriteStateSites body s
  = forM_ (stateJobs body) (fun '(f, site) => rewriteStateSite f site) s.
Proof.
  unfold rewriteStateSites, stateJobs.
  rewrite <- forM_flat_map. apply forM_ext. intros [name f] s'.
  by rewrite forM_map.
Qed.

Lemma prop_identifierObj name k :
  prop (identifierObj name) k = VStr "Identifier" \/
  prop (identifierObj name) k = VStr name \/
  prop (identifierObj name) k = VUndef.
Proof.
  unfold prop, identifierObj, mkObj. simpl.
  destruct (decide (k = "type")) as [->|]; [left; by rewrite lookup_insert_eq|].
  rewrite lookup_insert_ne by done.
  destruct (decide (k = "name")) as [->|]; [right; left; by rewrite lookup_insert_eq|].
  rewrite lookup_insert_ne by done. right; right. by rewrite lookup_empty.
Qed.

(** A slot read off a store whose last object is an identifier lies in the
    store before it. *)
Lemma slotVal_snoc_identifier (h : store) name q l :
  slotVal (h ++ [identifierObj name]) q = VRef l -> slotVal h q = VRef l.
Proof.
  unfold slotVal. intros H.
  destruct (decide (parent q < length h)) as [Hlt|Hge].
  - by rewrite lookup_app_l in H.
  - destruct (decide (parent q = length h)) as [Heq|Hne].
    + rewrite Heq, lookup_alloc_new in H.
      destruct (prop_identifierObj name (key q)) as [E|[E|E]]; rewrite E in H;
        by destruct (index q).
    + rewrite lookup_ge_None_2 in H; [done|]. rewrite length_app. simpl. lia.
Qed.

Lemma rewriteStateSite_Ok sa site s t :
  rewriteStateSite sa site s = Ok tt t ->
  exists fresh n,
    t = State (slotWrite (heap s ++ fresh) (statePath site) n) (scopes s) /\
    slotOk (heap s ++ fresh) (statePath site) /\
    match site with
    | StateExpr _ =>
        fresh = [identifierObj (localName sa)] /\ n = next s
    | StateSetState _ valuePath =>
        exists v, slotVal (heap s) valuePath = VRef v /\
          fresh = [identifierObj (localSetterName sa); callObj (next s) [v]] /\
          n = S (next s)
    end.
Proof.
  destruct site as [p|p vp]; simpl; unfold identifier, callExpression; intros H.
  - inv_run. apply replaceWith_Ok in H as [Hok ->]. cbn [heap scopes] in *.
    eexists _, _. split; [reflexivity|]. auto.
  - inv_run. apply replaceWith_Ok in H as [Hok ->]. cbn [heap scopes] in *.
    rewrite <- app_assoc in *. simpl in *.
    match goal with H : slotVal _ vp = VRef ?v |- _ =>
      apply slotVal_snoc_identifier in H; rename H into Hv end.
    eexists _, _. split; [reflexivity|]. split; [done|].
    eexists. split; [exact Hv|]. split; [reflexivity|].
    unfold next. cbn [heap]. rewrite length_app. simpl. lia.
Qed.

(** What the rewriting of a state site leaves in the store [h]: at a read,
    the local name; at an update, a call of the setter on the value, which is
    the node the value path held from the start when no site overlaps it. *)
Definition stateSiteDone (n0 : loc) (s0 : state) (paths : list path) (h : store)
    (sa : StateField) (site : StateSite) : Prop :=
  exists n, slotVal h (statePath site) = VRef n /\ n0 <= n /\
    match site with
    | StateExpr _ => h !! n = Some (identifierObj (localName sa))
    | StateSetState _ valuePath =>
        exists c v, n0 <= c /\
          h !! n = Some (callObj c [v]) /\
          h !! c = Some (identifierObj (localSetterName sa)) /\
          (parent valuePath < next s0 ->
           Forall (fun p => ~ overlap p valuePath) paths ->
           slotVal (heap s0) valuePath = VRef v)
    end.

Lemma stateJobs_run n0 jobs : forall s t,
  forM_ jobs (fun '(f, site) => rewriteStateSite f site) s = Ok tt t ->
  n0 <= next s ->
  allBelow n0 (map (fun j => statePath j.2) jobs) = true ->
  rewrites n0 (map (fun j => statePath j.2) jobs) s t /\
  (separate (map (fun j => statePath j.2) jobs) = true ->
   forall sa site, (sa, site) ∈ jobs ->
     stateSiteDone n0 s (map (fun j => statePath j.2) jobs) (heap t) sa site).
Proof.
  induction jobs as [|[sa site] jobs IH]; intros s t Hrun Hn0 Hbelow.
  - apply ret_Ok in Hrun as [_ ->]. split; [constructor|].
    intros _ sa site Hin. by apply elem_of_nil in Hin.
  - simpl in Hrun. apply bind_Ok in Hrun as ([] & s1 & Hstep & Hrest).
    simpl in Hbelow. apply allBelow_cons in Hbelow as [Hp Hbelow]. simpl in Hp.
    apply rewriteStateSite_Ok in Hstep as (fresh & n & -> & Hok & Hsite).
    set (s1 := State _ _) in *.
    assert (next s <= next s1) as Hnext by (unfold s1; len_solve).
    destruct (IH s1 t Hrest ltac:(lia) Hbelow) as [Hrw Hposts].
    assert (slotOk (heap s) (statePath site)) as Hok'
      by (eapply slotOk_app_inv; [|exact Hok]; unfold next in *; lia).
    split; [simpl; by econstructor|].
    intros Hsep sa' site' Hin. simpl in Hsep.
    apply separate_cons in Hsep as [Hhead Hsep].
    apply elem_of_cons in Hin as [[= -> ->]|Hin].
    + (* the site rewritten first *)
      exists n. split; [eapply rewrites_head; eauto; lia|].
      assert (forall l, next s <= l -> l < next s1 ->
                heap t !! l = (heap s ++ fresh) !! l) as Hfresh.
      { intros l Hl1 Hl2. rewrite (rewrites_fresh _ _ _ _ Hrw) by lia.
        unfold s1. cbn [heap]. apply lookup_slotWrite_ne. lia. }
      destruct site as [p|p vp].
      * destruct Hsite as [-> ->]. split; [lia|].
        rewrite Hfresh; [apply lookup_alloc_new|lia|unfold s1; len_solve].
      * destruct Hsite as (v & Hv & -> & ->). split; [lia|].
        exists (next s), v. split; [lia|]. split; [|split].
        -- rewrite Hfresh; [|lia|unfold s1; len_solve].
           change [identifierObj (localSetterName sa); callObj (next s) [v]]
             with ([identifierObj (localSetterName sa)] ++ [callObj (next s) [v]]).
           rewrite app_assoc. apply lookup_snoc_eq. len_solve.
        -- rewrite Hfresh; [|lia|unfold s1; len_solve].
           change [identifierObj (localSetterName sa); callObj (next s) [v]]
             with ([identifierObj (localSetterName sa)] ++ [callObj (next s) [v]]).
           rewrite app_assoc. rewrite lookup_app_l by len_solve.
           apply lookup_alloc_new.
        -- done.
    + (* a site rewritten later *)
      destruct (Hposts Hsep sa' site' Hin) as (m & Hm & Hn0m & Hshape).
      exists m. split; [done|]. split; [done|].
      destruct site' as [p'|p' vp']; [done|].
      destruct Hshape as (c & v & Hc & H1 & H2 & Hv).
      exists c, v. split; [done|]. split; [done|]. split; [done|].
      intros Hvp Hall. simpl in Hall. inversion Hall as [|? ? Hov Hall']; subst.
      rewrite <- Hv; [|lia|done].
      symmetry. by apply (pframe_write s fresh (statePath site) n).
Qed.

(** *** User-defined field sites (lines 164-185) *)

Definition isExprSite (site : FieldSite) : bool := String.eqb (fsite_type site) "expr".

(** The field sites in the order in which they are visited. *)
Definition fieldJobs (body : ComponentBody) : list (UserField * FieldSite) :=
  flat_map (fun '(_, f) => map (pair f) (field_sites f)) (fields body).

(** The slots of the sites that are rewritten: those of type ["expr"]. *)
Definition jobPaths (jobs : list (UserField * FieldSite)) : list path :=
  map (fun j => fsite_path j.2) (List.filter (fun j => isExprSite j.2) jobs).

Definition fieldSitePaths (body : ComponentBody) : list path := jobPaths (fieldJobs body).

Lemma rewriteFieldSites_jobs body s :
  rewriteFieldSites body s
  = forM_ (fieldJobs body) (fun '(f, site) => rewriteFieldSite f site) s.
Proof.
  unfold rewriteFieldSites, fieldJobs.
  rewrite <- forM_flat_map. apply forM_ext. intros [name f] s'.
  by rewrite forM_map.
Qed.

Definition isDirectRef (f : UserField) : bool :=
  match field_type f with user_defined_direct_ref _ => true | _ => false end.

Lemma rewriteFieldSite_Ok f site s t :
  rewriteFieldSite f site s = Ok tt t ->
  if isExprSite site then
    exists fresh n,
      t = State (slotWrite (heap s ++ fresh) (fsite_path site) n) (scopes s) /\
      slotOk (heap s ++ fresh) (fsite_path site) /\
      if isDirectRef f then
        fresh = [identifierObj (field_localName f); identifierObj "current";
                 memberObj (next s) (S (next s))] /\
        n = S (S (next s))
      else fresh = [identifierObj (field_localName f)] /\ n = next s
  else t = s.
Proof.
  unfold rewriteFieldSite, isExprSite, isDirectRef, identifier, memberExpression.
  destruct (fsite_type site =? "expr")%string.
  - destruct (field_type f); intros H; inv_run;
      apply replaceWith_Ok in H as [Hok ->]; unfold next in *; cbn [heap scopes] in *;
      rewrite <- ?app_assoc in *; rewrite ?length_app in *; simpl in *;
      rewrite ?Nat.add_1_r in *;
      eexists _, _; (split; [reflexivity|]); (split; [done|]);
      (split; [reflexivity|]); rewrite ?length_app; simpl; lia.
  - destruct (field_type f); intros H; by apply ret_Ok in H as [_ ->].
Qed.

(** What the rewriting leaves at a field site of type ["expr"]: the local
    name, or [<local name>.current] for a direct ref. *)
Definition fieldSiteDone (n0 : loc) (h : store) (f : UserField) (site : FieldSite)
    : Prop :=
  exists n, slotVal h (fsite_path site) = VRef n /\ n0 <= n /\
    if isDirectRef f then
      exists a b, n0 <= a /\ n0 <= b /\
        h !! n = Some (memberObj a b) /\
        h !! a = Some (identifierObj (field_localName f)) /\
        h !! b = Some (identifierObj "current")
    else h !! n = Some (identifierObj (field_localName f)).

Lemma fieldJobs_run n0 jobs : forall s t,
  forM_ jobs (fun '(f, site) => rewriteFieldSite f site) s = Ok tt t ->
  n0 <= next s ->
  allBelow n0 (jobPaths jobs) = true ->
  rewrites n0 (jobPaths jobs) s t /\
  (separate (jobPaths jobs) = true ->
   forall f site, (f, site) ∈ jobs -> isExprSite site = true ->
     fieldSiteDone n0 (heap t) f site).
Proof.
  induction jobs as [|[f site] jobs IH]; intros s t Hrun Hn0 Hbelow.
  - apply ret_Ok in Hrun as [_ ->]. split; [constructor|].
    intros _ f site Hin. by apply elem_of_nil in Hin.
  - simpl in Hrun. apply bind_Ok in Hrun as ([] & s1 & Hstep & Hrest).
    apply rewriteFieldSite_Ok in Hstep.
    unfold jobPaths in *. simpl in *.
    destruct (isExprSite site) eqn:Hexpr; simpl in *.
    2:{ subst s1. destruct (IH s t Hrest Hn0 Hbelow) as [Hrw Hposts].
        split; [done|]. intros Hsep f' site' Hin Hex.
        apply elem_of_cons in Hin as [[= -> ->]|Hin]; [congruence|]. by apply Hposts. }
    apply allBelow_cons in Hbelow as [Hp Hbelow]. simpl in Hp.
    destruct Hstep as (fresh & n & -> & Hok & Hsite).
    set (s1 := State _ _) in *.
    assert (next s <= next s1) as Hnext by (unfold s1; len_solve).
    destruct (IH s1 t Hrest ltac:(lia) Hbelow) as [Hrw Hposts].
    assert (slotOk (heap s) (fsite_path site)) as Hok'
      by (eapply slotOk_app_inv; [|exact Hok]; unfold next in *; lia).
    split; [by econstructor|].
    intros Hsep f' site' Hin Hex.
    apply separate_cons in Hsep as [Hhead Hsep].
    apply elem_of_cons in Hin as [[= -> ->]|Hin]; [|by apply Hposts].
    exists n. split; [eapply rewrites_head; eauto; lia|].
    assert (forall l, next s <= l -> l < next s1 ->
              heap t !! l = (heap s ++ fresh) !! l) as Hfresh.
    { intros l Hl1 Hl2. rewrite (rewrites_fresh _ _ _ _ Hrw) by lia.
      unfold s1. cbn [heap]. apply lookup_slotWrite_ne. lia. }
    destruct (isDirectRef f).
    + destruct Hsite as [-> ->]. split; [lia|].
      exists (next s), (S (next s)). split; [lia|]. split; [lia|].
      rewrite !Hfresh by (try lia; unfold s1; len_solve).
      change [identifierObj (field_localName f); identifierObj "current";
              memberObj (next s) (S (next s))]
        with ([identifierObj (field_localName f)] ++ [identifierObj "current"]
              ++ [memberObj (next s) (S (next s))]).
      rewrite !app_assoc. split; [|split].
      * apply lookup_snoc_eq. len_solve.
      * rewrite lookup_app_l by len_solve. rewrite lookup_app_l by len_solve.
        apply lookup_alloc_new.
      * rewrite lookup_app_l by len_solve. apply lookup_snoc_eq. len_solve.
    + destruct Hsite as [-> ->]. split; [lia|].
      rewrite Hfresh; [apply lookup_alloc_new|lia|unfold s1; len_solve].
Qed.

(** *** Prop sites (lines 106-118) *)

(** With defaults: the sites of every prop, each with its prop. *)
Definition propJobs (body : ComponentBody) : list (PropBinding * path) :=
  flat_map (fun '(_, pb) => map (pair pb) (prop_sites pb)) (props body).

(** The slots that [rewritePropSites] writes. *)
Definition propSitePaths (body : ComponentBody) : list path :=
  if hasDefaults body then map snd (propJobs body) else props_sites body.

Lemma propJobs_run n0 jobs : forall s t,
  forM_ jobs (fun '(pb, site) =>
      let! id := identifier (newAliasName pb) in replaceWith site id) s = Ok tt t ->
  n0 <= next s ->
  allBelow n0 (map snd jobs) = true ->
  rewrites n0 (map snd jobs) s t /\
  (separate (map snd jobs) = true ->
   forall pb site, (pb, site) ∈ jobs ->
     exists n, slotVal (heap t) site = VRef n /\ n0 <= n /\
               heap t !! n = Some (identifierObj (newAliasName pb))).
Proof.
  induction jobs as [|[pb site] jobs IH]; intros s t Hrun Hn0 Hbelow.
  - apply ret_Ok in Hrun as [_ ->]. split; [constructor|].
    intros _ f site Hin. by apply elem_of_nil in Hin.
  - simpl in Hrun. apply bind_Ok in Hrun as ([] & s1 & Hstep & Hrest).
    unfold identifier in Hstep. inv_run.
    apply replaceWith_Ok in Hstep as [Hok ->]. cbn [heap scopes] in *.
    simpl in Hbelow. apply allBelow_cons in Hbelow as [Hp Hbelow]. simpl in Hp.
    set (s1 := State _ _) in *.
    assert (next s <= next s1) as Hnext by (unfold s1; len_solve).
    destruct (IH s1 t Hrest ltac:(lia) Hbelow) as [Hrw Hposts].
    assert (slotOk (heap s) site) as Hok'
      by (eapply slotOk_app_inv; [|exact Hok]; unfold next in *; lia).
    split; [simpl; by econstructor|].
    intros Hsep pb' site' Hin. simpl in Hsep.
    apply separate_cons in Hsep as [Hhead Hsep].
    apply elem_of_cons in Hin as [[= -> ->]|Hin]; [|by apply Hposts].
    exists (next s). split; [eapply rewrites_head; eauto; lia|]. split; [lia|].
    rewrite (rewrites_fresh _ _ _ _ Hrw); [|lia|unfold s1; len_solve].
    unfold s1. cbn [heap]. rewrite lookup_slotWrite_ne by (unfold next in *; lia).
    apply lookup_alloc_new.
Qed.

(** Without defaults: what is left at a site that held a member access [m]
    is the node that was the property of [m], when no site lies in [m]. *)
Definition propsObjectDone (s0 : state) (paths : list path) (h : store) (site : path)
    : Prop :=
  exists pr, slotVal h site = VRef pr /\
    forall m, slotVal (heap s0) site = VRef m ->
      Forall (fun p => ~ overlap p (fieldPath m "property")) paths ->
      field (heap s0) m "property" = VRef pr.

Lemma propsObject_run n0 sites : forall s t,
  forM_ sites (fun site =>
      let! n := pathNode site in
      let! property := getField n "property" in
      replaceWithVal site property) s = Ok tt t ->
  n0 <= next s ->
  allBelow n0 sites = true ->
  rewrites n0 sites s t /\
  (separate sites = true ->
   forall site, site ∈ sites -> propsObjectDone s sites (heap t) site).
Proof.
  induction sites as [|site sites IH]; intros s t Hrun Hn0 Hbelow.
  - apply ret_Ok in Hrun as [_ ->]. split; [constructor|].
    intros _ site Hin. by apply elem_of_nil in Hin.
  - simpl in Hrun. apply bind_Ok in Hrun as ([] & s1 & Hstep & Hrest).
    inv_run. rename x into m0.
    match goal with H : heap s !! m0 = Some ?o |- _ => rename o into mo; rename H into Hmo end.
    match goal with H : slotVal (heap s) site = VRef m0 |- _ => rename H into Hm0 end.
    unfold replaceWithVal in Hstep.
    destruct (prop mo "property") as [| | | |pr|] eqn:Hpr; try discriminate.
    apply replaceWith_Ok in Hstep as [Hok ->].
    apply allBelow_cons in Hbelow as [Hp Hbelow].
    assert (State (slotWrite (heap s) site pr) (scopes s)
            = State (slotWrite (heap s ++ []) site pr) (scopes s)) as Heq
      by (by rewrite app_nil_r).
    rewrite Heq in Hrest.
    set (s1 := State (slotWrite (heap s ++ []) site pr) (scopes s)) in *.
    assert (next s1 = next s) as Hnext
      by (unfold s1, next; cbn [heap]; by rewrite length_slotWrite, app_nil_r).
    destruct (IH s1 t Hrest ltac:(lia) Hbelow) as [Hrw Hposts].
    split; [by econstructor|].
    intros Hsep site' Hin.
    apply separate_cons in Hsep as [Hhead Hsep].
    apply elem_of_cons in Hin as [->|Hin].
    + exists pr. split; [eapply rewrites_head; eauto; lia|].
      intros m Hm _. assert (m = m0) as -> by congruence.
      unfold field. by rewrite Hmo.
    + destruct (Hposts Hsep site' Hin) as (pr' & Hslot & Hrel).
      exists pr'. split; [done|]. intros m Hm Hall.
      inversion Hall as [|? ? Hov Hall']; subst.
      pose proof (pframe_write s [] site pr) as [_ Hf]. fold s1 in Hf.
      assert (parent site' < next s) as Hps'.
      { apply (allBelow_elem n0) in Hin; [lia|done]. }
      assert (~ overlap site site') as Hov'.
      { rewrite Forall_forall in Hhead. by apply Hhead. }
      specialize (Hrel m). rewrite (Hf site' Hps' Hov') in Hrel.
      specialize (Hrel Hm Hall').
      destruct (decide (m < next s)) as [Hlt|Hge].
      * rewrite <- Hrel. symmetry. apply (Hf (fieldPath m "property")); done.
      * unfold field in Hrel. rewrite lookup_ge_None_2 in Hrel; [done|].
        fold (next s1). lia.
Qed.

Lemma rewritePropSites_run n0 body s t :
  rewritePropSites body s = Ok tt t ->
  n0 <= next s -> allBelow n0 (propSitePaths body) = true ->
  rewrites n0 (propSitePaths body) s t /\
  (separate (propSitePaths body) = true ->
   if hasDefaults body then
     forall pb site, (pb, site) ∈ propJobs body ->
       exists n, slotVal (heap t) site = VRef n /\ n0 <= n /\
                 heap t !! n = Some (identifierObj (newAliasName pb))
   else
     forall site, site ∈ props_sites body ->
       propsObjectDone s (props_sites body) (heap t) site).
Proof.
  unfold rewritePropSites, propSitePaths. destruct (hasDefaults body).
  - intros Hrun. apply propJobs_run.
    unfold propJobs. rewrite <- forM_flat_map. rewrite <- Hrun.
    apply forM_ext. intros [name pb] s'. by rewrite forM_map.
  - apply propsObject_run.
Qed.

Lemma rewriteStateSites_run n0 body s t :
  rewriteStateSites body s = Ok tt t ->
  n0 <= next s -> allBelow n0 (stateSitePaths body) = true ->
  rewrites n0 (stateSitePaths body) s t /\
  (separate (stateSitePaths body) = true ->
   forall sa site, (sa, site) ∈ stateJobs body ->
     stateSiteDone n0 s (stateSitePaths body) (heap t) sa site).
Proof. rewrite rewriteStateSites_jobs. apply stateJobs_run. Qed.

Lemma rewriteFieldSites_run n0 body s t :
  rewriteFieldSites body s = Ok tt t ->
  n0 <= next s -> allBelow n0 (fieldSitePaths body) = true ->
  rewrites n0 (fieldSitePaths body) s t /\
  (separate (fieldSitePaths body) = true ->
   forall f site, (f, site) ∈ fieldJobs body -> isExprSite site = true ->
     fieldSiteDone n0 (heap t) f site).
Proof. rewrite rewriteFieldSites_jobs. apply fieldJobs_run. Qed.

(** *** Computations that leave the slots under [C] as they were *)

Definition frames {A} (C : path -> val -> Prop) (m : M A) : Prop :=
  forall s a t, m s = Ok a t -> pframe C s t.

Lemma pframe_trans_same C s t u : pframe C s t -> pframe C t u -> pframe C s u.
Proof.
  intros H1 H2. eapply pframe_weaken; [|eapply pframe_trans; [exact H1|exact H2]].
  intros q v Hc. by split.
Qed.

Lemma frames_bind {A B} C (m : M A) (k : A -> M B) :
  frames C m -> (forall a, frames C (k a)) -> frames C (bind m k).
Proof.
  intros Hm Hk s b t H. apply bind_Ok in H as (a & s' & H1 & H2).
  eapply pframe_trans_same; [by eapply Hm | by eapply Hk].
Qed.

(** A computation that only reads. *)
Definition reads {A} (m : M A) : Prop := forall s a t, m s = Ok a t -> t = s.

Lemma frames_reads {A} C (m : M A) : reads m -> frames C m.
Proof. intros Hm s a t H. rewrite (Hm _ _ _ H). apply pframe_refl. Qed.

Lemma reads_ret {A} (a : A) : reads (ret a).
Proof. intros s b t H. by apply ret_Ok in H as [_ ->]. Qed.

Lemma reads_throw {A} e : reads (@throw A e).
Proof. intros s b t H. discriminate. Qed.

Lemma reads_bind {A B} (m : M A) (k : A -> M B) :
  reads m -> (forall a, reads (k a)) -> reads (bind m k).
Proof.
  intros Hm Hk s b t H. apply bind_Ok in H as (a & s' & H1 & H2).
  rewrite (Hk _ _ _ _ H2). by eapply Hm.
Qed.

Lemma reads_getObj l : reads (getObj l).
Proof. intros s a t H. by apply getObj_Ok in H as [-> _]. Qed.

Lemma reads_asRef v : reads (asRef v).
Proof. intros s a t H. by apply asRef_Ok in H as [-> _]. Qed.

Lemma reads_asArr v : reads (asArr v).
Proof. intros s a t H. by apply asArr_Ok in H as [-> _]. Qed.

Lemma reads_asStr v : reads (asStr v).
Proof. intros s a t H. by apply asStr_Ok in H as [-> _]. Qed.

Lemma reads_pathVal p : reads (pathVal p).
Proof. intros s a t H. by apply pathVal_Ok in H as [-> _]. Qed.

Lemma reads_pathIsType p ty : reads (pathIsType p ty).
Proof. intros s a t [= _ <-]. done. Qed.

Lemma reads_getBinding sc name : reads (getBinding sc name).
Proof. intros s a t [= _ <-]. done. Qed.

Create HintDb reads.
#[local] Hint Resolve reads_ret reads_throw reads_getObj reads_asRef reads_asArr
  reads_asStr reads_pathVal reads_pathIsType reads_getBinding : reads.

Lemma reads_check (m : M unit) : isCheck m -> reads m.
Proof. intros Hm s a t. apply Hm. Qed.

Lemma reads_assertNodeType ty types key v : reads (assertNodeType ty types key v).
Proof. apply reads_check, isCheck_assertNodeType. Qed.

Lemma reads_assertValueType type key v : reads (assertValueType type key v).
Proof. apply reads_check, isCheck_assertValueType. Qed.

Lemma reads_optionally ty types key v :
  reads (optionally (assertNodeType ty types) key v).
Proof. apply reads_check, isCheck_optionally. Qed.

Lemma reads_assertArrayOf ty types key v : reads (assertArrayOf ty types key v).
Proof. apply reads_check, isCheck_assertArrayOf. Qed.

Lemma reads_assertParams ty params : reads (assertParams ty params).
Proof. apply reads_check, isCheck_assertParams. Qed.

Lemma reads_assertOneOf values key v : reads (assertOneOf values key v).
Proof. apply reads_check, isCheck_assertOneOf. Qed.
#[local] Hint Resolve reads_assertNodeType reads_assertValueType reads_optionally
  reads_assertArrayOf reads_assertParams reads_assertOneOf : reads.

Ltac reads_tac :=
  repeat first
    [ progress intros
    | solve [eauto with reads]
    | apply reads_bind
    | match goal with
      | |- reads (match ?x with _ => _ end) => destruct x
      | |- reads (if ?b then _ else _) => destruct b
      end ].

Lemma reads_getField l k : reads (getField l k).
Proof. unfold getField. reads_tac. Qed.
#[local] Hint Resolve reads_getField : reads.

Lemma reads_isType l ty : reads (isType l ty).
Proof. unfold isType, typeOf. reads_tac. Qed.

Lemma reads_pathNode p : reads (pathNode p).
Proof. unfold pathNode. reads_tac. Qed.
#[local] Hint Resolve reads_isType reads_pathNode : reads.

Lemma reads_pathGet p k : reads (pathGet p k).
Proof. unfold pathGet. reads_tac. Qed.

Lemma reads_pathGetList p k : reads (pathGetList p k).
Proof. unfold pathGetList. reads_tac. Qed.

Lemma reads_nonNullPath p : reads (nonNullPath p).
Proof. unfold nonNullPath. reads_tac. Qed.

Lemma reads_someUndefinedKeyword types : reads (someUndefinedKeyword types).
Proof. induction types as [|t rest IH]; simpl; reads_tac. Qed.

Lemma reads_importName n : reads (importName n).
Proof. unfold importName. reads_tac. Qed.
#[local] Hint Resolve reads_pathGet reads_pathGetList reads_nonNullPath
  reads_someUndefinedKeyword reads_importName : reads.

Lemma reads_findSpecifier name specs : reads (findSpecifier name specs).
Proof. induction specs as [|spec rest IH]; simpl; reads_tac. Qed.
#[local] Hint Resolve reads_findSpecifier : reads.

Lemma frames_alloc C o : frames C (alloc o).
Proof. intros s a t H. apply alloc_Ok in H as [_ ->]. apply pframe_alloc. Qed.

Lemma slotVal_insert_key (h : store) l (x : obj) k v q :
  h !! l = Some x -> key q <> k -> slotVal (<[l := <[k := v]> x]> h) q = slotVal h q.
Proof.
  intros Hx Hk. unfold slotVal.
  destruct (decide (parent q = l)) as [->|Hl].
  - rewrite Hx, list_lookup_insert_eq by (by eapply lookup_lt_Some).
    by rewrite prop_insert_ne.
  - by rewrite list_lookup_insert_ne.
Qed.

Lemma frames_setField (C : path -> val -> Prop) l k v :
  (forall q x, C q x -> key q <> k) -> frames C (setField l k v).
Proof.
  intros HC s a t H. apply setField_Ok in H as (x & Hx & ->).
  split; [len_solve|]. intros q Hq Hc. cbn [heap].
  apply slotVal_insert_key; eauto.
Qed.

Lemma frames_replaceWith (C : path -> val -> Prop) p n :
  (forall q x, C q x -> key q <> key p) -> frames C (replaceWith p n).
Proof.
  intros HC s a t H. apply replaceWith_Ok in H as [Hok ->].
  split; [len_solve|]. intros q Hq Hc. cbn [heap].
  apply slotVal_slotWrite_other. intros (_ & Hk & _). by eapply HC.
Qed.

Lemma frames_forM {A} C (xs : list A) (f : A -> M unit) :
  (forall x, frames C (f x)) -> frames C (forM_ xs f).
Proof.
  intros Hf. induction xs as [|x xs IH]; simpl.
  - apply frames_reads, reads_ret.
  - apply frames_bind; auto.
Qed.

(** *** The typings of props with defaults (lines 119-147) *)

(** The keys that the widening of a typing writes. *)
Definition typingKey (k : string) : bool :=
  bool_decide (k ∈ ["optional"; "types"; "typeAnnotation"]).

Definition offTyping (q : path) (_ : val) : Prop := typingKey (key q) = false.

Lemma frames_bind_post {A B} C (P : A -> Prop) (m : M A) (k : A -> M B) :
  (forall s a t, m s = Ok a t -> P a) ->
  frames C m -> (forall a, P a -> frames C (k a)) -> frames C (bind m k).
Proof.
  intros HP Hm Hk s b t H. apply bind_Ok in H as (a & s' & H1 & H2).
  eapply pframe_trans_same; [by eapply Hm | eapply Hk; eauto].
Qed.

Lemma pathGet_key p k s q t : pathGet p k s = Ok q t -> key q = k.
Proof. unfold pathGet. intros H. inv_run. done. Qed.

Lemma frames_setField_typing l k v :
  typingKey k = true -> frames offTyping (setField l k v).
Proof.
  intros Hk. apply frames_setField. intros q x Hq Heq.
  unfold offTyping in Hq. rewrite Heq in Hq. congruence.
Qed.

Lemma frames_replaceWith_typing p n :
  typingKey (key p) = true -> frames offTyping (replaceWith p n).
Proof.
  intros Hk. apply frames_replaceWith. intros q x Hq Heq.
  unfold offTyping in Hq. rewrite Heq in Hq. congruence.
Qed.

Ltac frames_tac :=
  repeat first
    [ progress intros
    | apply frames_reads; solve [eauto with reads]
    | apply frames_alloc
    | apply frames_setField_typing; reflexivity
    | apply frames_bind
    | match goal with
      | |- frames _ (match ?x with _ => _ end) => destruct x
      | |- frames _ (if ?b then _ else _) => destruct b
      end ].

Lemma frames_widenTyping pb : frames offTyping (widenTyping pb).
Proof.
  unfold widenTyping, tsUndefinedKeyword, tsUnionType.
  destruct (defaultValue pb), (typing pb);
    try (apply frames_reads, reads_ret).
  apply frames_bind; [frames_tac|]. intros tn.
  apply frames_bind; [frames_tac|]. intros _.
  apply frames_bind; [frames_tac|]. intros [|]; [|frames_tac].
  apply frames_bind; [frames_tac|]. intros outer.
  apply frames_bind; [frames_tac|]. intros [outer'|]; [|frames_tac].
  apply (frames_bind_post _ (fun q => key q = "typeAnnotation"));
    [intros s a t; apply pathGet_key | frames_tac |].
  intros typeAnnotation Hkey.
  apply frames_bind; [frames_tac|]. intros [|]; [frames_tac|].
  apply frames_bind; [frames_tac|]. intros old.
  apply frames_bind; [frames_tac|]. intros undef.
  apply frames_bind; [frames_tac|]. intros union.
  apply frames_replaceWith_typing. by rewrite Hkey.
Qed.

Lemma frames_widenPropTypings body : frames offTyping (widenPropTypings body).
Proof.
  unfold widenPropTypings. apply frames_forM. intros [name pb]. apply frames_widenTyping.
Qed.

(** *** The preamble and the assembly (lines 186-327)

    These write to two lists only: the specifiers of the import declaration
    and the statements of the render body. *)

Definition listKey (k : string) : bool := bool_decide (k ∈ ["body"; "specifiers"]).

(** [x'] is [x] but for a list under [body] or [specifiers]. *)
Definition related (x x' : obj) : Prop :=
  forall k, x' !! k = x !! k \/
            (listKey k = true /\
             exists ls ls', x !! k = Some (VArr ls) /\ x' !! k = Some (VArr ls')).

(** No list under [body] or [specifiers]. *)
Definition plain (x : obj) : Prop :=
  forall k ls, listKey k = true -> x !! k <> Some (VArr ls).

Definition pstep (s t : state) : Prop :=
  next s <= next t /\
  forall l x, heap s !! l = Some x -> exists x', heap t !! l = Some x' /\ related x x'.

Lemma related_refl x : related x x.
Proof. intros k. by left. Qed.

Lemma related_trans x y z : related x y -> related y z -> related x z.
Proof.
  intros H1 H2 k. destruct (H1 k) as [E1|(Hk & ls & ls' & E1 & E1')];
    destruct (H2 k) as [E2|(Hk2 & ms & ms' & E2 & E2')].
  - left. congruence.
  - right. split; [done|]. exists ms, ms'. split; congruence.
  - right. split; [done|]. exists ls, ls'. split; congruence.
  - right. split; [done|]. exists ls, ms'. split; congruence.
Qed.

Lemma related_plain x x' : related x x' -> plain x -> x' = x.
Proof.
  intros Hr Hp. apply map_eq. intros k.
  destruct (Hr k) as [E|(Hk & ls & ls' & E & _)]; [done|]. by apply Hp in E.
Qed.

Lemma related_prop x x' k :
  related x x' -> (listKey k = false \/ forall ls, prop x k <> VArr ls) ->
  prop x' k = prop x k.
Proof.
  intros Hr Hk. unfold prop.
  destruct (Hr k) as [->|(Hl & ls & ls' & E & _)]; [done|].
  destruct Hk as [Hk|Hk]; [congruence|]. exfalso. apply (Hk ls). unfold prop. by rewrite E.
Qed.

Lemma pstep_refl s : pstep s s.
Proof. split; [done|]. intros l x Hx. exists x. split; [done|apply related_refl]. Qed.

Lemma pstep_trans s t u : pstep s t -> pstep t u -> pstep s u.
Proof.
  intros [H1 H2] [H3 H4]. split; [lia|]. intros l x Hx.
  destruct (H2 l x Hx) as (y & Hy & Hxy). destruct (H4 l y Hy) as (z & Hz & Hyz).
  exists z. split; [done|]. by eapply related_trans.
Qed.

Lemma extends_pstep s t : extends s t -> pstep s t.
Proof.
  intros (_ & Hn & Hold). split; [done|]. intros l x Hx.
  exists x. split; [auto|apply related_refl].
Qed.

Lemma pstep_plain s t l x :
  pstep s t -> heap s !! l = Some x -> plain x -> heap t !! l = Some x.
Proof.
  intros [_ H] Hx Hp. destruct (H l x Hx) as (x' & Hx' & Hr).
  by rewrite (related_plain _ _ Hr Hp) in Hx'.
Qed.

(** The slots that the preamble and the assembly leave as they are. *)
Definition offLists (q : path) (v : val) : Prop :=
  listKey (key q) = false \/ (index q = None /\ forall ls, v <> VArr ls).

Lemma pstep_pframe s t : pstep s t -> pframe offLists s t.
Proof.
  intros [Hn H]. split; [done|]. intros q Hq Hc.
  destruct (lookup_lt_is_Some_2 (heap s) (parent q) Hq) as [x Hx].
  destruct (H _ _ Hx) as (x' & Hx' & Hr).
  unfold slotVal in *. rewrite Hx in *. rewrite Hx'.
  rewrite (related_prop x x' (key q) Hr); [done|].
  destruct Hc as [Hc|[Hi Hc]]; [by left|]. right. by rewrite Hi in Hc.
Qed.

Definition psteps {A} (m : M A) : Prop := forall s a t, m s = Ok a t -> pstep s t.

Lemma psteps_bind {A B} (m : M A) (k : A -> M B) :
  psteps m -> (forall a, psteps (k a)) -> psteps (bind m k).
Proof.
  intros Hm Hk s b t H. apply bind_Ok in H as (a & s' & H1 & H2).
  eapply pstep_trans; [by eapply Hm | by eapply Hk].
Qed.

Lemma psteps_bind_post {A B} (P : A -> Prop) (m : M A) (k : A -> M B) :
  (forall s a t, m s = Ok a t -> P a) ->
  psteps m -> (forall a, P a -> psteps (k a)) -> psteps (bind m k).
Proof.
  intros HP Hm Hk s b t H. apply bind_Ok in H as (a & s' & H1 & H2).
  eapply pstep_trans; [by eapply Hm | eapply Hk; eauto].
Qed.

Lemma psteps_reads {A} (m : M A) : reads m -> psteps m.
Proof. intros Hm s a t H. rewrite (Hm _ _ _ H). apply pstep_refl. Qed.

Lemma psteps_alloc o : psteps (alloc o).
Proof.
  intros s a t H. apply alloc_Ok in H as [_ ->]. apply extends_pstep. extends_solve.
Qed.

Lemma psteps_generateUid sc name : psteps (generateUid sc name).
Proof.
  intros s a t. unfold generateUid. destruct (scope_generateUid _ _ _).
  intros [= _ <-]. split; [done|]. intros l x Hx. exists x.
  split; [done|apply related_refl].
Qed.

Lemma psteps_insertAfter p n : listKey (key p) = true -> psteps (insertAfter p n).
Proof.
  intros Hk s a t H. unfold insertAfter in H.
  apply bind_Ok in H as (o & s' & Ho & H). apply getObj_Ok in Ho as [-> Ho].
  destruct (index p) as [i|]; [|discriminate].
  destruct (prop o (key p)) as [| | | | |ls] eqn:Hls; try discriminate.
  apply setField_Ok in H as (o' & Ho' & ->). assert (o' = o) as -> by congruence.
  split; [len_solve|]. intros l x Hx. cbn [heap].
  destruct (decide (l = parent p)) as [->|Hne].
  - assert (x = o) as -> by congruence.
    eexists. split; [apply list_lookup_insert_eq; by eapply lookup_lt_Some|].
    intros k. destruct (decide (k = key p)) as [->|Hkk].
    + right. split; [done|]. exists ls. eexists. rewrite lookup_insert_eq.
      split; [|done]. unfold prop in Hls.
      destruct (o !! key p) as [v|]; simpl in Hls; [by rewrite Hls | discriminate].
    + left. by rewrite lookup_insert_ne.
  - exists x. split; [by rewrite list_lookup_insert_ne|apply related_refl].
Qed.

Lemma pathGetList_keys p k s ps t :
  pathGetList p k s = Ok ps t -> Forall (fun q => key q = k) ps.
Proof.
  unfold pathGetList. intros H. inv_run.
  apply Forall_forall. intros q Hq.
  apply elem_of_lookup_imap in Hq as (i & y & -> & _). done.
Qed.

Ltac psteps_tac :=
  repeat first
    [ progress intros
    | apply psteps_reads; solve [eauto with reads]
    | apply psteps_alloc
    | apply psteps_generateUid
    | apply psteps_bind
    | match goal with
      | |- psteps (match ?x with _ => _ end) => destruct x
      | |- psteps (if ?b then _ else _) => destruct b
      end ].

Lemma reads_cloneNode_alloc n : psteps (cloneNode n).
Proof. unfold cloneNode. psteps_tac. Qed.

Lemma psteps_getReactImport name ref : psteps (getReactImport name ref).
Proof.
  unfold getReactImport, identifier, memberExpression, importSpecifier.
  destruct ref as [g|[|] sp]; [psteps_tac..|].
  destruct (parentPath sp) as [decl|]; [|psteps_tac].
  apply psteps_bind; [psteps_tac|]. intros specs.
  apply psteps_bind; [psteps_tac|]. intros [local|]; [apply reads_cloneNode_alloc|].
  apply psteps_bind; [psteps_tac|]. intros bound.
  apply psteps_bind; [psteps_tac|]. intros newName.
  apply psteps_bind; [psteps_tac|]. intros local.
  apply (psteps_bind_post (Forall (fun q => key q = "specifiers")));
    [intros s a t; apply pathGetList_keys | psteps_tac |].
  intros specs' Hkeys.
  destruct (last specs') as [lastSpec|] eqn:Hlast; [|psteps_tac].
  apply psteps_bind; [psteps_tac|]. intros imported.
  apply psteps_bind; [psteps_tac|]. intros spec.
  apply psteps_bind; [|psteps_tac].
  apply psteps_insertAfter.
  apply last_Some in Hlast as [l' ->].
  apply Forall_app in Hkeys as [_ Hk]. inversion Hk as [|? ? Hkey _]; subst.
  by rewrite Hkey.
Qed.

Lemma listKey_true k : listKey k = true -> k = "body" \/ k = "specifiers".
Proof.
  unfold listKey. intros H%bool_decide_eq_true.
  apply elem_of_cons in H as [->|H]; [by left|].
  apply elem_of_cons in H as [->|H]; [by right|]. by apply elem_of_nil in H.
Qed.

Ltac plain_solve :=
  let k := fresh "k" in let ls := fresh "ls" in let Hk := fresh "Hk" in
  intros k ls Hk; apply listKey_true in Hk as [->| ->];
  unfold identifierObj, callObj, memberObj, mkObj; simpl;
  repeat (rewrite lookup_insert_ne by done); try rewrite lookup_empty; done.

Lemma plain_identifierObj name : plain (identifierObj name).
Proof. plain_solve. Qed.

Lemma plain_callObj c args : plain (callObj c args).
Proof. plain_solve. Qed.

Lemma plain_memberObj a b : plain (memberObj a b).
Proof. plain_solve. Qed.

Lemma field_Some h l k v : field h l k = v -> v <> VUndef -> l < length h.
Proof.
  unfold field. destruct (h !! l) eqn:E; [intros _ _; by eapply lookup_lt_Some|].
  by intros <-.
Qed.

Lemma pstep_field s t l k v :
  pstep s t -> listKey k = false -> field (heap s) l k = v -> v <> VUndef ->
  field (heap t) l k = v.
Proof.
  intros Hp Hk Hf Hv. rewrite <- Hf.
  apply (pframe_field offLists); [by apply pstep_pframe| |by left].
  by eapply field_Some.
Qed.

Lemma pstep_slot s t q n :
  pstep s t -> (listKey (key q) = false \/ index q = None) ->
  slotVal (heap s) q = VRef n -> slotVal (heap t) q = VRef n.
Proof.
  intros Hp Hk Hq. rewrite <- Hq.
  destruct (pstep_pframe _ _ Hp) as [_ H]. apply H.
  - apply slotVal_ref_ok in Hq as (o & Ho & _). by eapply lookup_lt_Some.
  - destruct Hk as [Hk|Hk]; [by left|]. right. split; [done|]. by rewrite Hq.
Qed.

Lemma reads_mapM {A B} (f : A -> M B) xs : (forall x, reads (f x)) -> reads (mapM f xs).
Proof. intros Hf. induction xs as [|x xs IH]; simpl; reads_tac. Qed.

(** The reference to [name] that [getReactImport] returns when the framework
    is a global or a namespace: [<framework>.<name>]. *)
Definition reactRef (name : string) (ref : LibRef) (h : store) (r : loc) : Prop :=
  match ref with
  | GlobalRef g =>
      exists o p, h !! r = Some (memberObj o p) /\
        h !! o = Some (identifierObj g) /\ h !! p = Some (identifierObj name)
  | ImportRef ns _ =>
      exists o p nm, h !! r = Some (memberObj o p) /\
        h !! o = Some (identifierObj nm) /\ h !! p = Some (identifierObj name)
  | ImportRef named _ => True
  end.

Lemma getReactImport_post name ref s r t :
  getReactImport name ref s = Ok r t ->
  pstep s t /\ reactRef name ref (heap t) r.
Proof.
  intros H. split; [by eapply psteps_getReactImport|].
  unfold getReactImport, identifier, memberExpression in H.
  destruct ref as [g|[|] sp]; simpl; [| |done].
  - inv_run. eexists _, _. split; [|split]; lookup_solve.
  - inv_run. eexists _, _, _. split; [|split]; lookup_solve.
Qed.

Lemma reactRef_pstep name ref s t r :
  pstep s t -> reactRef name ref (heap s) r -> reactRef name ref (heap t) r.
Proof.
  intros Hp. destruct ref as [g|[|] sp]; simpl; [| |done].
  - intros (o & p & H1 & H2 & H3). exists o, p.
    split; [|split]; (eapply pstep_plain; [done..|plain_solve]).
  - intros (o & p & nm & H1 & H2 & H3). exists o, p, nm.
    split; [|split]; (eapply pstep_plain; [done..|plain_solve]).
Qed.

(** *** State declarations (lines 211-239) *)

(** [d] is [const [<local>, <setter>] = <useState>(<init>)]. *)
Definition stateDeclDone (ref : LibRef) (h : store) (sf : StateField) (d : loc) : Prop :=
  exists dr pat a b call callee args,
    h !! d = Some (mkObj "VariableDeclaration"
                     [("kind", VStr "const"); ("declarations", VArr [dr])]) /\
    h !! dr = Some (mkObj "VariableDeclarator" [("id", VRef pat); ("init", VRef call)]) /\
    h !! pat = Some (mkObj "ArrayPattern" [("elements", VArr [a; b])]) /\
    h !! a = Some (identifierObj (localName sf)) /\
    h !! b = Some (identifierObj (localSetterName sf)) /\
    field h call "type" = VStr "CallExpression" /\
    field h call "callee" = VRef callee /\
    field h call "arguments" = VArr args /\
    reactRef "useState" ref h callee /\
    match init sf with
    | None => args = []
    | Some valuePath =>
        exists n, args = [n] /\
          (listKey (key valuePath) = false -> slotVal h valuePath = VRef n)
    end.

Lemma stateDeclDone_pstep ref s t sf d :
  pstep s t -> stateDeclDone ref (heap s) sf d -> stateDeclDone ref (heap t) sf d.
Proof.
  intros Hp (dr & pat & a & b & call & callee & args &
             H1 & H2 & H3 & H4 & H5 & H6 & H7 & H8 & H9 & H10).
  exists dr, pat, a, b, call, callee, args.
  repeat (split; [first [ by (eapply pstep_plain; [done..|plain_solve])
                        | by (eapply pstep_field; [done..])
                        | by eapply reactRef_pstep ]|]).
  destruct (init sf) as [vp|]; [|done].
  destruct H10 as (n & -> & Hn). exists n. split; [done|].
  intros Hk. eapply pstep_slot; eauto.
Qed.


(** *** Runs of node builders, state by state

    The preamble allocates many nodes in a row: the facts about each step are
    kept per state, and looked up along the chain of states. *)

Definition keeps (l : loc) (s t : state) : Prop :=
  scopes t = scopes s /\ next t = next s /\
  forall l' (x : obj), l' <> l -> heap s !! l' = Some x -> heap t !! l' = Some x.

Lemma alloc_fwd o s n t :
  alloc o s = Ok n t ->
  n = next s /\ extends s t /\ heap t !! next s = Some o /\ next t = S (next s).
Proof.
  intros H. apply alloc_Ok in H as [-> ->]. split; [done|].
  split; [extends_solve|]. split; [lookup_solve|len_solve].
Qed.

Lemma setField_fwd l k v s u t :
  setField l k v s = Ok u t ->
  exists o, heap s !! l = Some o /\ heap t !! l = Some (<[k := v]> o) /\ keeps l s t.
Proof.
  intros H. apply setField_Ok in H as (o & Ho & ->). exists o.
  pose proof (lookup_lt_Some _ _ _ Ho).
  split; [done|]. split; [lookup_solve|].
  split; [done|]. split; [len_solve|]. intros l' x Hne Hx. lookup_solve.
Qed.

Lemma extends_lookup s t l (x : obj) :
  extends s t -> heap s !! l = Some x -> heap t !! l = Some x.
Proof. intros (_ & _ & H). apply H. Qed.

Lemma keeps_lookup l s t l' (x : obj) :
  keeps l s t -> l' <> l -> heap s !! l' = Some x -> heap t !! l' = Some x.
Proof. intros (_ & _ & H). apply H. Qed.

Lemma extends_keeps s0 s t l :
  extends s0 s -> keeps l s t -> next s0 <= l -> extends s0 t.
Proof.
  intros (Hsc & Hn & Hold) (Hsc' & Hn' & Hkeep) Hl.
  split; [congruence|]. split; [lia|]. intros l' x Hx.
  apply Hkeep; [|by apply Hold]. apply lookup_lt_Some in Hx. unfold next in *. lia.
Qed.

Lemma field_lookup (h : store) l (x : obj) k : h !! l = Some x -> field h l k = prop x k.
Proof. unfold field. by intros ->. Qed.

Lemma extends_next s t : extends s t -> next s <= next t.
Proof. by intros (_ & H & _). Qed.

Lemma lookup_next s l (x : obj) : heap s !! l = Some x -> l < next s.
Proof. apply lookup_lt_Some. Qed.

Lemma pstep_next s t : pstep s t -> next s <= next t.
Proof. by intros [H _]. Qed.

Ltac unfold_builders H :=
  unfold identifier, nullLiteral, memberExpression, callExpression, variableDeclarator,
    variableDeclaration, objectPattern, objectProperty, assignmentPattern, arrayPattern,
    blockStatement, returnStatement, functionDeclaration, functionExpression,
    functionNode, arrowFunctionExpression, tsTypeAnnotation, tsUnionType, tsUndefinedKeyword,
    tsTypeReference, tsTypeParameterInstantiation, tsFunctionType,
    assignTypeParameters, assignTypeAnnotation, assignReturnType in H;
  cbv zeta in H.

Ltac chain_ext :=
  first
    [ apply extends_refl
    | match goal with
      | H : extends ?s ?t |- extends _ ?t =>
          apply (extends_trans _ s t); [chain_ext | exact H]
      | H : keeps ?l ?s ?t |- extends _ ?t =>
          apply (extends_keeps _ s t l); [chain_ext | exact H | lia]
      end ].

Ltac chain_lookup :=
  first
    [ eassumption
    | match goal with
      | H : extends ?s ?t |- heap ?t !! _ = Some _ =>
          apply (extends_lookup s t _ _ H); chain_lookup
      | H : keeps ?l ?s ?t |- heap ?t !! _ = Some _ =>
          apply (keeps_lookup l s t _ _ H); [lia | chain_lookup]
      end ].

Ltac fwd_step :=
  match goal with
  | H : bind _ _ _ = Ok _ _ |- _ => skip_check H
  | H : bind _ _ _ = Ok _ _ |- _ => apply bind_Ok in H as (? & ? & ? & H)
  | H : ret _ _ = Ok _ _ |- _ => apply ret_Ok in H as [? ?]; subst
  | H : throw _ _ = Ok _ _ |- _ => discriminate H
  | H : getObj _ _ = Ok _ _ |- _ => apply getObj_Ok in H as [? ?]; subst
  | H : getField _ _ _ = Ok _ _ |- _ => apply getField_Ok in H as [? (? & ? & ?)]; subst
  | H : asRef _ _ = Ok _ _ |- _ => apply asRef_Ok in H as [? ?]; subst
  | H : asArr _ _ = Ok _ _ |- _ => apply asArr_Ok in H as [? ?]; subst
  | H : asStr _ _ = Ok _ _ |- _ => apply asStr_Ok in H as [? ?]; subst
  | H : isType _ _ _ = Ok _ _ |- _ => apply isType_Ok in H as [? (? & ? & ?)]; subst
  | H : pathNode _ _ = Ok _ _ |- _ => apply pathNode_Ok in H as [? ?]; subst
  | H : mapM pathNode _ _ = Ok _ _ |- _ =>
      apply (reads_mapM pathNode _ reads_pathNode) in H; subst
  | H : assertNodeType _ _ _ _ _ = Ok _ _ |- _ =>
      apply assertNodeType_Ok in H as [? ?]; subst
  | H : assertValueType _ _ _ _ = Ok _ _ |- _ =>
      apply assertValueType_Ok in H as [? ?]; subst
  | H : optionally _ _ _ _ = Ok _ _ |- _ => apply optionally_Ok in H as [? ?]; subst
  | H : assertParams _ _ _ = Ok _ _ |- _ => apply assertParams_Ok in H as [? ?]; subst
  | H : alloc _ _ = Ok _ _ |- _ => apply alloc_fwd in H as (? & ? & ? & ?); subst
  | H : setField _ _ _ _ = Ok _ _ |- _ =>
      let Ho := fresh "Ho" in
      apply setField_fwd in H as (? & Ho & ? & ?);
      try (lazymatch type of Ho with
           | heap ?s !! ?l = Some _ =>
               let E := fresh in
               eassert (heap s !! l = Some _) as E by (clear Ho; chain_lookup);
               rewrite E in Ho; injection Ho as <-; clear E
           end)
  | H : (if ?b then _ else _) _ = Ok _ _ |- _ => destruct b eqn:?
  end.

Ltac fwd := repeat fwd_step.

(** Facts on the sizes of the states of a chain. *)
Ltac sizes :=
  repeat match goal with
  | H : extends ?s ?t |- _ =>
      lazymatch goal with
      | _ : next s <= next t |- _ => fail
      | _ => pose proof (extends_next s t H)
      end
  | H : pstep ?s ?t |- _ =>
      lazymatch goal with
      | _ : next s <= next t |- _ => fail
      | _ => pose proof (pstep_next s t H)
      end
  | H : keeps _ ?s ?t |- _ =>
      lazymatch goal with
      | _ : next t = next s |- _ => fail
      | _ => pose proof (proj1 (proj2 H))
      end
  | H : heap ?s !! ?l = Some _ |- _ =>
      lazymatch goal with
      | _ : l < next s |- _ => fail
      | _ => pose proof (lookup_next s l _ H)
      end
  end.

Ltac chain_field :=
  erewrite field_lookup by chain_lookup; prop_solve.

(** *** What the import resolver leaves alone

    [getReactImport] writes to the [specifiers] of the import declaration
    only. *)

Definition sframe (s t : state) : Prop :=
  next s <= next t /\
  forall l k, l < next s -> k <> "specifiers" ->
              field (heap t) l k = field (heap s) l k.

Definition sframes {A} (m : M A) : Prop := forall s a t, m s = Ok a t -> sframe s t.

Lemma sframe_refl s : sframe s s.
Proof. by split. Qed.

Lemma sframe_trans s t u : sframe s t -> sframe t u -> sframe s u.
Proof.
  intros [H1 H2] [H3 H4]. split; [lia|]. intros l k Hl Hk.
  rewrite H4; [by apply H2|lia|done].
Qed.

Lemma extends_sframe s t : extends s t -> sframe s t.
Proof.
  intros (_ & Hn & Hold). split; [done|]. intros l k Hl _.
  destruct (lookup_lt_is_Some_2 (heap s) l Hl) as [x Hx].
  by rewrite (field_lookup _ _ _ _ Hx), (field_lookup _ _ _ _ (Hold _ _ Hx)).
Qed.

Lemma sframes_bind {A B} (m : M A) (k : A -> M B) :
  sframes m -> (forall a, sframes (k a)) -> sframes (bind m k).
Proof.
  intros Hm Hk s b t H. apply bind_Ok in H as (a & s' & H1 & H2).
  eapply sframe_trans; [by eapply Hm | by eapply Hk].
Qed.

Lemma sframes_bind_post {A B} (P : A -> Prop) (m : M A) (k : A -> M B) :
  (forall s a t, m s = Ok a t -> P a) ->
  sframes m -> (forall a, P a -> sframes (k a)) -> sframes (bind m k).
Proof.
  intros HP Hm Hk s b t H. apply bind_Ok in H as (a & s' & H1 & H2).
  eapply sframe_trans; [by eapply Hm | eapply Hk; eauto].
Qed.

Lemma sframes_reads {A} (m : M A) : reads m -> sframes m.
Proof. intros Hm s a t H. rewrite (Hm _ _ _ H). apply sframe_refl. Qed.

Lemma sframes_alloc o : sframes (alloc o).
Proof.
  intros s a t H. apply alloc_fwd in H as (_ & H & _). by apply extends_sframe.
Qed.

Lemma sframes_generateUid sc name : sframes (generateUid sc name).
Proof.
  intros s a t. unfold generateUid. destruct (scope_generateUid _ _ _).
  intros [= _ <-]. by split.
Qed.

Lemma sframes_insertAfter p n : key p = "specifiers" -> sframes (insertAfter p n).
Proof.
  intros Hk s a t H. unfold insertAfter in H.
  apply bind_Ok in H as (o & s' & Ho & H). apply getObj_Ok in Ho as [-> Ho].
  destruct (index p) as [i|]; [|discriminate].
  destruct (prop o (key p)) as [| | | | |ls] eqn:Hls; try discriminate.
  apply setField_fwd in H as (o' & Ho' & Hnew & Hkeep).
  assert (o' = o) as -> by congruence.
  split; [destruct Hkeep as (_ & -> & _); done|]. intros l k Hl Hne.
  destruct (decide (l = parent p)) as [->|Hlp].
  - rewrite (field_lookup _ _ _ _ Hnew), (field_lookup _ _ _ _ Ho).
    unfold prop. rewrite lookup_insert_ne; [done|congruence].
  - destruct (lookup_lt_is_Some_2 (heap s) l Hl) as [x Hx].
    by rewrite (field_lookup _ _ _ _ Hx),
      (field_lookup _ _ _ _ (keeps_lookup _ _ _ _ _ Hkeep Hlp Hx)).
Qed.

Ltac sframes_tac :=
  repeat first
    [ progress intros
    | apply sframes_reads; solve [eauto with reads]
    | apply sframes_alloc
    | apply sframes_generateUid
    | apply sframes_bind
    | match goal with
      | |- sframes (match ?x with _ => _ end) => destruct x
      | |- sframes (if ?b then _ else _) => destruct b
      end ].

Lemma sframes_cloneNode n : sframes (cloneNode n).
Proof. unfold cloneNode. sframes_tac. Qed.

Lemma sframes_getReactImport name ref : sframes (getReactImport name ref).
Proof.
  unfold getReactImport, identifier, memberExpression, importSpecifier.
  destruct ref as [g|[|] sp]; [sframes_tac..|].
  destruct (parentPath sp) as [decl|]; [|sframes_tac].
  apply sframes_bind; [sframes_tac|]. intros specs.
  apply sframes_bind; [sframes_tac|]. intros [local|]; [apply sframes_cloneNode|].
  apply sframes_bind; [sframes_tac|]. intros bound.
  apply sframes_bind; [sframes_tac|]. intros newName.
  apply sframes_bind; [sframes_tac|]. intros local.
  apply (sframes_bind_post (Forall (fun q => key q = "specifiers")));
    [intros s a t; apply pathGetList_keys | sframes_tac |].
  intros specs' Hkeys.
  destruct (last specs') as [lastSpec|] eqn:Hlast; [|sframes_tac].
  apply sframes_bind; [sframes_tac|]. intros imported.
  apply sframes_bind; [sframes_tac|]. intros spec.
  apply sframes_bind; [|sframes_tac].
  apply sframes_insertAfter.
  apply last_Some in Hlast as [l' ->].
  apply Forall_app in Hkeys as [_ Hk]. by inversion Hk.
Qed.

Lemma sframes_toTSEntity_rec fuel : forall e, sframes (toTSEntity_rec fuel e).
Proof.
  induction fuel as [|fuel IH]; intros e; simpl; unfold tsQualifiedName, typeOf.
  - sframes_tac.
  - sframes_tac; first [apply IH | apply sframes_cloneNode].
Qed.

(** A step of the preamble: what it does to the old objects. *)
Definition qstep (s t : state) : Prop := pstep s t /\ sframe s t.

Lemma qstep_refl s : qstep s s.
Proof. split; [apply pstep_refl|apply sframe_refl]. Qed.

Lemma qstep_trans s t u : qstep s t -> qstep t u -> qstep s u.
Proof.
  intros [H1 H2] [H3 H4]. split; [by eapply pstep_trans|by eapply sframe_trans].
Qed.

Lemma extends_qstep s t : extends s t -> qstep s t.
Proof. split; [by apply extends_pstep|by apply extends_sframe]. Qed.

Lemma getReactImport_qstep name ref s r t :
  getReactImport name ref s = Ok r t -> qstep s t.
Proof.
  split; [by eapply psteps_getReactImport|by eapply sframes_getReactImport].
Qed.

Lemma stateDeclaration_post head ts sf s d t :
  stateDeclaration head ts sf s = Ok d t ->
  qstep s t /\ stateDeclDone (superClassRef head) (heap t) sf d.
Proof.
  intros H. unfold stateDeclaration in H.
  apply bind_Ok in H as (callee & s1 & Hc & H).
  pose proof (getReactImport_qstep _ _ _ _ _ Hc) as Hq1.
  apply getReactImport_post in Hc as [Hp1 Href].
  apply bind_Ok in H as (args & s2 & Hargs & H).
  assert (s2 = s1 /\ match init sf with
                     | None => args = []
                     | Some vp => exists n, args = [n] /\ slotVal (heap s1) vp = VRef n
                     end) as [-> Hargs'].
  { destruct (init sf) as [vp|]; inv_run; eauto. }
  clear Hargs.
  cut (extends s1 t /\
       exists dr pat a b call,
         heap t !! d = Some (mkObj "VariableDeclaration"
                               [("kind", VStr "const"); ("declarations", VArr [dr])]) /\
         heap t !! dr = Some (mkObj "VariableDeclarator"
                                [("id", VRef pat); ("init", VRef call)]) /\
         heap t !! pat = Some (mkObj "ArrayPattern" [("elements", VArr [a; b])]) /\
         heap t !! a = Some (identifierObj (localName sf)) /\
         heap t !! b = Some (identifierObj (localSetterName sf)) /\
         field (heap t) call "type" = VStr "CallExpression" /\
         field (heap t) call "callee" = VRef callee /\
         field (heap t) call "arguments" = VArr args).
  { intros (Hext & dr & pat & a & b & call & H1 & H2 & H3 & H4 & H5 & H6 & H7 & H8).
    pose proof (extends_pstep _ _ Hext) as Hp2.
    split; [eapply qstep_trans; [done|by apply extends_qstep]|].
    exists dr, pat, a, b, call, callee, args. repeat (split; [done|]).
    split; [by eapply reactRef_pstep|].
    destruct (init sf) as [vp|]; [|done].
    destruct Hargs' as (n & -> & Hn). exists n. split; [done|].
    intros _. by eapply extends_slotVal. }
  clear Hargs' Hp1 Href. unfold_builders H.
  destruct ts; [destruct (typeAnnotation sf) as [[params rt|ap]|]|]; fwd.
  - sizes. split; [chain_ext|]. eexists _, _, _, _, _.
    repeat (split; [first [chain_lookup | chain_field]|]). chain_field.
  - sizes. split; [chain_ext|]. eexists _, _, _, _, _.
    repeat (split; [first [chain_lookup | chain_field]|]). chain_field.
  - sizes. split; [chain_ext|]. eexists _, _, _, _, _.
    repeat (split; [first [chain_lookup | chain_field]|]). chain_field.
  - sizes. split; [chain_ext|]. eexists _, _, _, _, _.
    repeat (split; [first [chain_lookup | chain_field]|]). chain_field.
Qed.

(** A loop of builders: each step keeps what the earlier steps have made. *)
Lemma mapM_post {A B} (f : A -> M B) (P : store -> A -> B -> Prop) xs :
  (forall x s b t, x ∈ xs -> f x s = Ok b t -> qstep s t /\ P (heap t) x b) ->
  (forall s t x b, pstep s t -> P (heap s) x b -> P (heap t) x b) ->
  forall s bs t, mapM f xs s = Ok bs t -> qstep s t /\ Forall2 (P (heap t)) xs bs.
Proof.
  intros Hf HP. induction xs as [|x xs IH]; intros s bs t H; simpl in H.
  - apply ret_Ok in H as [-> ->]. split; [apply qstep_refl|constructor].
  - apply bind_Ok in H as (b & s1 & Hb & H). apply bind_Ok in H as (bs' & s2 & Hbs & H).
    apply ret_Ok in H as [-> ->].
    apply Hf in Hb as [Hp1 Hb]; [|by left].
    apply IH in Hbs as [Hp2 Hbs]; [|intros; apply Hf; [by right|done]].
    split; [by eapply qstep_trans|]. constructor; [|done].
    eapply HP; [apply Hp2|done].
Qed.

Lemma statePreamble_post head ts body s ds t :
  statePreamble head ts body s = Ok ds t ->
  qstep s t /\
  Forall2 (fun kf d => stateDeclDone (superClassRef head) (heap t) kf.2 d)
          (body_state body) ds.
Proof.
  unfold statePreamble.
  apply (mapM_post _ (fun h (kf : string * StateField) d =>
                        stateDeclDone (superClassRef head) h kf.2 d)).
  - intros [k sf] s' b t' _. apply stateDeclaration_post.
  - intros s' t' [k sf] d. apply stateDeclDone_pstep.
Qed.

(** *** Field declarations (lines 240-311) *)

(** [d] is [const <local> = <useRef>(<arg>)]. *)
Definition refDeclDone (ref : LibRef) (h : store) (f : UserField) (d arg : loc) : Prop :=
  exists dr id call callee,
    h !! d = Some (mkObj "VariableDeclaration"
                     [("kind", VStr "const"); ("declarations", VArr [dr])]) /\
    h !! dr = Some (mkObj "VariableDeclarator" [("id", VRef id); ("init", VRef call)]) /\
    h !! id = Some (identifierObj (field_localName f)) /\
    field h call "type" = VStr "CallExpression" /\
    field h call "callee" = VRef callee /\
    field h call "arguments" = VArr [arg] /\
    reactRef "useRef" ref h callee.

(** [d] declares the function [name]: [function <name>(...) {...}] or
    [const <name> = <function>]. *)
Definition functionDeclDone (h : store) (name : string) (d : loc) : Prop :=
  exists id,
    field h id "type" = VStr "Identifier" /\ field h id "name" = VStr name /\
    ((field h d "type" = VStr "FunctionDeclaration" /\ field h d "id" = VRef id) \/
     (exists dr e,
        h !! d = Some (mkObj "VariableDeclaration"
                         [("kind", VStr "const"); ("declarations", VArr [dr])]) /\
        h !! dr = Some (mkObj "VariableDeclarator" [("id", VRef id); ("init", VRef e)]) /\
        (field h e "type" = VStr "FunctionExpression" \/
         field h e "type" = VStr "ArrowFunctionExpression"))).

Definition fieldDeclDone (ref : LibRef) (h : store) (f : UserField) (d : loc) : Prop :=
  match field_type f with
  | user_defined_function _ => functionDeclDone h (field_localName f) d
  | user_defined_ref =>
      exists arg, refDeclDone ref h f d arg /\ h !! arg = Some (mkObj "NullLiteral" [])
  | user_defined_direct_ref ref_init =>
      exists arg, refDeclDone ref h f d arg /\
        (listKey (key ref_init) = false -> slotVal h ref_init = VRef arg)
  end.

Lemma plain_mkObj ty fields :
  Forall (fun kv => listKey kv.1 = false) fields -> plain (mkObj ty fields).
Proof.
  intros Hf k ls Hk. unfold mkObj.
  rewrite lookup_insert_ne; [|intros <-; by vm_compute in Hk].
  intros Hin. apply elem_of_list_to_map_2 in Hin.
  rewrite Forall_forall in Hf. apply Hf in Hin. simpl in Hin. congruence.
Qed.

Ltac plain_obj := apply plain_mkObj; repeat constructor.

Lemma refDeclDone_pstep ref s t f d arg :
  pstep s t -> refDeclDone ref (heap s) f d arg -> refDeclDone ref (heap t) f d arg.
Proof.
  intros Hp (dr & id & call & callee & H1 & H2 & H3 & H4 & H5 & H6 & H7).
  exists dr, id, call, callee.
  split; [eapply pstep_plain; [done..|plain_obj]|].
  split; [eapply pstep_plain; [done..|plain_obj]|].
  split; [eapply pstep_plain; [done..|plain_obj]|].
  split; [by eapply pstep_field|]. split; [by eapply pstep_field|].
  split; [by eapply pstep_field|]. by eapply reactRef_pstep.
Qed.

Lemma functionDeclDone_pstep s t name d :
  pstep s t -> functionDeclDone (heap s) name d -> functionDeclDone (heap t) name d.
Proof.
  intros Hp (id & H1 & H2 & H). exists id.
  split; [by eapply pstep_field|]. split; [by eapply pstep_field|].
  destruct H as [[H3 H4]|(dr & e & H3 & H4 & H5)].
  - left. split; by eapply pstep_field.
  - right. exists dr, e.
    split; [eapply pstep_plain; [done..|plain_obj]|].
    split; [eapply pstep_plain; [done..|plain_obj]|].
    destruct H5; [left|right]; by eapply pstep_field.
Qed.

Lemma fieldDeclDone_pstep ref s t f d :
  pstep s t -> fieldDeclDone ref (heap s) f d -> fieldDeclDone ref (heap t) f d.
Proof.
  intros Hp. unfold fieldDeclDone. destruct (field_type f) as [fi| |ri].
  - by apply functionDeclDone_pstep.
  - intros (arg & H1 & H2). exists arg. split; [by eapply refDeclDone_pstep|].
    eapply pstep_plain; [done..|plain_obj].
  - intros (arg & H1 & H2). exists arg. split; [by eapply refDeclDone_pstep|].
    intros Hk. eapply pstep_slot; [done|by left|auto].
Qed.

Lemma refDeclaration_post head ts f seed s d t :
  refDeclaration head ts f seed s = Ok d t ->
  exists s1 arg s2,
    qstep s s1 /\ seed s1 = Ok arg s2 /\ extends s2 t /\
    (pstep s1 s2 -> refDeclDone (superClassRef head) (heap t) f d arg).
Proof.
  intros H. unfold refDeclaration in H.
  apply bind_Ok in H as (callee & s1 & Hc & H).
  pose proof (getReactImport_qstep _ _ _ _ _ Hc) as Hq1.
  apply getReactImport_post in Hc as [Hp1 Href].
  apply bind_Ok in H as (arg & s2 & Hseed & H).
  exists s1, arg, s2. split; [done|]. split; [done|].
  cut (extends s2 t /\
       exists dr id call,
         heap t !! d = Some (mkObj "VariableDeclaration"
                               [("kind", VStr "const"); ("declarations", VArr [dr])]) /\
         heap t !! dr = Some (mkObj "VariableDeclarator"
                                [("id", VRef id); ("init", VRef call)]) /\
         heap t !! id = Some (identifierObj (field_localName f)) /\
         field (heap t) call "type" = VStr "CallExpression" /\
         field (heap t) call "callee" = VRef callee /\
         field (heap t) call "arguments" = VArr [arg]).
  { intros (Hext & dr & id & call & H1 & H2 & H3 & H4 & H5 & H6).
    split; [done|]. intros Hp2. exists dr, id, call, callee.
    repeat (split; [done|]).
    eapply reactRef_pstep; [|done].
    eapply pstep_trans; [done|by apply extends_pstep]. }
  clear Hseed Hp1 Href. unfold_builders H.
  destruct ts; [destruct (field_typeAnnotation f) as [ta|]|]; fwd; sizes;
    (split; [chain_ext|]); eexists _, _, _;
    repeat (split; [first [chain_lookup | chain_field]|]); chain_field.
Qed.



Lemma functionDeclarationFrom_post node id s f t :
  functionDeclarationFrom node (VRef id) s = Ok f t ->
  extends s t /\ field (heap t) f "type" = VStr "FunctionDeclaration" /\
  field (heap t) f "id" = VRef id.
Proof.
  intros H. unfold functionDeclarationFrom, blockBody in H. simpl nullish in H.
  cbv iota in H. unfold_builders H. fwd; sizes.
  - split; [chain_ext|]. split; chain_field.
  - split; [chain_ext|]. split; chain_field.
Qed.

Lemma functionExpressionFrom_post node name s f t :
  functionExpressionFrom node name s = Ok f t ->
  extends s t /\
  exists fo, heap t !! f = Some fo /\ prop fo "type" = VStr "FunctionExpression".
Proof.
  intros H. unfold functionExpressionFrom, blockBody, functionName, typeOf in H.
  unfold_builders H. fwd; sizes;
    (split; [chain_ext|]; eexists; split; [chain_lookup|prop_solve]).
Qed.

Lemma arrowFunctionExpressionFrom_post node s f t :
  arrowFunctionExpressionFrom node s = Ok f t ->
  extends s t /\
  exists fo, heap t !! f = Some fo /\ prop fo "type" = VStr "ArrowFunctionExpression".
Proof.
  intros H. unfold arrowFunctionExpressionFrom in H.
  unfold_builders H. fwd; sizes;
    (split; [chain_ext|]; eexists; split; [chain_lookup|prop_solve]).
Qed.

Ltac fn_posts :=
  repeat match goal with
  | H : functionDeclarationFrom _ _ _ = Ok _ _ |- _ =>
      apply functionDeclarationFrom_post in H as (? & ? & ?)
  | H : functionExpressionFrom _ _ _ = Ok _ _ |- _ =>
      apply functionExpressionFrom_post in H as (? & ? & ? & ?)
  | H : arrowFunctionExpressionFrom _ _ = Ok _ _ |- _ =>
      apply arrowFunctionExpressionFrom_post in H as (? & ? & ? & ?)
  end.

Ltac fn_done :=
  eexists; (split; [|split]);
  [ | | first [ by left
              | right; eexists _, _; split; [chain_lookup|]; split; [chain_lookup|];
                erewrite field_lookup by chain_lookup; first [by left | by right] ] ];
  chain_field.

Lemma fieldDeclaration_post head ts f s d t :
  fieldDeclaration head ts f s = Ok d t ->
  qstep s t /\ fieldDeclDone (superClassRef head) (heap t) f d.
Proof.
  intros H. unfold fieldDeclaration, fieldDeclDone in *.
  destruct (field_type f) as [[p|p]| |ri].
  - unfold_builders H. fwd. fn_posts.
    sizes. split; [apply extends_qstep; chain_ext|].
    eexists. split; [chain_field|]. split; [chain_field|]. by left.
  - unfold_builders H. destruct (field_typeAnnotation f) as [ta|]; fwd; fn_posts; sizes;
      (split; [apply extends_qstep; chain_ext|]); fn_done.
  - apply refDeclaration_post in H as (s1 & arg & s2 & Hp1 & Hseed & Hext & Hdone).
    unfold_builders Hseed. fwd.
    assert (qstep s1 s2) as Hp2 by by apply extends_qstep.
    split; [eapply qstep_trans; [done|]; eapply qstep_trans; [done|by apply extends_qstep]|].
    eexists. split; [apply Hdone, Hp2|]. chain_lookup.
  - apply refDeclaration_post in H as (s1 & arg & s2 & Hp1 & Hseed & Hext & Hdone).
    fwd. split; [eapply qstep_trans; [done|by apply extends_qstep]|].
    eexists. split; [apply Hdone, pstep_refl|]. intros _. by eapply extends_slotVal.
Qed.

Lemma fieldsPreamble_post head ts body s ds t :
  fieldsPreamble head ts body s = Ok ds t ->
  qstep s t /\
  Forall2 (fun kf d => fieldDeclDone (superClassRef head) (heap t) kf.2 d)
          (fields body) ds.
Proof.
  unfold fieldsPreamble.
  apply (mapM_post _ (fun h (kf : string * UserField) d =>
                        fieldDeclDone (superClassRef head) h kf.2 d)).
  - intros [k f] s' b t' _. apply fieldDeclaration_post.
  - intros s' t' [k f] d. apply fieldDeclDone_pstep.
Qed.

(** *** The destructuring of [props] (lines 188-210) *)

(** [q] is the property [<name>: <alias>] or [<name>: <alias> = <default>] of
    the object pattern. *)
Definition propPatternDone (h : store) (np : string * PropBinding) (q : loc) : Prop :=
  exists k v,
    h !! q = Some (mkObj "ObjectProperty"
                     [("key", VRef k); ("value", VRef v); ("computed", VBool false);
                      ("shorthand", VBool (String.eqb np.1 (newAliasName np.2)));
                      ("decorators", VNull)]) /\
    h !! k = Some (identifierObj np.1) /\
    match defaultValue np.2 with
    | Some dv =>
        exists l d,
          h !! v = Some (mkObj "AssignmentPattern" [("left", VRef l); ("right", VRef d)]) /\
          h !! l = Some (identifierObj (newAliasName np.2)) /\
          (listKey (key dv) = false -> slotVal h dv = VRef d)
    | None => h !! v = Some (identifierObj (newAliasName np.2))
    end.

(** [d] is [const { ... } = props], one property per prop that needs an alias. *)
Definition propsDeclDone (h : store) (body : ComponentBody) (d : loc) : Prop :=
  exists dr pat pr qs,
    h !! d = Some (mkObj "VariableDeclaration"
                     [("kind", VStr "const"); ("declarations", VArr [dr])]) /\
    h !! dr = Some (mkObj "VariableDeclarator" [("id", VRef pat); ("init", VRef pr)]) /\
    h !! pr = Some (identifierObj "props") /\
    h !! pat = Some (mkObj "ObjectPattern" [("properties", VArr qs)]) /\
    Forall2 (propPatternDone h) (propsWithAlias body) qs.

Lemma propPatternDone_pstep s t np q :
  pstep s t -> propPatternDone (heap s) np q -> propPatternDone (heap t) np q.
Proof.
  intros Hp (k & v & H1 & H2 & H3). exists k, v.
  split; [eapply pstep_plain; [done..|plain_obj]|].
  split; [eapply pstep_plain; [done..|plain_obj]|].
  destruct (defaultValue np.2) as [dv|].
  - destruct H3 as (l & d & H3 & H4 & H5). exists l, d.
    split; [eapply pstep_plain; [done..|plain_obj]|].
    split; [eapply pstep_plain; [done..|plain_obj]|].
    intros Hk. eapply pstep_slot; [done|by left|auto].
  - eapply pstep_plain; [done..|plain_obj].
Qed.

Lemma propsDeclDone_pstep s t body d :
  pstep s t -> propsDeclDone (heap s) body d -> propsDeclDone (heap t) body d.
Proof.
  intros Hp (dr & pat & pr & qs & H1 & H2 & H3 & H4 & H5). exists dr, pat, pr, qs.
  split; [eapply pstep_plain; [done..|plain_obj]|].
  split; [eapply pstep_plain; [done..|plain_obj]|].
  split; [eapply pstep_plain; [done..|plain_obj]|].
  split; [eapply pstep_plain; [done..|plain_obj]|].
  eapply Forall2_impl; [done|]. intros np q. by apply propPatternDone_pstep.
Qed.

Lemma propPattern_post np s q t :
  propPattern np s = Ok q t -> qstep s t /\ propPatternDone (heap t) np q.
Proof.
  intros H. destruct np as [name pb]. unfold propPattern, propPatternDone in *.
  cbn [fst snd]. unfold_builders H.
  destruct (defaultValue pb) as [dv|]; fwd; sizes.
  - split; [apply extends_qstep; chain_ext|]. eexists _, _.
    split; [chain_lookup|]. split; [chain_lookup|]. eexists _, _.
    split; [chain_lookup|]. split; [chain_lookup|].
    intros _. eapply extends_slotVal; [|done]. chain_ext.
  - split; [apply extends_qstep; chain_ext|]. eexists _, _.
    split; [chain_lookup|]. split; chain_lookup.
Qed.

Lemma propsPreamble_post body s ds t :
  propsPreamble body s = Ok ds t ->
  qstep s t /\
  if Nat.ltb 0 (length (propsWithAlias body))
  then exists d, ds = [d] /\ propsDeclDone (heap t) body d
  else ds = [].
Proof.
  intros H. unfold propsPreamble in H.
  destruct (Nat.ltb 0 (length (propsWithAlias body))).
  - apply bind_Ok in H as (qs & s1 & Hqs & H).
    apply (mapM_post _ propPatternDone) in Hqs as [Hp1 Hqs]; cycle 1.
    { intros. by apply propPattern_post. }
    { intros. by eapply propPatternDone_pstep. }
    unfold_builders H. fwd. sizes.
    match goal with |- qstep _ ?u /\ _ => assert (extends s1 u) as Hext by chain_ext end.
    split; [eapply qstep_trans; [done|by apply extends_qstep]|].
    eexists. split; [done|]. eexists _, _, _, qs.
    split; [chain_lookup|]. split; [chain_lookup|].
    split; [chain_lookup|]. split; [chain_lookup|].
    eapply Forall2_impl; [done|]. intros np q.
    apply propPatternDone_pstep. by apply extends_pstep.
  - apply ret_Ok in H as [-> ->]. split; [apply qstep_refl|done].
Qed.

(** *** The preamble as a whole *)

Definition preambleDone (head : ComponentHead) (body : ComponentBody) (h : store)
    (p1 p2 p3 : list loc) : Prop :=
  (if Nat.ltb 0 (length (propsWithAlias body))
   then exists d, p1 = [d] /\ propsDeclDone h body d
   else p1 = []) /\
  Forall2 (fun kf d => stateDeclDone (superClassRef head) h kf.2 d) (body_state body) p2 /\
  Forall2 (fun kf d => fieldDeclDone (superClassRef head) h kf.2 d) (fields body) p3.

Lemma preambleDone_pstep head body s t p1 p2 p3 :
  pstep s t -> preambleDone head body (heap s) p1 p2 p3 ->
  preambleDone head body (heap t) p1 p2 p3.
Proof.
  intros Hp (H1 & H2 & H3). split; [|split].
  - destruct (Nat.ltb _ _); [|done]. destruct H1 as (d & -> & H1).
    exists d. split; [done|]. by eapply propsDeclDone_pstep.
  - eapply Forall2_impl; [done|]. intros kf d. by apply stateDeclDone_pstep.
  - eapply Forall2_impl; [done|]. intros kf d. by apply fieldDeclDone_pstep.
Qed.

Lemma buildPreamble_post head ts body s pre t :
  buildPreamble head ts body s = Ok pre t ->
  qstep s t /\
  exists p1 p2 p3, pre = p1 ++ p2 ++ p3 /\ preambleDone head body (heap t) p1 p2 p3.
Proof.
  intros H. unfold buildPreamble in H.
  apply bind_Ok in H as (p1 & s1 & H1 & H). apply bind_Ok in H as (p2 & s2 & H2 & H).
  apply bind_Ok in H as (p3 & s3 & H3 & H). apply ret_Ok in H as [-> ->].
  apply propsPreamble_post in H1 as [Hp1 H1].
  apply statePreamble_post in H2 as [Hp2 H2].
  apply fieldsPreamble_post in H3 as [Hp3 H3].
  split; [eapply qstep_trans; [done|]; by eapply qstep_trans|].
  exists p1, p2, p3. split; [done|]. split; [|split].
  - destruct (Nat.ltb _ _); [|done]. destruct H1 as (d & -> & H1).
    exists d. split; [done|]. eapply propsDeclDone_pstep; [|done].
    eapply pstep_trans; [apply Hp2|apply Hp3].
  - eapply Forall2_impl; [done|]. intros kf d. apply stateDeclDone_pstep, Hp3.
  - done.
Qed.

Lemma psteps_toTSEntity_rec fuel : forall e, psteps (toTSEntity_rec fuel e).
Proof.
  induction fuel as [|fuel IH]; intros e; simpl; unfold tsQualifiedName, typeOf.
  - psteps_tac.
  - psteps_tac; first [apply IH | apply reads_cloneNode_alloc].
Qed.

(** *** The assembly (lines 312-327) *)

Lemma keeps_pstep l k ls ls' (o : obj) s t :
  listKey k = true -> heap s !! l = Some o -> o !! k = Some (VArr ls) ->
  heap t !! l = Some (<[k := VArr ls']> o) -> keeps l s t -> pstep s t.
Proof.
  intros Hk Ho Hls Hnew Hkeep. split; [destruct Hkeep as (_ & -> & _); done|].
  intros l' x Hx. destruct (decide (l' = l)) as [->|Hne].
  - assert (x = o) as -> by congruence. eexists. split; [done|].
    intros k'. destruct (decide (k' = k)) as [->|Hkk].
    + right. split; [done|]. exists ls, ls'. by rewrite lookup_insert_eq.
    + left. by rewrite lookup_insert_ne.
  - exists x. split; [by eapply keeps_lookup|apply related_refl].
Qed.

Lemma prop_VArr_lookup (o : obj) k ls : prop o k = VArr ls -> o !! k = Some (VArr ls).
Proof. unfold prop. destruct (o !! k); simpl; [by intros ->|discriminate]. Qed.

(** The function that [assemble] returns: an arrow whose block is the body
    of [render] with the preamble in front, and whose parameter list is
    [props] or nothing. *)
Definition assembled (body : ComponentBody) (s t : state) (pre : list loc) (f : loc)
    : Prop :=
  exists r bodyNode ss params,
    slotVal (heap s) (render_path body) = VRef r /\
    field (heap s) r "body" = VRef bodyNode /\
    field (heap s) bodyNode "body" = VArr ss /\
    field (heap t) bodyNode "body" = VArr (pre ++ ss) /\
    next s <= f /\
    field (heap t) f "type" = VStr "ArrowFunctionExpression" /\
    field (heap t) f "params" = VArr params /\
    field (heap t) f "body" = VRef bodyNode /\
    if needsProps body
    then exists p, params = [p] /\ heap t !! p = Some (identifierObj "props")
    else params = [].

Lemma typeNode_steps head (ts : bool) :
  let m := (if ts then
              let! fc := getReactImport "FC" (superClassRef head) in
              let! entity := toTSEntity fc in
              let! tp := (match head_props head with
                          | Some p =>
                              let! n := pathNode p in
                              let! inst := tsTypeParameterInstantiation [n] in
                              ret (VRef inst)
                          | None => ret VNull
                          end) in
              let! r := tsTypeReference entity tp in
              ret (VRef r)
            else ret VUndef) in
  psteps m /\ sframes m.
Proof.
  assert (forall e, psteps (toTSEntity e)) as Hp.
  { intros e s a t. apply psteps_toTSEntity_rec. }
  assert (forall e, sframes (toTSEntity e)) as Hs.
  { intros e s a t. apply sframes_toTSEntity_rec. }
  unfold tsTypeReference, tsTypeParameterInstantiation. destruct ts; simpl; split.
  - psteps_tac; first [apply psteps_getReactImport | apply Hp].
  - sframes_tac; first [apply sframes_getReactImport | apply Hs].
  - psteps_tac.
  - sframes_tac.
Qed.

Lemma assemble_post head ts body pre s f ty t :
  assemble head ts body pre s = Ok (f, ty) t ->
  pstep s t /\ assembled body s t pre f.
Proof.
  intros H. unfold assemble in H.
  do 8 (apply bind_Ok in H as (? & ? & ? & H)).
  apply bind_Ok in H as (ty' & t' & Hty & H). apply ret_Ok in H as [[= <- <-] ->].
  destruct (typeNode_steps head ts) as [Hp Hs].
  apply Hp in Hty as Hp2. apply Hs in Hty as Hs2. clear Hty Hp Hs.
  unfold assembled, identifier, arrowFunctionExpression in *. fwd.
  - assert (pstep s x10) as Hp1.
    { eapply (keeps_pstep x3 "body"); [done|done|by apply prop_VArr_lookup|done|done]. }
    sizes.
    assert (extends x10 x14) as Hext by chain_ext.
    split; [eapply pstep_trans; [done|]; eapply pstep_trans; [by apply extends_pstep|done]|].
    destruct Hs2 as [_ Hs2].
    exists x, x3, x7, [next x10].
    split; [done|]. split; [by erewrite field_lookup by eassumption|].
    split; [by erewrite field_lookup by eassumption|].
    split; [rewrite Hs2; [chain_field|lia|done]|].
    split; [lia|].
    split; [rewrite Hs2; [chain_field|lia|done]|].
    split; [rewrite Hs2; [chain_field|lia|done]|].
    split; [rewrite Hs2; [chain_field|lia|done]|].
    eexists. split; [done|]. eapply pstep_plain; [done| |plain_obj]. chain_lookup.
  - assert (pstep s x10) as Hp1.
    { eapply (keeps_pstep x3 "body"); [done|done|by apply prop_VArr_lookup|done|done]. }
    sizes.
    assert (extends x10 x14) as Hext by chain_ext.
    split; [eapply pstep_trans; [done|]; eapply pstep_trans; [by apply extends_pstep|done]|].
    destruct Hs2 as [_ Hs2].
    exists x, x3, x7, [].
    split; [done|]. split; [by erewrite field_lookup by eassumption|].
    split; [by erewrite field_lookup by eassumption|].
    split; [rewrite Hs2; [chain_field|lia|done]|].
    split; [lia|].
    split; [rewrite Hs2; [chain_field|lia|done]|].
    split; [rewrite Hs2; [chain_field|lia|done]|].
    split; [rewrite Hs2; [chain_field|lia|done]|].
    done.
Qed.

(** *** The phases of [transformClass] *)

(** The renamings and removals of lines 88-105, which are done through Babel's
    scope tracker. *)
Definition prepare (body : ComponentBody) : M unit :=
  do! renameAliases body in
  do! removeLocals body in
  renameRenderLocals body.

Lemma transformClass_phases head body ts s r t :
  transformClass head body ts s = Ok r t <->
  exists s1 sC sD sE sF pre sP,
    prepare body s = Ok tt s1 /\
    rewritePropSites body s1 = Ok tt sC /\
    widenPropTypings body sC = Ok tt sD /\
    rewriteStateSites body sD = Ok tt sE /\
    rewriteFieldSites body sE = Ok tt sF /\
    buildPreamble head ts body sF = Ok pre sP /\
    assemble head ts body pre sP = Ok r t.
Proof.
  unfold transformClass, prepare. split.
  - intros H.
    apply bind_Ok in H as ([] & sa & Ha & H). apply bind_Ok in H as ([] & sb & Hb & H).
    apply bind_Ok in H as ([] & s1 & H1 & H). apply bind_Ok in H as ([] & sC & HC & H).
    apply bind_Ok in H as ([] & sD & HD & H). apply bind_Ok in H as ([] & sE & HE & H).
    apply bind_Ok in H as ([] & sF & HF & H). apply bind_Ok in H as (pre & sP & HP & H).
    exists s1, sC, sD, sE, sF, pre, sP. repeat (split; [done|]).
    split; [|done]. apply bind_Ok. exists tt, sa. split; [done|].
    apply bind_Ok. exists tt, sb. done.
  - intros (s1 & sC & sD & sE & sF & pre & sP & H1 & HC & HD & HE & HF & HP & H).
    apply bind_Ok in H1 as ([] & sa & Ha & H1). apply bind_Ok in H1 as ([] & sb & Hb & H1).
    apply bind_Ok. exists tt, sa. split; [done|].
    apply bind_Ok. exists tt, sb. split; [done|].
    apply bind_Ok. exists tt, s1. split; [done|].
    apply bind_Ok. exists tt, sC. split; [done|].
    apply bind_Ok. exists tt, sD. split; [done|].
    apply bind_Ok. exists tt, sE. split; [done|].
    apply bind_Ok. exists tt, sF. split; [done|].
    apply bind_Ok. exists pre, sP. done.
Qed.

(** A slot that is an element of no list that the preamble or the assembly
    write. *)
Definition offListb (p : path) : bool :=
  negb (listKey (key p)) || bool_decide (index p = None).

(** No slot of [ps] overlaps [q]. *)
Definition apart (ps : list path) (q : path) : bool :=
  forallb (fun p => negb (overlapb p q)) ps.

Lemma offListb_true p : offListb p = true -> listKey (key p) = false \/ index p = None.
Proof.
  unfold offListb. intros [H|H]%orb_true_iff.
  - left. by apply negb_true_iff.
  - right. by apply bool_decide_eq_true in H.
Qed.

Lemma apart_Forall ps q : apart ps q = true -> Forall (fun p => ~ overlap p q) ps.
Proof.
  unfold apart. rewrite forallb_forall. intros H. apply Forall_forall.
  intros p Hp. apply overlapb_false, H. by apply list_elem_of_In.
Qed.


Lemma separate_app ps qs :
  separate (ps ++ qs) = true ->
  separate ps = true /\ separate qs = true /\
  forall p, p ∈ ps -> Forall (fun q => ~ overlap q p) qs.
Proof.
  induction ps as [|p ps IH]; simpl.
  - intros H. split; [done|]. split; [done|]. intros p Hp. by apply elem_of_nil in Hp.
  - intros [H1 H2]%andb_true_iff. rewrite forallb_app in H1.
    apply andb_true_iff in H1 as [H1 H1']. destruct (IH H2) as (Hps & Hqs & Hx).
    split; [by rewrite H1, Hps|]. split; [done|].
    intros x [->|Hin]%elem_of_cons; [|by apply Hx].
    apply Forall_forall. intros q Hq. rewrite forallb_forall in H1'.
    intros Ho. apply overlap_sym in Ho. revert Ho. apply overlapb_false, H1'.
    by apply list_elem_of_In.
Qed.

Lemma forallb_elem {A} (f : A -> bool) xs x : forallb f xs = true -> x ∈ xs -> f x = true.
Proof. rewrite forallb_forall. intros H Hx. by apply H, list_elem_of_In. Qed.


Lemma rewrites_slot n0 ps s t q n :
  rewrites n0 ps s t -> slotVal (heap s) q = VRef n ->
  Forall (fun p => ~ overlap p q) ps -> slotVal (heap t) q = VRef n.
Proof.
  intros Hr Hq Hps. rewrite <- Hq.
  destruct (rewrites_pframe _ _ _ _ Hr) as [_ H]. apply H; [|done].
  apply slotVal_ref_ok in Hq as (o & Ho & _). by eapply lookup_lt_Some.
Qed.

Lemma persist_slot n0 ps s t u q n :
  rewrites n0 ps s t -> pstep t u -> slotVal (heap s) q = VRef n ->
  Forall (fun p => ~ overlap p q) ps -> offListb q = true ->
  slotVal (heap u) q = VRef n.
Proof.
  intros Hr Hp Hq Hps Hoff. eapply pstep_slot; [done|by apply offListb_true|].
  by eapply rewrites_slot.
Qed.

(** All the slots that the site rewrites write. *)
Definition sitePaths (body : ComponentBody) : list path :=
  propSitePaths body ++ stateSitePaths body ++ fieldSitePaths body.

Lemma phases_run head body ts s1 sC sD sE sF pre sP r t :
  rewritePropSites body s1 = Ok tt sC ->
  widenPropTypings body sC = Ok tt sD ->
  rewriteStateSites body sD = Ok tt sE ->
  rewriteFieldSites body sE = Ok tt sF ->
  buildPreamble head ts body sF = Ok pre sP ->
  assemble head ts body pre sP = Ok r t ->
  allBelow (next s1) (sitePaths body) = true ->
  rewrites (next s1) (propSitePaths body) s1 sC /\
  pframe offTyping sC sD /\
  rewrites (next s1) (stateSitePaths body) sD sE /\
  rewrites (next s1) (fieldSitePaths body) sE sF /\
  qstep sF sP /\ pstep sP t.
Proof.
  intros HC HD HE HF HP HA Hbelow. unfold sitePaths in Hbelow.
  apply allBelow_app in Hbelow as [HbP Hbelow]. apply allBelow_app in Hbelow as [HbS HbF].
  destruct (rewritePropSites_run (next s1) _ _ _ HC) as [HrC _]; [done..|].
  pose proof (frames_widenPropTypings body _ _ _ HD) as HfD.
  pose proof (rewrites_next _ _ _ _ HrC) as HnC. pose proof (proj1 HfD) as HnD.
  destruct (rewriteStateSites_run (next s1) _ _ _ HE) as [HrE _]; [lia|done|].
  pose proof (rewrites_next _ _ _ _ HrE) as HnE.
  destruct (rewriteFieldSites_run (next s1) _ _ _ HF) as [HrF _]; [lia|done|].
  apply buildPreamble_post in HP as [HqP _].
  destruct r as [f ty]. apply assemble_post in HA as [HpA _].
  done.
Qed.

(** The function that [transformClass] returns: the body of [render] with the
    preamble in front. *)
Lemma transformClass_preamble head body ts s f ty t :
  transformClass head body ts s = Ok (f, ty) t ->
  exists sF sP p1 p2 p3,
    qstep sF sP /\ pstep sP t /\
    preambleDone head body (heap t) p1 p2 p3 /\
    assembled body sP t (p1 ++ p2 ++ p3) f.
Proof.
  intros H.
  apply transformClass_phases in H
    as (s1 & sC & sD & sE & sF & pre & sP & _ & _ & _ & _ & _ & HP & HA).
  apply buildPreamble_post in HP as (Hq & p1 & p2 & p3 & -> & Hpre).
  apply assemble_post in HA as [Hp Hasm].
  exists sF, sP, p1, p2, p3. repeat (split; [done|]).
  split; [by eapply preambleDone_pstep|done].
Qed.

(** *** State sites in the result *)



(** *** The body of [render] up to the assembly *)




Lemma field_lt (h : store) l k v : field h l k = v -> v <> VUndef -> l < length h.
Proof. apply field_Some. Qed.




(** *** Field sites in the result *)




(** *** Prop sites in the result *)

Definition propSiteOk (p : path) : bool := offListb p && negb (typingKey (key p)).

Lemma propSlot_final head body ts s1 sC sD sE sF pre sP r t q n :
  rewritePropSites body s1 = Ok tt sC ->
  widenPropTypings body sC = Ok tt sD ->
  rewriteStateSites body sD = Ok tt sE ->
  rewriteFieldSites body sE = Ok tt sF ->
  buildPreamble head ts body sF = Ok pre sP ->
  assemble head ts body pre sP = Ok r t ->
  allBelow (next s1) (sitePaths body) = true ->
  separate (sitePaths body) = true ->
  forallb propSiteOk (propSitePaths body) = true ->
  q ∈ propSitePaths body ->
  slotVal (heap sC) q = VRef n -> slotVal (heap t) q = VRef n.
Proof.
  intros HC HD HE HF HP HA Hbelow Hsep Hoff Hq Hslot.
  destruct (phases_run _ _ _ _ _ _ _ _ _ _ _ _ HC HD HE HF HP HA Hbelow)
    as (HrC & HfD & HrE & HrF & HqP & HpA).
  assert (pstep sF t) as Hp by (eapply pstep_trans; [apply HqP|done]).
  apply separate_app in Hsep as (_ & _ & Hcross).
  specialize (Hcross q Hq). apply Forall_app in Hcross as [HxS HxF].
  pose proof (forallb_elem _ _ _ Hoff Hq) as Hok.
  apply andb_true_iff in Hok as [Hok1 Hok2]. apply negb_true_iff in Hok2.
  eapply persist_slot; [done..| |done|done].
  eapply rewrites_slot; [done| |done].
  rewrite (proj2 HfD); [done| |done].
  apply slotVal_ref_ok in Hslot as (o & Ho & _). by eapply lookup_lt_Some.
Qed.

Lemma propNode_final head body ts s1 sC sD sE sF pre sP r t n k v :
  rewritePropSites body s1 = Ok tt sC ->
  widenPropTypings body sC = Ok tt sD ->
  rewriteStateSites body sD = Ok tt sE ->
  rewriteFieldSites body sE = Ok tt sF ->
  buildPreamble head ts body sF = Ok pre sP ->
  assemble head ts body pre sP = Ok r t ->
  allBelow (next s1) (sitePaths body) = true ->
  next s1 <= n -> typingKey k = false -> listKey k = false -> v <> VUndef ->
  field (heap sC) n k = v -> field (heap t) n k = v.
Proof.
  intros HC HD HE HF HP HA Hbelow Hn Hk Hlk Hv Hf.
  destruct (phases_run _ _ _ _ _ _ _ _ _ _ _ _ HC HD HE HF HP HA Hbelow)
    as (HrC & HfD & HrE & HrF & HqP & HpA).
  assert (pstep sF t) as Hp by (eapply pstep_trans; [apply HqP|done]).
  pose proof (field_lt _ _ _ _ Hf Hv) as HnC. pose proof (proj1 HfD) as HnD.
  pose proof (rewrites_next _ _ _ _ HrE) as HnE. fold (next sC) in HnC.
  eapply pstep_field; [done..| |done].
  unfold field.
  rewrite (rewrites_fresh _ _ _ _ HrF); [|done|lia].
  rewrite (rewrites_fresh _ _ _ _ HrE); [|done|lia].
  fold (field (heap sD) n k). rewrite <- Hf. by apply (pframe_field offTyping).
Qed.

(** C4: when some prop has a default value, the slot of every prop read site
    holds an identifier of the prop's local name after [transformClass];
    otherwise the slot of every access to the props object holds the node that
    was the [property] of the member access in it ([props] of [this.props]);
    and the function returned has the one parameter [props] when [needsProps]
    holds of the body, and no parameter otherwise. *)
Theorem C4_prop_sites head body ts s s1 f ty t
    (Hprep : prepare body s = Ok tt s1)
    (Hrun : transformClass head body ts s = Ok (f, ty) t)
    (Hbelow : allBelow (next s1) (sitePaths body) = true)
    (Hsep : separate (sitePaths body) = true)
    (Hoff : forallb propSiteOk (propSitePaths body) = true) :
  (if hasDefaults body then
     forall pb site, (pb, site) ∈ propJobs body ->
       exists n, slotVal (heap t) site = VRef n /\
         field (heap t) n "type" = VStr "Identifier" /\
         field (heap t) n "name" = VStr (newAliasName pb)
   else
     forall site, site ∈ props_sites body ->
       exists pr, slotVal (heap t) site = VRef pr /\
         forall m, slotVal (heap s1) site = VRef m ->
           apart (props_sites body) (fieldPath m "property") = true ->
           field (heap s1) m "property" = VRef pr) /\
  exists params,
    field (heap t) f "type" = VStr "ArrowFunctionExpression" /\
    field (heap t) f "params" = VArr params /\
    if needsProps body
    then exists p, params = [p] /\ heap t !! p = Some (identifierObj "props")
    else params = [].
Proof.
  split.
  - apply transformClass_phases in Hrun
      as (s1' & sC & sD & sE & sF & pre & sP & Hprep' & HC & HD & HE & HF & HP & HA).
    assert (s1' = s1) as -> by congruence.
    pose proof Hbelow as HbP. unfold sitePaths in HbP. apply allBelow_app in HbP as [HbP _].
    pose proof Hsep as HsP. apply separate_app in HsP as (HsP & _ & _).
    destruct (rewritePropSites_run (next s1) _ _ _ HC) as [_ Hdone]; [done..|].
    specialize (Hdone HsP). destruct (hasDefaults body) eqn:Hd.
    + intros pb site Hin. destruct (Hdone pb site Hin) as (n & Hslot & Hn & Hobj).
      exists n. split.
      { eapply propSlot_final; [done..| |done]. unfold propSitePaths. rewrite Hd.
        by apply (list_elem_of_fmap_2 snd _ (pb, site)). }
      split; (eapply propNode_final; [done..|by rewrite (field_lookup _ _ _ _ Hobj)]).
    + intros site Hin. destruct (Hdone site Hin) as (pr & Hslot & Hprop).
      exists pr. split.
      { eapply propSlot_final; [done..| |done]. unfold propSitePaths. by rewrite Hd. }
      intros m Hm Hap. apply Hprop; [done|by apply apart_Forall].
  - apply transformClass_preamble in Hrun as (sF & sP & p1 & p2 & p3 & _ & _ & _ & Hasm).
    destruct Hasm as (r & bodyNode & ss & params & _ & _ & _ & _ & _ & Hty & Hpar & _ & Hp).
    exists params. done.
Qed.

(** *** The widening of prop types (lines 119-147) *)

Lemma extends_field s t l k v :
  extends s t -> field (heap s) l k = v -> v <> VUndef -> field (heap t) l k = v.
Proof.
  intros (_ & _ & Hold) Hf Hv. unfold field in *.
  destruct (heap s !! l) as [o|] eqn:Ho; [|congruence]. by rewrite (Hold _ _ Ho).
Qed.

Lemma wrote_field_ne l0 k0 v0 (o : obj) s t l k :
  heap s !! l0 = Some o -> heap t !! l0 = Some (<[k0 := v0]> o) -> keeps l0 s t ->
  l <> l0 \/ k <> k0 -> field (heap t) l k = field (heap s) l k.
Proof.
  intros Ho Hnew (_ & Hn & Hkeep) Hne. unfold field.
  destruct (decide (l = l0)) as [->|Hl].
  - rewrite Ho, Hnew. unfold prop. rewrite lookup_insert_ne; [done|]. naive_solver.
  - destruct (heap s !! l) as [x|] eqn:Hx; [by rewrite (Hkeep _ _ Hl Hx)|].
    apply lookup_ge_None in Hx. unfold next in Hn.
    destruct (heap t !! l) as [y|] eqn:Hy; [|done].
    apply lookup_lt_Some in Hy. lia.
Qed.




Lemma slotIsType_field h p ty l :
  slotVal h p = VRef l ->
  slotIsType h p ty = bool_decide (field h l "type" = VStr ty).
Proof.
  intros Hp. unfold slotIsType, field. rewrite Hp.
  destruct (h !! l); [done|]. symmetry. by apply bool_decide_eq_false.
Qed.





(** One write to a property of an object of the store. *)
Definition wrote (l : loc) (k : string) (v : val) (s t : state) : Prop :=
  exists o, heap s !! l = Some o /\ heap t !! l = Some (<[k := v]> o) /\ keeps l s t.

Lemma wrote_ne l0 k0 v0 s t l k :
  wrote l0 k0 v0 s t -> l <> l0 \/ k <> k0 -> field (heap t) l k = field (heap s) l k.
Proof. intros (o & H1 & H2 & H3). by eapply wrote_field_ne. Qed.




Lemma wrote_slot_ne l0 k0 v0 s t p :
  wrote l0 k0 v0 s t -> key p <> k0 -> slotVal (heap t) p = slotVal (heap s) p.
Proof.
  intros Hw Hk. pose proof (wrote_ne _ _ _ _ _ (parent p) (key p) Hw (or_intror Hk)) as H.
  destruct Hw as (o & Ho & Hnew & _ & Hn & _).
  unfold field in H. unfold slotVal.
  destruct (heap s !! parent p) as [x|] eqn:Hx, (heap t !! parent p) as [y|] eqn:Hy;
    [by rewrite H|..|done].
  - apply lookup_lt_Some in Hx. apply lookup_ge_None in Hy. unfold next in Hn. lia.
  - apply lookup_lt_Some in Hy. apply lookup_ge_None in Hx. unfold next in Hn. lia.
Qed.

(** The four ways in which [widenTyping] goes through for a prop with a default
    value and the typing slot [tp]: no annotation to widen; a union that has
    [undefined] already; a union that gets it; another type, put in a union. *)
Inductive widenCase (tp : path) (s t : state) : Prop :=
  | widen_plain tn :
      slotVal (heap s) tp = VRef tn ->
      wrote tn "optional" (VBool true) s t ->
      field (heap s) tn "type" <> VStr "TSPropertySignature" \/
        truthy (field (heap s) tn "typeAnnotation") = false \/
        key tp = "optional" ->
      widenCase tp s t
  | widen_has tn ao u tys x :
      slotVal (heap s) tp = VRef tn ->
      wrote tn "optional" (VBool true) s t ->
      field (heap s) tn "type" = VStr "TSPropertySignature" ->
      field (heap s) tn "typeAnnotation" = VRef ao ->
      field (heap s) ao "typeAnnotation" = VRef u ->
      field (heap s) u "type" = VStr "TSUnionType" ->
      field (heap s) u "types" = VArr tys ->
      x ∈ tys -> field (heap s) x "type" = VStr "TSUndefinedKeyword" ->
      widenCase tp s t
  | widen_push tn ao u tys s2 s3 :
      slotVal (heap s) tp = VRef tn ->
      wrote tn "optional" (VBool true) s s2 ->
      field (heap s) tn "type" = VStr "TSPropertySignature" ->
      field (heap s) tn "typeAnnotation" = VRef ao ->
      field (heap s) ao "typeAnnotation" = VRef u ->
      field (heap s) u "type" = VStr "TSUnionType" ->
      field (heap s) u "types" = VArr tys ->
      (forall x, x ∈ tys -> field (heap s) x "type" <> VStr "TSUndefinedKeyword") ->
      extends s2 s3 -> next s3 = S (next s2) ->
      heap s3 !! next s2 = Some (mkObj "TSUndefinedKeyword" []) ->
      wrote u "types" (VArr (tys ++ [next s2])) s3 t ->
      widenCase tp s t
  | widen_wrap tn ao old s2 s3 :
      slotVal (heap s) tp = VRef tn ->
      wrote tn "optional" (VBool true) s s2 ->
      field (heap s) tn "type" = VStr "TSPropertySignature" ->
      field (heap s) tn "typeAnnotation" = VRef ao ->
      field (heap s) ao "typeAnnotation" = VRef old ->
      field (heap s) old "type" <> VStr "TSUnionType" ->
      extends s2 s3 -> next s3 = S (S (next s2)) ->
      heap s3 !! next s2 = Some (mkObj "TSUndefinedKeyword" []) ->
      heap s3 !! S (next s2)
        = Some (mkObj "TSUnionType" [("types", VArr [old; next s2])]) ->
      wrote ao "typeAnnotation" (VRef (S (next s2))) s3 t ->
      widenCase tp s t.




Lemma wrote_field l0 k0 v0 s t l k v :
  wrote l0 k0 v0 s t -> l <> l0 \/ k <> k0 -> field (heap s) l k = v ->
  field (heap t) l k = v.
Proof. intros Hw Hne <-. by eapply wrote_ne. Qed.




Lemma widenCase_type tp s t l v :
  widenCase tp s t -> field (heap s) l "type" = v -> v <> VUndef ->
  field (heap t) l "type" = v.
Proof.
  intros Hc Hl Hv.
  destruct Hc as [tn Htn Hw _|tn ao u tys x Htn Hw _ _ _ _ _ _ _
                 |tn ao u tys s2 s3 Htn Hw _ _ _ _ _ _ Hext _ _ Hw2
                 |tn ao old s2 s3 Htn Hw _ _ _ _ Hext _ _ _ Hw2].
  - eapply wrote_field; [done|by right|done].
  - eapply wrote_field; [done|by right|done].
  - eapply wrote_field; [done|by right|]. eapply extends_field; [done| |done].
    eapply wrote_field; [done|by right|done].
  - eapply wrote_field; [done|by right|]. eapply extends_field; [done| |done].
    eapply wrote_field; [done|by right|done].
Qed.














(** *** What [transformClass] returns *)

Lemma isNode_field (h : store) l ty types :
  field h l "type" = VStr ty ->
  existsb (isOfType (VStr ty)) types = true ->
  isNode h types (VRef l) = true.
Proof.
  unfold field, isNode. simpl. intros Hty H.
  destruct (h !! l) as [o|]; [|done]. simpl. by rewrite Hty.
Qed.

Lemma assemble_typeNode head ts body pre s f ty t :
  assemble head ts body pre s = Ok (f, ty) t ->
  if ts then exists l, ty = VRef l /\ field (heap t) l "type" = VStr "TSTypeReference"
  else ty = VUndef.
Proof.
  intros H. unfold assemble in H.
  do 8 (apply bind_Ok in H as (? & ? & ? & H)).
  apply bind_Ok in H as (ty' & t' & Hty & H). apply ret_Ok in H as [[= <- <-] ->].
  destruct ts; [|by apply ret_Ok in Hty as [-> _]].
  do 3 (apply bind_Ok in Hty as (? & ? & ? & Hty)).
  apply bind_Ok in Hty as (r & u4 & Hr & Hty). apply ret_Ok in Hty as [-> ->].
  unfold tsTypeReference in Hr. cbv zeta in Hr. do 2 skip_check Hr.
  apply alloc_fwd in Hr as (-> & _ & Hr & _).
  eexists. split; [done|]. erewrite field_lookup by exact Hr. apply prop_mkObj_type.
Qed.

(** The function is an arrow expression; the type, in TypeScript mode, is a
    type reference. *)
Lemma transformClass_nodes head body ts s f ty t :
  transformClass head body ts s = Ok (f, ty) t ->
  field (heap t) f "type" = VStr "ArrowFunctionExpression" /\
  if ts then exists l, ty = VRef l /\ field (heap t) l "type" = VStr "TSTypeReference"
  else ty = VUndef.
Proof.
  intros H. apply transformClass_phases in H
    as (s1 & sC & sD & sE & sF & pre & sP & _ & _ & _ & _ & _ & _ & H).
  split; [|by eapply assemble_typeNode].
  apply assemble_post in H as [_ (r & bodyNode & ss & params & H)]. tauto.
Qed.

(** C9: a class that was transformed is replaced by [const <id> = <function>],
    where [<id>] is a copy of the identifier of the class; under a default
    export the export statement is replaced by that declaration, followed at
    once by [export default <id>]; an anonymous class under a default export
    is replaced, where it stands, by the function itself.  The builders check
    what they are given: the name of the class is an identifier, and Babel's
    table has identifiers among the assignable targets and the expressions,
    arrow functions among the expressions, and type references among the
    types. *)
Theorem C9_replacement ts p s head declPath body funcNode typeNode t1 cn (co : obj)
    (HLVal : aliasHas "LVal" "Identifier" = true)
    (HExpression : aliasHas "Expression" "Identifier" = true)
    (HArrow : aliasHas "Expression" "ArrowFunctionExpression" = true)
    (HTSType : aliasHas "TSType" "TSTypeReference" = true)
    (Hhead : analyzeHead p s = Some head)
    (Hparent : parentPath p = Some declPath)
    (Hbody : analyzeBody p head s = inr body)
    (Htransform : transformClass head body ts s = Ok (funcNode, typeNode) t1)
    (Hclass : slotVal (heap t1) p = VRef cn)
    (Hco : heap t1 !! cn = Some co) :
  (slotIsType (heap s) declPath "ExportDefaultDeclaration" = false ->
   forall idn (ido : obj),
     prop co "id" = VRef idn -> heap t1 !! idn = Some ido ->
     prop ido "type" = VStr "Identifier" ->
     exists t decl c,
       ClassDeclaration ts p s = Ok tt t /\
       slotVal (heap t) p = VRef decl /\
       isConstDeclaration (next t1) (heap t) decl c funcNode /\
       isComponentId (next t1) (heap t) ts ido typeNode c) /\
  (slotIsType (heap s) declPath "ExportDefaultDeclaration" = true ->
   forall idn (ido po : obj) i ls,
     prop co "id" = VRef idn -> heap t1 !! idn = Some ido ->
     prop ido "type" = VStr "Identifier" ->
     heap t1 !! parent declPath = Some po -> index declPath = Some i ->
     prop po (key declPath) = VArr ls -> i < length ls ->
     exists t decl c exp c' po',
       ClassDeclaration ts p s = Ok tt t /\
       heap t !! parent declPath = Some po' /\
       prop po' (key declPath) = VArr (take i ls ++ [decl; exp] ++ drop (S i) ls) /\
       isConstDeclaration (next t1) (heap t) decl c funcNode /\
       isComponentId (next t1) (heap t) ts ido typeNode c /\
       heap t !! exp = Some (mkObj "ExportDefaultDeclaration" [("declaration", VRef c')]) /\
       heap t !! c' = Some ido /\ next t1 <= c') /\
  (slotIsType (heap s) declPath "ExportDefaultDeclaration" = true ->
   truthy (prop co "id") = false ->
   exists t,
     ClassDeclaration ts p s = Ok tt t /\
     slotVal (heap t) p = VRef funcNode /\
     forall l, l <> parent p -> heap t !! l = heap t1 !! l).
Proof.
  pose proof (lookup_lt_Some _ _ _ Hco) as Hcn.
  pose proof (slotVal_ref_ok _ _ _ Hclass) as Hok.
  assert (parent p < length (heap t1)) as Hpar
    by (destruct Hok as (? & ? & _); by eapply lookup_lt_Some).
  destruct (transformClass_nodes _ _ _ _ _ _ _ Htransform) as [Hf Hty].
  assert (isNode (heap t1) ["Expression"] (VRef funcNode) = true) as Hfunc.
  { eapply isNode_field; [exact Hf|]. alias_solve. }
  assert (ts = true ->
          exists ty, typeNode = VRef ty /\
                     isNode (heap t1) ["TSType"] typeNode = true) as Hts.
  { intros ->. destruct Hty as (l & -> & Hl). exists l. split; [done|].
    eapply isNode_field; [exact Hl|]. alias_solve. }
  clear Hf Hty.
  split; [|split].
  - intros Hdef idn ido Hid Hido Hidt.
    cut (wp (ClassDeclaration ts p)
             (fun _ t => exists decl c, slotVal (heap t) p = VRef decl /\
                isConstDeclaration (next t1) (heap t) decl c funcNode /\
                isComponentId (next t1) (heap t) ts ido typeNode c) s).
    { intros H. apply wp_Ok in H as ([] & t & H1 & decl & c & H2). eauto 10. }
    eapply wp_ClassDeclaration; eauto. rewrite Hdef.
    apply wp_bind. eapply wp_componentDeclaration; eauto.
    intros decl c t Hext Hdecl Hc.
    apply wp_replaceWith; [by eapply extends_slotOk|].
    exists decl, c. cbn [heap].
    split; [apply slotVal_slotWrite; by eapply extends_slotOk|].
    split.
    + eapply isConstDeclaration_stable; [|exact Hdecl].
      intros l Hl _. apply lookup_slotWrite_ne. unfold next in Hl. lia.
    + eapply isComponentId_stable; [|exact Hc].
      intros l Hl _. apply lookup_slotWrite_ne. unfold next in Hl. lia.
  - intros Hdef idn ido po i ls Hid Hido Hidt Hpo Hi Hls Hlt.
    pose proof (lookup_lt_Some _ _ _ Hpo) as Hpolt.
    pose proof (lookup_lt_Some _ _ _ Hido) as Hidlt.
    cut (wp (ClassDeclaration ts p)
             (fun _ t => exists decl c exp c' po',
                heap t !! parent declPath = Some po' /\
                prop po' (key declPath) = VArr (take i ls ++ [decl; exp] ++ drop (S i) ls) /\
                isConstDeclaration (next t1) (heap t) decl c funcNode /\
                isComponentId (next t1) (heap t) ts ido typeNode c /\
                heap t !! exp = Some (mkObj "ExportDefaultDeclaration"
                                        [("declaration", VRef c')]) /\
                heap t !! c' = Some ido /\ next t1 <= c') s).
    { intros H. apply wp_Ok in H as ([] & t & H1 & decl & c & exp & c' & po' & H2).
      exists t, decl, c, exp, c', po'. auto. }
    eapply wp_ClassDeclaration; eauto. rewrite Hdef.
    wp_run. rewrite Hid. simpl truthy. cbv iota.
    apply wp_bind. eapply wp_componentDeclaration; eauto.
    intros decl c t Hext Hdecl Hc.
    pose proof Hext as (Hsc & Hnext & Hold).
    unfold cloneNode, exportDefaultDeclaration.
    wp_step. wp_step. wp_step. wp_step.
    eapply (wp_getObj _ ido); [by apply Hold|].
    wp_step. wp_step. wp_step. wp_step. wp_step.
    eapply (wp_replaceWithMultiple _ _ po i ls); try done.
    { cbn [heap]. apply Hold in Hpo. lookup_solve. }
    unfold next in *. cbn [heap scopes].
    exists decl, c, (length (heap t ++ [ido])), (length (heap t)). eexists.
    split; [apply list_lookup_insert_eq; len_solve|].
    split; [by rewrite prop_insert_eq|].
    split.
    { eapply isConstDeclaration_stable; [|exact Hdecl].
      intros l Hl Hl'. lookup_solve. done. }
    split.
    { eapply isComponentId_stable; [|exact Hc].
      intros l Hl Hl'. lookup_solve. done. }
    split; [lookup_solve|]. split; [lookup_solve|]. lia.
  - intros Hdef Hid.
    cut (wp (ClassDeclaration ts p)
             (fun _ t => slotVal (heap t) p = VRef funcNode /\
                forall l, l <> parent p -> heap t !! l = heap t1 !! l) s).
    { intros H. apply wp_Ok in H as ([] & t & H1 & H2). eauto. }
    eapply wp_ClassDeclaration; eauto. rewrite Hdef.
    wp_run. rewrite Hid.
    apply wp_replaceWith; [done|]. cbn [heap].
    split; [by apply slotVal_slotWrite|].
    intros l Hl. by apply lookup_slotWrite_ne.
Qed.

(** * Further properties of the rewriter *)

(** ** What [transformClass] leaves as it is *)




(** ** The import resolver *)

(** [r] is the fresh member access [<nm>.<name>], made after [s]. *)
Definition freshMember (nm name : string) (s : state) (r : loc) (t : state) : Prop :=
  extends s t /\ next s <= r /\
  exists o p,
    next s <= o /\ next s <= p /\
    heap t !! r = Some (memberObj o p) /\
    heap t !! o = Some (identifierObj nm) /\
    heap t !! p = Some (identifierObj name).

Lemma getReactImport_global name g s r t :
  getReactImport name (GlobalRef g) s = Ok r t -> freshMember g name s r t.
Proof.
  intros H. unfold getReactImport in H. unfold_builders H. fwd. sizes.
  split; [chain_ext|]. split; [lia|]. eexists _, _.
  split; [|split; [|split; [chain_lookup|split; chain_lookup]]]; lia.
Qed.

Lemma getReactImport_ns name sp s r t :
  getReactImport name (ImportRef ns sp) s = Ok r t ->
  exists spec l nm,
    slotVal (heap s) sp = VRef spec /\ field (heap s) spec "local" = VRef l /\
    field (heap s) l "name" = VStr nm /\ freshMember nm name s r t.
Proof.
  intros H. unfold getReactImport in H. unfold_builders H. fwd. sizes.
  eexists _, _, _. split; [done|].
  split; [by erewrite field_lookup|]. split; [by erewrite field_lookup|].
  split; [chain_ext|]. split; [lia|]. eexists _, _.
  split; [|split; [|split; [chain_lookup|split; chain_lookup]]]; lia.
Qed.

Lemma wp_member nm name (Q : loc -> state -> Prop) s :
  aliasHas "Expression" "Identifier" = true ->
  (forall r t, Q r t) ->
  wp (let! o := identifier nm in
      let! p := identifier name in
      memberExpression o p) Q s.
Proof.
  intros Hexpr HQ. unfold identifier, memberExpression. wp_run. apply HQ.
Qed.

(** For a framework that is a global or a namespace, [getReactImport]
    returns [<framework>.<name>], a member access made of fresh nodes, and
    changes no object of the store; with identifiers among the expressions
    of Babel's table, for a global it always returns, for a namespace it
    returns when the specifier has a local identifier with a name, and then
    with that name. *)
Theorem getReactImport_qualified name s
    (Hexpr : aliasHas "Expression" "Identifier" = true) :
  (forall g, exists r t,
     getReactImport name (GlobalRef g) s = Ok r t /\ freshMember g name s r t) /\
  (forall sp spec l nm,
     slotVal (heap s) sp = VRef spec -> field (heap s) spec "local" = VRef l ->
     field (heap s) l "name" = VStr nm ->
     exists r t,
       getReactImport name (ImportRef ns sp) s = Ok r t /\ freshMember nm name s r t) /\
  (forall sp r t,
     getReactImport name (ImportRef ns sp) s = Ok r t ->
     exists spec l nm,
       slotVal (heap s) sp = VRef spec /\ field (heap s) spec "local" = VRef l /\
       field (heap s) l "name" = VStr nm /\ freshMember nm name s r t).
Proof.
  split; [|split].
  - intros g.
    assert (exists r t, getReactImport name (GlobalRef g) s = Ok r t) as (r & t & E).
    { cut (wp (getReactImport name (GlobalRef g)) (fun _ _ => True) s).
      { intros (r & t & E & _)%wp_Ok. eauto. }
      by apply wp_member. }
    exists r, t. split; [done|]. by apply getReactImport_global.
  - intros sp spec l nm Hsp Hl Hnm.
    assert (exists r t, getReactImport name (ImportRef ns sp) s = Ok r t) as (r & t & E).
    { cut (wp (getReactImport name (ImportRef ns sp)) (fun _ _ => True) s).
      { intros (r & t & E & _)%wp_Ok. eauto. }
      pose proof (field_lt _ _ _ _ Hl ltac:(discriminate)) as H1.
      pose proof (field_lt _ _ _ _ Hnm ltac:(discriminate)) as H2.
      destruct (lookup_lt_is_Some_2 _ _ H1) as [so Hso].
      destruct (lookup_lt_is_Some_2 _ _ H2) as [lo Hlo].
      rewrite (field_lookup _ _ _ _ Hso) in Hl. rewrite (field_lookup _ _ _ _ Hlo) in Hnm.
      unfold getReactImport.
      apply wp_bind, (wp_pathNode _ spec); [done|].
      apply wp_bind, (wp_getField _ _ so); [done|]. rewrite Hl.
      apply wp_bind, wp_asRef. apply wp_bind, (wp_getField _ _ lo); [done|]. rewrite Hnm.
      apply wp_bind, wp_ret. by apply wp_member. }
    exists r, t. split; [done|].
    apply getReactImport_ns in E as (spec' & l' & nm' & E1 & E2 & E3 & E4).
    assert (spec' = spec) as -> by congruence. assert (l' = l) as -> by congruence.
    assert (nm' = nm) as -> by congruence. done.
  - intros sp r t. apply getReactImport_ns.
Qed.

(** *** Named imports *)

(** [importName(imp)], read off the store. *)
Definition importNameOf (h : store) (imp : loc) : val :=
  if bool_decide (field h imp "type" = VStr "StringLiteral")
  then field h imp "value" else field h imp "name".

(** [spec.isImportSpecifier() && importName(spec.node.imported) === name] *)
Definition imports (h : store) (name : string) (spec : loc) : bool :=
  bool_decide (field h spec "type" = VStr "ImportSpecifier")
  && match field h spec "imported" with
     | VRef imp => bool_decide (importNameOf h imp = VStr name)
     | _ => false
     end.

(** The first specifier of the list that imports [name]. *)
Definition firstImport (h : store) (name : string) (specs : list loc) : option loc :=
  List.find (imports h name) specs.

Lemma importName_Ok imp s v t :
  importName imp s = Ok v t -> t = s /\ v = importNameOf (heap s) imp /\ imp < next s.
Proof.
  intros H. unfold importName, importNameOf in *.
  apply bind_Ok in H as (isStr & s1 & Hs & H). apply isType_Ok in Hs as (-> & o & Ho & ->).
  rewrite !(field_lookup _ _ _ _ Ho).
  destruct (bool_decide _); apply getField_Ok in H as (-> & o' & Ho' & ->);
    assert (o' = o) as -> by congruence; (split; [done|]); (split; [done|]);
    by eapply lookup_lt_Some.
Qed.

Lemma findSpecifier_cons name p rest s n res t :
  slotVal (heap s) p = VRef n ->
  findSpecifier name (p :: rest) s = Ok res t ->
  (imports (heap s) name n = true /\ t = s /\
   exists l, res = Some l /\ field (heap s) n "local" = VRef l) \/
  (imports (heap s) name n = false /\ findSpecifier name rest s = Ok res t).
Proof.
  intros Hp H. simpl in H. unfold pathIsType in H.
  apply bind_Ok in H as (isSpec & s' & Hs & H). injection Hs as <- <-.
  rewrite (slotIsType_field _ _ _ _ Hp) in H. unfold imports.
  destruct (bool_decide (field (heap s) n "type" = VStr "ImportSpecifier")); [|by right].
  apply bind_Ok in H as (n' & s1 & Hn & H). apply pathNode_Ok in Hn as [-> Hn].
  assert (n' = n) as -> by congruence.
  apply bind_Ok in H as (imported & s1 & Hi & H).
  apply getField_Ok in Hi as (-> & o & Ho & ->).
  apply bind_Ok in H as (imp & s1 & Himp & H). apply asRef_Ok in Himp as [-> Himp].
  apply bind_Ok in H as (nm & s1 & Hnm & H). apply importName_Ok in Hnm as (-> & -> & _).
  rewrite (field_lookup _ _ _ _ Ho), Himp. simpl.
  destruct (bool_decide (importNameOf (heap s) imp = VStr name)); [|by right].
  left. split; [done|].
  apply bind_Ok in H as (local & s1 & Hl & H). apply getField_Ok in Hl as (-> & o' & Ho' & ->).
  apply bind_Ok in H as (l & s1 & Hl & H). apply asRef_Ok in Hl as [-> Hl].
  apply ret_Ok in H as [-> ->]. split; [done|]. exists l. split; [done|].
  assert (o' = o) as -> by congruence. by rewrite (field_lookup _ _ _ _ Ho).
Qed.

(** [findSpecifier] gives the local of the first specifier that imports
    [name]. *)
Lemma findSpecifier_post name ps : forall ns s res t,
  Forall2 (fun p n => slotVal (heap s) p = VRef n) ps ns ->
  findSpecifier name ps s = Ok res t ->
  t = s /\
  match firstImport (heap s) name ns with
  | Some n => exists l, res = Some l /\ field (heap s) n "local" = VRef l
  | None => res = None
  end.
Proof.
  induction ps as [|p ps IH]; intros ns s res t Hns H.
  - apply Forall2_nil_inv_l in Hns as ->. by apply ret_Ok in H as [-> ->].
  - apply Forall2_cons_inv_l in Hns as (n & ns' & Hn & Hns & ->).
    destruct (findSpecifier_cons _ _ _ _ n _ _ Hn H) as [(Hm & -> & l & -> & Hl)|[Hm H']].
    + split; [done|]. unfold firstImport. simpl. rewrite Hm. eauto.
    + apply (IH ns') in H' as [-> H']; [|done]. split; [done|].
      unfold firstImport. simpl. by rewrite Hm.
Qed.

(** The paths of [decl.get("specifiers")]. *)
Definition specPaths (dp : path) (d : loc) (ls : list loc) : list path :=
  imap (fun i _ => Path (Some dp) d "specifiers" (Some i) (scope dp)) ls.

Lemma specPaths_slots (h : store) dp d ls :
  field h d "specifiers" = VArr ls ->
  Forall2 (fun p n => slotVal h p = VRef n) (specPaths dp d ls) ls.
Proof.
  intros Hls. apply Forall2_same_length_lookup_2; [unfold specPaths; by rewrite length_imap|].
  intros i p n Hp Hn. unfold specPaths in Hp. rewrite list_lookup_imap, Hn in Hp.
  injection Hp as <-. unfold slotVal, field in *. simpl.
  destruct (h !! d); [|done]. by rewrite Hls, Hn.
Qed.

Lemma pathGetList_post dp s ps t :
  pathGetList dp "specifiers" s = Ok ps t ->
  t = s /\ exists d ls,
    slotVal (heap s) dp = VRef d /\ d < next s /\
    field (heap s) d "specifiers" = VArr ls /\ ps = specPaths dp d ls.
Proof.
  intros H. unfold pathGetList in H. fwd. split; [done|]. eexists _, _.
  split; [done|]. split; [by eapply lookup_lt_Some|]. split; [by erewrite field_lookup|done].
Qed.

Lemma specPaths_snoc dp d ls x :
  specPaths dp d (ls ++ [x])
  = specPaths dp d ls ++ [Path (Some dp) d "specifiers" (Some (length ls)) (scope dp)].
Proof. unfold specPaths. rewrite imap_app. simpl. by rewrite Nat.add_0_r. Qed.

Lemma insertAfter_fwd p n s u t :
  insertAfter p n s = Ok u t ->
  exists (o : obj) i ls,
    heap s !! parent p = Some o /\ index p = Some i /\ prop o (key p) = VArr ls /\
    heap t !! parent p
    = Some (<[key p := VArr (take (S i) ls ++ n :: drop (S i) ls)]> o) /\
    keeps (parent p) s t.
Proof.
  intros H. unfold insertAfter in H.
  apply bind_Ok in H as (o & s' & Ho & H). apply getObj_Ok in Ho as [-> Ho].
  destruct (index p) as [i|]; [|discriminate].
  destruct (prop o (key p)) as [| | | | |ls] eqn:Hls; try discriminate.
  apply setField_fwd in H as (o' & Ho' & Hnew & Hkeep).
  assert (o' = o) as -> by congruence. by exists o, i, ls.
Qed.

(** The name under which [name] is imported when no specifier imports it
    yet: [name] itself, or a fresh one when [name] is bound in the scope of
    the declaration. *)
Definition importLocal (sc : Scope) (name : string) (st : ScopeState) : string :=
  if scope_getBinding sc name st then (scope_generateUid sc name st).1 else name.

Definition importScopes (sc : Scope) (name : string) (st : ScopeState) : ScopeState :=
  if scope_getBinding sc name st then (scope_generateUid sc name st).2 else st.

(** A specifier imports [name] already: the resolver returns a copy of its
    local identifier and changes nothing. *)
Definition importFound (name : string) (dp : path) (s : state) (r : loc) (t : state)
    : Prop :=
  exists d ls n l,
    slotVal (heap s) dp = VRef d /\ field (heap s) d "specifiers" = VArr ls /\
    firstImport (heap s) name ls = Some n /\ field (heap s) n "local" = VRef l /\
    extends s t /\ r = next s /\ heap t !! r = heap s !! l.

(** No specifier imports [name]: the resolver puts a new specifier at the end
    of the list, whose local and imported identifiers both have the name
    [importLocal], and returns one more identifier of that name. *)
Definition importInserted (name : string) (dp : path) (s : state) (r : loc) (t : state)
    : Prop :=
  exists d ls spec local imported,
    slotVal (heap s) dp = VRef d /\ field (heap s) d "specifiers" = VArr ls /\
    ls <> [] /\ firstImport (heap s) name ls = None /\
    scopes t = importScopes (scope dp) name (scopes s) /\
    next s <= next t /\
    (forall l (x : obj), l <> d -> heap s !! l = Some x -> heap t !! l = Some x) /\
    (forall k, k <> "specifiers" -> field (heap t) d k = field (heap s) d k) /\
    field (heap t) d "specifiers" = VArr (ls ++ [spec]) /\
    next s <= spec /\ local = next s /\ next s <= imported /\ next s <= r /\
    r <> local /\ r <> imported /\
    heap t !! spec
    = Some (mkObj "ImportSpecifier" [("local", VRef local); ("imported", VRef imported)]) /\
    heap t !! local = Some (identifierObj (importLocal (scope dp) name (scopes s))) /\
    heap t !! imported = Some (identifierObj (importLocal (scope dp) name (scopes s))) /\
    heap t !! r = Some (identifierObj (importLocal (scope dp) name (scopes s))) /\
    (imported = local <-> name = importLocal (scope dp) name (scopes s)).

Lemma importLocal_post sc name s newName s1 :
  (if scope_getBinding sc name (scopes s) then generateUid sc name else ret name) s
  = Ok newName s1 ->
  newName = importLocal sc name (scopes s) /\ heap s1 = heap s /\
  scopes s1 = importScopes sc name (scopes s).
Proof.
  unfold importLocal, importScopes, generateUid.
  destruct (scope_getBinding sc name (scopes s)).
  - destruct (scope_generateUid sc name (scopes s)) as [uid st]. by intros [= <- <-].
  - by intros [-> ->]%ret_Ok.
Qed.

Lemma getReactImport_named_inv name sp dp s r t :
  parentPath sp = Some dp ->
  getReactImport name (ImportRef named sp) s = Ok r t ->
  importFound name dp s r t \/ importInserted name dp s r t.
Proof.
  intros Hdp H. unfold getReactImport in H. rewrite Hdp in H.
  apply bind_Ok in H as (ps & s' & Hps & H).
  apply pathGetList_post in Hps as (-> & d & ls & Hd & Hdlt & Hls & ->).
  apply bind_Ok in H as (found & s' & Hfound & H).
  apply (findSpecifier_post _ _ ls) in Hfound as [-> Hfound]; [|by apply specPaths_slots].
  destruct (firstImport (heap s) name ls) as [n|] eqn:Hfirst.
  - left. destruct Hfound as (l & -> & Hl). unfold cloneNode in H. fwd.
    exists d, ls, n, l. repeat (split; [done|]). congruence.
  - right. subst found. unfold importInserted.
    apply bind_Ok in H as (bound & s' & Hb & H). unfold getBinding in Hb.
    injection Hb as <- <-.
    apply bind_Ok in H as (newName & s1 & Hnew & H).
    apply importLocal_post in Hnew as (-> & Hheap & Hscopes).
    assert (next s1 = next s) as Hnext by (unfold next; by rewrite Hheap).
    rewrite <- Hheap, <- Hnext in *. clear Hheap Hnext.
    remember (importLocal (scope dp) name (scopes s)) as newName eqn:HnewName.
    apply bind_Ok in H as (local & s2 & Hlocal & H).
    apply bind_Ok in H as (ps & s' & Hps & H).
    apply pathGetList_post in Hps as (-> & d' & ls' & Hd' & Hdlt' & Hls' & ->).
    unfold identifier in Hlocal. apply alloc_fwd in Hlocal as (-> & Hext2 & Hloc & Hn2).
    assert (d' = d) as ->.
    { apply (extends_slotVal _ _ _ _ Hext2) in Hd. congruence. }
    assert (ls' = ls) as ->.
    { apply (extends_field _ _ _ _ _ Hext2) in Hls; [congruence|done]. }
    destruct (last (specPaths dp d ls)) as [lastSpec|] eqn:Hlast; [|discriminate].
    apply last_Some in Hlast as [ps' Hlast].
    assert (exists ls0 x, ls = ls0 ++ [x]) as (ls0 & x & ->).
    { destruct ls as [|y ls] using rev_ind; [by destruct ps'|eauto]. }
    rewrite specPaths_snoc in Hlast. apply app_inj_tail in Hlast as [_ <-].
    clear ps'.
    apply bind_Ok in H as (imported & s3 & Himp & H).
    apply bind_Ok in H as (spec & s4 & Hspec & H).
    apply bind_Ok in H as ([] & s5 & Hins & H).
    unfold importSpecifier in Hspec. do 2 skip_check Hspec.
    apply alloc_fwd in Hspec as (-> & Hext4 & Hsp & Hn4).
    apply insertAfter_fwd in Hins as (o & i & ls & Ho & [= <-] & Hprop & Ho5 & Hkeep).
    simpl in Ho, Hprop, Ho5, Hkeep.
    unfold identifier in H. apply alloc_fwd in H as (-> & Hext6 & Hr & Hn6).
    assert (extends s2 s3 /\ next s1 <= imported /\ imported < next s3 /\
            heap s3 !! imported = Some (identifierObj newName) /\
            (imported = next s1 <-> name = newName)) as (Hext3 & Hi1 & Hi2 & Hi & Hiff).
    { destruct (String.eqb_spec name newName) as [He|He].
      - apply ret_Ok in Himp as [-> ->]. split; [apply extends_refl|].
        split; [lia|]. split; [lia|]. done.
      - unfold identifier in Himp. apply alloc_fwd in Himp as (-> & Hext3 & Hi & Hn3).
        split; [done|]. split; [lia|]. split; [lia|]. split; [done|]. split; [lia|done]. }
    pose proof (extends_next _ _ Hext2). pose proof (extends_next _ _ Hext3).
    pose proof (extends_next _ _ Hext4). pose proof (extends_next _ _ Hext6).
    destruct Hkeep as (Hsc5 & Hn5 & Hkeep).
    assert (heap s4 !! d = heap s1 !! d) as Hod.
    { destruct (lookup_lt_is_Some_2 (heap s1) d Hdlt) as [od Hod]. rewrite Hod.
      by do 3 (eapply extends_lookup; [eassumption|]). }
    assert (ls = ls0 ++ [x]) as ->.
    { unfold field in Hls. rewrite <- Hod, Ho in Hls. congruence. }
    rewrite firstn_all2 in Ho5 by (rewrite length_app; simpl; lia).
    rewrite skipn_all2 in Ho5 by (rewrite length_app; simpl; lia).
    exists d, (ls0 ++ [x]), (next s3), (next s1), imported.
    split; [done|]. split; [done|]. split; [by destruct ls0|]. split; [done|].
    split. { destruct Hext2 as [? _], Hext3 as [? _], Hext4 as [? _], Hext6 as [? _].
             congruence. }
    split; [lia|].
    split. { intros l y Hne Hy. eapply extends_lookup; [exact Hext6|].
             apply Hkeep; [done|]. by do 3 (eapply extends_lookup; [eassumption|]). }
    split. { intros k Hk. unfold field. rewrite (extends_lookup _ _ _ _ Hext6 Ho5).
             rewrite <- Hod, Ho. unfold prop. by rewrite lookup_insert_ne. }
    split. { unfold field. rewrite (extends_lookup _ _ _ _ Hext6 Ho5).
             unfold prop. by rewrite lookup_insert_eq. }
    split; [lia|]. split; [done|]. split; [done|]. split; [lia|]. split; [lia|].
    split; [lia|].
    split. { eapply extends_lookup; [exact Hext6|]. apply Hkeep; [lia|done]. }
    split. { eapply extends_lookup; [exact Hext6|]. apply Hkeep; [lia|].
             by do 2 (eapply extends_lookup; [eassumption|]). }
    split. { eapply extends_lookup; [exact Hext6|]. apply Hkeep; [lia|].
             by eapply extends_lookup. }
    done.
Qed.

(** A well-formed specifier: an object of the store, and when it is an import
    specifier its [imported] and [local] are objects of the store. *)
Definition specOk (h : store) (n : loc) : bool :=
  (n <? length h)
  && (negb (bool_decide (field h n "type" = VStr "ImportSpecifier"))
      || match field h n "imported", field h n "local" with
         | VRef imp, VRef l => (imp <? length h) && (l <? length h)
         | _, _ => false
         end).

Lemma wp_fwd {A} (m : M A) (Q : A -> state -> Prop) s :
  (exists a t, m s = Ok a t) -> (forall a t, m s = Ok a t -> Q a t) -> wp m Q s.
Proof. intros (a & t & E) H. apply wp_Ok. exists a, t. auto. Qed.

Lemma pathGetList_total dp d ls s :
  slotVal (heap s) dp = VRef d -> field (heap s) d "specifiers" = VArr ls ->
  pathGetList dp "specifiers" s = Ok (specPaths dp d ls) s.
Proof.
  intros Hd Hls. unfold pathGetList, bind, pathNode, bind, pathVal. rewrite Hd. simpl.
  unfold getField, bind, getObj. unfold field in Hls.
  destruct (heap s !! d) as [o|]; [|done]. simpl. by rewrite Hls.
Qed.

Lemma findSpecifier_total name ps : forall ns s,
  Forall2 (fun p n => slotVal (heap s) p = VRef n) ps ns ->
  forallb (specOk (heap s)) ns = true ->
  exists res, findSpecifier name ps s = Ok res s.
Proof.
  induction ps as [|p ps IH]; intros ns s Hps Hok; [by exists None|].
  destruct ns as [|n ns]; [by apply Forall2_length in Hps|].
  apply Forall2_cons_1 in Hps as [Hp Hps]. simpl in Hok.
  apply andb_true_iff in Hok as [Hn Hok]. destruct (IH ns s Hps Hok) as [res IHres].
  unfold specOk in Hn. apply andb_true_iff in Hn as [Hlt Hn]. apply Nat.ltb_lt in Hlt.
  destruct (lookup_lt_is_Some_2 _ _ Hlt) as [o Ho].
  simpl. unfold bind at 1. unfold pathIsType. rewrite (slotIsType_field _ _ _ _ Hp).
  destruct (bool_decide (field (heap s) n "type" = VStr "ImportSpecifier")); [|eauto].
  simpl in Hn. rewrite !(field_lookup _ _ _ _ Ho) in Hn.
  destruct (prop o "imported") as [| | | |imp|] eqn:Hi; try done.
  destruct (prop o "local") as [| | | |l|] eqn:Hl; try done.
  apply andb_true_iff in Hn as [Himp _]. apply Nat.ltb_lt in Himp.
  destruct (lookup_lt_is_Some_2 _ _ Himp) as [io Hio].
  unfold bind, pathNode, bind, pathVal. rewrite Hp. simpl.
  unfold getField, bind, getObj. rewrite Ho. simpl. rewrite Hi. simpl.
  unfold importName, bind, isType, bind, typeOf, getField, bind, getObj. rewrite Hio. simpl.
  destruct (bool_decide (prop io "type" = VStr "StringLiteral")); rewrite Hio; simpl;
    (destruct (bool_decide _); [|eauto]); rewrite Ho; simpl; rewrite Hl; simpl; eauto.
Qed.

Lemma insertAfter_total p n s (o : obj) i ls :
  heap s !! parent p = Some o -> index p = Some i -> prop o (key p) = VArr ls ->
  exists u t, insertAfter p n s = Ok u t.
Proof.
  intros Ho Hi Hls. unfold insertAfter, bind, getObj, setField.
  rewrite Ho, Hi, Hls, Ho. eauto.
Qed.

Lemma getReactImport_named_total name sp dp d ls s :
  parentPath sp = Some dp ->
  slotVal (heap s) dp = VRef d -> field (heap s) d "specifiers" = VArr ls ->
  ls <> [] -> forallb (specOk (heap s)) ls = true ->
  exists r t, getReactImport name (ImportRef named sp) s = Ok r t.
Proof.
  intros Hdp Hd Hls Hne Hok.
  cut (wp (getReactImport name (ImportRef named sp)) (fun _ _ => True) s).
  { intros (r & t & E & _)%wp_Ok. eauto. }
  unfold getReactImport. rewrite Hdp.
  apply wp_bind, (wp_eq _ _ _ _ _ (pathGetList_total _ _ _ _ Hd Hls)).
  pose proof (specPaths_slots _ dp _ _ Hls) as Hslots.
  destruct (findSpecifier_total name _ _ _ Hslots Hok) as [res Hres].
  apply wp_bind, (wp_eq _ _ _ _ _ Hres).
  apply findSpecifier_post with (ns := ls) in Hres as [_ Hres]; [|done].
  destruct res as [l|].
  - destruct (firstImport (heap s) name ls) as [n|] eqn:Hfirst; [|done].
    destruct Hres as (l' & [= <-] & Hl).
    apply find_some in Hfirst as [Hin Hty].
    rewrite forallb_forall in Hok. apply Hok in Hin. unfold specOk in Hin.
    apply andb_true_iff in Hin as [_ Hin]. rewrite Hl in Hin.
    unfold imports in Hty. apply andb_true_iff in Hty as [Hty _].
    rewrite Hty in Hin. simpl in Hin.
    assert (l < length (heap s)) as Hlt.
    { destruct (field (heap s) n "imported"); try done.
      apply andb_true_iff in Hin as [_ Hin]. by apply Nat.ltb_lt. }
    destruct (lookup_lt_is_Some_2 _ _ Hlt) as [lo Hlo].
    unfold cloneNode. by apply wp_bind, (wp_getObj _ lo).
  - clear Hres Hslots Hok.
    apply wp_bind, wp_fwd; [by eexists _, _|]. intros bound s0 [= <- <-].
    apply wp_bind, wp_fwd.
    { destruct (scope_getBinding _ _ _); [|by eexists _, _].
      unfold generateUid. destruct (scope_generateUid _ _ _). by eexists _, _. }
    intros newName s1 (_ & Hheap & _)%importLocal_post.
    assert (next s1 = next s) as Hnext by (unfold next; by rewrite Hheap).
    rewrite <- Hheap in Hd, Hls. clear Hheap Hnext.
    unfold identifier at 1.
    apply wp_bind, wp_fwd; [by eexists _, _|].
    intros local s2 (-> & Hext2 & Hloc & _)%alloc_fwd.
    apply (extends_slotVal _ _ _ _ Hext2) in Hd.
    apply (extends_field _ _ _ _ _ Hext2) in Hls; [|done].
    apply wp_bind, (wp_eq _ _ _ _ _ (pathGetList_total _ _ _ _ Hd Hls)).
    destruct ls as [|x ls0 _] using rev_ind; [done|].
    rewrite specPaths_snoc, last_snoc.
    apply wp_bind, wp_fwd.
    { destruct (name =? newName)%string; by eexists _, _. }
    intros imported s3 Himp.
    assert (extends s2 s3 /\
            heap s3 !! imported = Some (mkObj "Identifier" [("name", VStr newName)]))
      as [Hext3 Hi].
    { destruct (name =? newName)%string.
      - apply ret_Ok in Himp as [-> ->]. split; [apply extends_refl|done].
      - unfold identifier in Himp. by apply alloc_fwd in Himp as (-> & ? & ? & _). }
    unfold importSpecifier.
    apply wp_bind, wp_bind, wp_assertNodeType.
    { eapply isNode_lookup;
        [eapply extends_lookup; [exact Hext3|exact Hloc]|apply prop_mkObj_type|done]. }
    apply wp_bind, wp_assertNodeType.
    { by eapply isNode_lookup; [exact Hi|apply prop_mkObj_type|]. }
    apply wp_fwd; [by eexists _, _|]. intros spec s4 (-> & Hext4 & _ & _)%alloc_fwd.
    apply (extends_field _ _ _ _ _ Hext3) in Hls; [|done].
    apply (extends_field _ _ _ _ _ Hext4) in Hls; [|done].
    unfold field in Hls. destruct (heap s4 !! d) as [o|] eqn:Ho; [|done].
    apply wp_bind, wp_fwd; [by eapply insertAfter_total|]. intros _ s5 _.
    unfold identifier. apply wp_fwd; [by eexists _, _|done].
Qed.

Lemma getReactImport_named_empty name sp dp d s :
  parentPath sp = Some dp ->
  slotVal (heap s) dp = VRef d -> field (heap s) d "specifiers" = VArr [] ->
  exists t, getReactImport name (ImportRef named sp) s
            = Throw (TypeError "Cannot read properties of undefined") t.
Proof.
  intros Hdp Hd Hls. unfold getReactImport. rewrite Hdp.
  unfold bind at 1. rewrite (pathGetList_total _ _ _ _ Hd Hls). simpl.
  unfold bind at 1. unfold bind at 1. unfold getBinding.
  unfold bind at 1.
  assert (forall nm sc, pathGetList dp "specifiers"
                          (State (heap s ++ [identifierObj nm]) sc)
                        = Ok [] (State (heap s ++ [identifierObj nm]) sc)) as Hget.
  { intros nm sc. apply (pathGetList_total _ d []); cbn [heap].
    - rewrite slotVal_app_old; [done|].
      apply slotVal_ref_ok in Hd as (o & Ho & _). by eapply lookup_lt_Some.
    - unfold field in *. destruct (heap s !! d) as [o|] eqn:Ho; [|done].
      by rewrite (lookup_app_l_Some _ _ _ _ Ho). }
  change (ret None s) with (Ok (@None loc) s). cbv beta iota.
  destruct (scope_getBinding (scope dp) name (scopes s)).
  - unfold generateUid. destruct (scope_generateUid (scope dp) name (scopes s)) as [uid sc].
    unfold bind, identifier, alloc. cbn [heap scopes]. unfold identifierObj in Hget.
    rewrite Hget. simpl. eauto.
  - unfold bind, identifier, alloc. simpl. unfold identifierObj in Hget.
    rewrite Hget. simpl. eauto.
Qed.

(** [getReactImport] for a named import of a declaration whose specifiers
    are well formed: it returns, with a copy of the local of the first
    specifier that imports [name], or after putting a new specifier at the
    end of the list; when the declaration has no specifier at all it throws
    a [TypeError], at the read of the last specifier. *)
Theorem getReactImport_named name sp dp d ls s
    (Hdp : parentPath sp = Some dp)
    (Hd : slotVal (heap s) dp = VRef d)
    (Hls : field (heap s) d "specifiers" = VArr ls)
    (Hok : forallb (specOk (heap s)) ls = true) :
  match ls with
  | [] => exists t, getReactImport name (ImportRef named sp) s
                    = Throw (TypeError "Cannot read properties of undefined") t
  | _ => exists r t,
      getReactImport name (ImportRef named sp) s = Ok r t /\
      match firstImport (heap s) name ls with
      | Some _ => importFound name dp s r t
      | None => importInserted name dp s r t
      end
  end.
Proof.
  destruct ls as [|x ls0] eqn:Els; [by eapply getReactImport_named_empty|].
  rewrite <- Els in *. assert (ls <> []) as Hne by (by rewrite Els). clear Els.
  destruct (getReactImport_named_total name sp dp d ls s) as (r & t & E); try done.
  exists r, t. split; [done|].
  destruct (getReactImport_named_inv _ _ _ _ _ _ Hdp E)
    as [(d' & ls' & n & l & Hd' & Hls' & Hfirst & H)|
        (d' & ls' & spec & lo & im & Hd' & Hls' & Hne' & Hfirst & H)].
  - assert (d' = d) as -> by congruence. assert (ls' = ls) as -> by congruence.
    rewrite Hfirst. by exists d, ls, n, l.
  - assert (d' = d) as -> by congruence. assert (ls' = ls) as -> by congruence.
    rewrite Hfirst. by exists d, ls, spec, lo, im.
Qed.

Lemma imports_frame (h h' : store) name n :
  (forall l k, l < length h -> k <> "specifiers" -> field h' l k = field h l k) ->
  specOk h n = true -> imports h' name n = imports h name n.
Proof.
  intros Hf Hok. unfold specOk in Hok. apply andb_true_iff in Hok as [Hn Hok].
  apply Nat.ltb_lt in Hn. unfold imports, importNameOf.
  rewrite !(Hf n) by done.
  destruct (bool_decide (field h n "type" = VStr "ImportSpecifier")); [|done].
  simpl in *. destruct (field h n "imported") as [| | | |imp|]; try done.
  destruct (field h n "local"); try done.
  apply andb_true_iff in Hok as [Himp _]. apply Nat.ltb_lt in Himp.
  by rewrite !(Hf imp) by done.
Qed.

Lemma firstImport_frame (h h' : store) name ls :
  (forall l k, l < length h -> k <> "specifiers" -> field h' l k = field h l k) ->
  forallb (specOk h) ls = true -> firstImport h' name ls = firstImport h name ls.
Proof.
  intros Hf. unfold firstImport. induction ls as [|n ls IH]; [done|]. simpl.
  intros [Hn Hok]%andb_true_iff. rewrite (imports_frame _ _ _ _ Hf Hn).
  by rewrite IH.
Qed.

Lemma firstImport_snoc (h : store) name ls n :
  firstImport h name ls = None ->
  firstImport h name (ls ++ [n]) = if imports h name n then Some n else None.
Proof.
  unfold firstImport. induction ls as [|x ls IH]; [done|]. simpl.
  destruct (imports h name x); [done|]. apply IH.
Qed.

(** Two requests for the same [name], when no specifier imports it at
    first.  The first request puts a specifier in.  When the name it made up
    is [name] itself (the name was free), the second request finds that
    specifier, leaves the list as it is and returns an identifier [name].
    When the made-up name differs ([name] was bound in the scope), the
    specifier imports the made-up name and not [name]: the second request
    finds no import of [name] and puts a second specifier in. *)
Theorem getReactImport_twice name sp dp d ls s r t r' t'
    (Hdp : parentPath sp = Some dp)
    (Hd : slotVal (heap s) dp = VRef d)
    (Hls : field (heap s) d "specifiers" = VArr ls)
    (Hok : forallb (specOk (heap s)) ls = true)
    (Hfirst : firstImport (heap s) name ls = None)
    (Hrun : getReactImport name (ImportRef named sp) s = Ok r t)
    (Hrun' : getReactImport name (ImportRef named sp) t = Ok r' t') :
  exists spec,
    field (heap t) d "specifiers" = VArr (ls ++ [spec]) /\
    if String.eqb (importLocal (scope dp) name (scopes s)) name
    then field (heap t') d "specifiers" = VArr (ls ++ [spec]) /\
         heap t' !! r' = Some (identifierObj name)
    else exists spec' lo im lo' im',
         spec' <> spec /\
         field (heap t') d "specifiers" = VArr (ls ++ [spec; spec']) /\
         heap t' !! spec
         = Some (mkObj "ImportSpecifier" [("local", VRef lo); ("imported", VRef im)]) /\
         heap t' !! im = Some (identifierObj (importLocal (scope dp) name (scopes s))) /\
         heap t' !! spec'
         = Some (mkObj "ImportSpecifier" [("local", VRef lo'); ("imported", VRef im')]) /\
         heap t' !! im' = Some (identifierObj (importLocal (scope dp) name (scopes t))).
Proof.
  destruct (getReactImport_named_inv _ _ _ _ _ _ Hdp Hrun)
    as [(d0 & ls0 & n & l & Hd0 & Hls0 & Hfirst0 & _)|
        (d0 & ls0 & spec & lo & im & Hd0 & Hls0 & Hne & _ & Hsc & Hnext & Hold & Hkeys &
         Hspecs & Hspec & -> & Him & Hr & Hrl & Hri & Hso & Hlo & Himo & Hro & Hiff)].
  { assert (d0 = d) as -> by congruence. assert (ls0 = ls) as -> by congruence.
    congruence. }
  assert (d0 = d) as -> by congruence. assert (ls0 = ls) as -> by congruence.
  clear Hd0 Hls0. exists spec. split; [done|].
  set (newName := importLocal (scope dp) name (scopes s)) in *.
  assert (d < next s) as Hdlt by (by eapply field_lt; [exact Hls|]).
  assert (forall l k, l < length (heap s) -> k <> "specifiers" ->
                      field (heap t) l k = field (heap s) l k) as Hframe.
  { intros l k Hl Hk. destruct (decide (l = d)) as [->|Hne']; [by apply Hkeys|].
    destruct (lookup_lt_is_Some_2 _ _ Hl) as [o Ho].
    unfold field. by rewrite Ho, (Hold _ _ Hne' Ho). }
  assert (slotVal (heap t) dp = VRef d) as Hdt.
  { unfold slotVal in *. destruct (heap s !! parent dp) as [o|] eqn:Ho; [|done].
    destruct (decide (parent dp = d)) as [Hp|Hp]; [|by rewrite (Hold _ _ Hp Ho)].
    rewrite Hp in *. unfold field in Hls, Hspecs, Hkeys. rewrite Ho in Hls, Hkeys.
    destruct (heap t !! d) as [o'|]; [|done].
    destruct (decide (key dp = "specifiers")) as [Hk|Hk].
    - rewrite Hk in *. rewrite Hls in Hd. rewrite Hspecs.
      destruct (index dp) as [i|]; [|done].
      destruct (ls !! i) as [x|] eqn:Hx; [|done]. by rewrite (lookup_app_l_Some _ _ _ _ Hx).
    - by rewrite (Hkeys _ Hk). }
  assert (firstImport (heap t) name (ls ++ [spec])
          = if String.eqb newName name then Some spec else None) as Hfirst'.
  { rewrite firstImport_snoc by (by rewrite (firstImport_frame _ _ _ _ Hframe Hok)).
    unfold imports, importNameOf. rewrite !(field_lookup _ _ _ _ Hso).
    rewrite prop_mkObj_type. rewrite bool_decide_eq_true_2 by done.
    replace (prop (mkObj "ImportSpecifier" [("local", VRef (next s)); ("imported", VRef im)])
               "imported") with (VRef im) by (by vm_compute).
    rewrite !(field_lookup _ _ _ _ Himo). unfold identifierObj.
    rewrite prop_mkObj_type.
    rewrite (bool_decide_eq_false_2 (VStr "Identifier" = VStr "StringLiteral")) by discriminate.
    replace (prop (mkObj "Identifier" [("name", VStr newName)]) "name")
      with (VStr newName) by (by vm_compute).
    simpl. destruct (String.eqb_spec newName name) as [->|Hn].
    - by rewrite bool_decide_eq_true_2.
    - rewrite bool_decide_eq_false_2; [done|congruence]. }
  destruct (getReactImport_named_inv _ _ _ _ _ _ Hdp Hrun')
    as [(d1 & ls1 & n & l & Hd1 & Hls1 & Hfirst1 & Hl & Hext & -> & Hcopy)|
        (d1 & ls1 & spec' & lo' & im' & Hd1 & Hls1 & _ & Hfirst1 & _ & _ & Hold' & _ &
         Hspecs' & Hspec' & _ & _ & _ & _ & _ & Hso' & _ & Himo' & _)].
  - assert (d1 = d) as -> by congruence. assert (ls1 = ls ++ [spec]) as -> by congruence.
    rewrite Hfirst' in Hfirst1. destruct (String.eqb_spec newName name) as [Hn|]; [|done].
    injection Hfirst1 as <-. split.
    + eapply extends_field; [done|done|done].
    + rewrite Hcopy. rewrite (field_lookup _ _ _ _ Hso) in Hl.
      assert (prop (mkObj "ImportSpecifier" [("local", VRef (next s)); ("imported", VRef im)])
                "local" = VRef (next s)) as E by (by vm_compute).
      rewrite E in Hl. injection Hl as <-.
      by rewrite Hlo, Hn.
  - assert (d1 = d) as -> by congruence. assert (ls1 = ls ++ [spec]) as -> by congruence.
    rewrite Hfirst' in Hfirst1. destruct (String.eqb_spec newName name) as [|Hn]; [done|].
    exists spec', (next s), im, lo', im'.
    pose proof (lookup_lt_Some _ _ _ Hso). pose proof (lookup_lt_Some _ _ _ Himo).
    unfold next in *.
    split; [lia|]. split. { rewrite Hspecs'. f_equal. symmetry. apply (app_assoc ls [spec] [spec']). }
    split; [apply Hold'; [lia|done]|]. split; [apply Hold'; [lia|done]|].
    by split.
Qed.

(** ** The type entity *)










(** ** Type arguments of the hooks *)

Lemma mapM_pathNode_Ok ps : forall s ns t,
  mapM pathNode ps s = Ok ns t ->
  t = s /\ Forall2 (fun p n => slotVal (heap s) p = VRef n) ps ns.
Proof.
  induction ps as [|p ps IH]; intros s ns t H; simpl in H.
  - apply ret_Ok in H as [-> ->]. by split.
  - apply bind_Ok in H as (n & s1 & Hn & H). apply pathNode_Ok in Hn as [-> Hn].
    apply bind_Ok in H as (ns' & s2 & Hns & H). apply IH in Hns as [-> Hns].
    apply ret_Ok in H as [-> ->]. split; [done|]. by constructor.
Qed.

(** The call [call] has the one type argument [ty]. *)
Definition instantiated (h : store) (call ty : loc) : Prop :=
  exists inst,
    field h call "typeParameters" = VRef inst /\
    h !! inst = Some (mkObj "TSTypeParameterInstantiation" [("params", VArr [ty])]).

(** The type argument that lines 223-236 give the call of [useState]: none
    outside TypeScript or without an annotation; the annotation itself; or,
    for a method, the function type of its parameters and return type. *)
Definition stateTyped (ts : bool) (h : store) (sf : StateField) (call : loc) : Prop :=
  match ts, typeAnnotation sf with
  | true, Some (SimpleAnnotation p) =>
      exists n, instantiated h call n /\ slotVal h p = VRef n
  | true, Some (MethodAnnotation params returnType) =>
      exists ft ann ps r,
        instantiated h call ft /\
        h !! ft = Some (mkObj "TSFunctionType"
                          [("typeParameters", VNull); ("parameters", VArr ps);
                           ("typeAnnotation", VRef ann)]) /\
        h !! ann = Some (mkObj "TSTypeAnnotation" [("typeAnnotation", VRef r)]) /\
        Forall2 (fun p n => slotVal h p = VRef n) params ps /\
        slotVal h returnType = VRef r
  | _, _ => field h call "typeParameters" = VUndef
  end.

(** The type argument that lines 280-287 and 300-307 give the call of
    [useRef]. *)
Definition refTyped (ts : bool) (h : store) (f : UserField) (call : loc) : Prop :=
  match ts, field_typeAnnotation f with
  | true, Some ta => exists n, instantiated h call n /\ slotVal h ta = VRef n
  | _, _ => field h call "typeParameters" = VUndef
  end.

(** [d] is a [const] declaration of one variable, initialised by the call
    [call]. *)
Definition declaresCall (h : store) (d call : loc) : Prop :=
  exists dr,
    field h d "type" = VStr "VariableDeclaration" /\
    field h d "declarations" = VArr [dr] /\
    field h dr "init" = VRef call /\
    field h call "type" = VStr "CallExpression".

Lemma Forall2_slots_extends s t ps ns :
  extends s t ->
  Forall2 (fun p n => slotVal (heap s) p = VRef n) ps ns ->
  Forall2 (fun p n => slotVal (heap t) p = VRef n) ps ns.
Proof.
  intros Hext H. eapply Forall2_impl; [exact H|]. intros p n. by apply extends_slotVal.
Qed.

(** A write to a property that was [undefined] changes no slot that held a
    node. *)
Lemma wrote_fresh_slot l0 k0 v0 s t p n :
  wrote l0 k0 v0 s t -> field (heap s) l0 k0 = VUndef ->
  slotVal (heap s) p = VRef n -> slotVal (heap t) p = VRef n.
Proof.
  intros Hw Hu Hp. destruct (decide (key p = k0)) as [Hk|Hk];
    [|by rewrite (wrote_slot_ne _ _ _ _ _ _ Hw Hk)].
  destruct Hw as (o & Ho & Hnew & Hkeep). unfold slotVal in *.
  destruct (heap s !! parent p) as [x|] eqn:Hx; [|done].
  destruct (decide (parent p = l0)) as [Hl|Hl];
    [|by rewrite (keeps_lookup _ _ _ _ _ Hkeep Hl Hx)].
  rewrite Hl, Ho in Hx. injection Hx as <-.
  unfold field in Hu. rewrite Ho in Hu. rewrite Hk, Hu in Hp. by destruct (index p).
Qed.

Lemma Forall2_slots_wrote l0 k0 v0 s t ps ns :
  wrote l0 k0 v0 s t -> field (heap s) l0 k0 = VUndef ->
  Forall2 (fun p n => slotVal (heap s) p = VRef n) ps ns ->
  Forall2 (fun p n => slotVal (heap t) p = VRef n) ps ns.
Proof.
  intros Hw Hu H. eapply Forall2_impl; [exact H|]. intros p n.
  by apply (wrote_fresh_slot _ _ _ _ _ _ _ Hw Hu).
Qed.

(** The write of [typeParameters] on the call made at [c], and the states
    before and after it. *)
Ltac typed_write c t :=
  match goal with
  | Hk : keeps c ?u ?v, Hn : heap ?v !! c = Some (<["typeParameters" := ?w]> _) |- _ =>
      assert (extends v t) as Hext2 by chain_ext;
      assert (wrote c "typeParameters" w u v) as Hw
        by (eexists; split; [chain_lookup|split; [exact Hn|exact Hk]]);
      assert (field (heap u) c "typeParameters" = VUndef) as Hu by chain_field
  end.

Ltac declares_call :=
  eexists; split; [chain_field|]; split; [chain_field|]; split; chain_field.

Lemma stateDeclaration_typed head ts sf s d t :
  stateDeclaration head ts sf s = Ok d t ->
  exists call, declaresCall (heap t) d call /\ stateTyped ts (heap t) sf call.
Proof.
  intros H. unfold stateDeclaration in H.
  apply bind_Ok in H as (callee & s1 & _ & H).
  apply bind_Ok in H as (args & s2 & _ & H).
  unfold_builders H. unfold stateTyped, declaresCall, instantiated.
  apply bind_Ok in H as (call & s3 & Hcall & H).
  apply bind_Ok in H as (a & s4 & Ha & H). apply bind_Ok in H as (b & s5 & Hb & H).
  apply bind_Ok in H as (pat & s6 & Hpat & H).
  apply bind_Ok in H as (value & s7 & Hv & H).
  destruct ts; [destruct (typeAnnotation sf) as [[params rt|ap]|]|].
  - apply bind_Ok in Hv as (ps & s8 & Hps & Hv).
    apply mapM_pathNode_Ok in Hps as [-> Hps].
    apply bind_Ok in Hv as (r & s8 & Hr & Hv). apply pathNode_Ok in Hr as [-> Hr].
    fwd. sizes. typed_write (next s2) t.
    exists (next s2). split; [declares_call|].
    eexists _, _, ps, r. split; [eexists; split; [chain_field|chain_lookup]|].
    split; [chain_lookup|]. split; [chain_lookup|]. split.
    + eapply Forall2_slots_extends; [exact Hext2|].
      eapply Forall2_slots_wrote; [exact Hw|exact Hu|].
      eapply Forall2_slots_extends; [|exact Hps]. chain_ext.
    + eapply extends_slotVal; [exact Hext2|].
      eapply wrote_fresh_slot; [exact Hw|exact Hu|].
      eapply extends_slotVal; [|exact Hr]. chain_ext.
  - apply bind_Ok in Hv as (n & s8 & Hn & Hv). apply pathNode_Ok in Hn as [-> Hn].
    fwd. sizes. typed_write (next s2) t.
    exists (next s2). split; [declares_call|].
    exists n. split; [eexists; split; [chain_field|chain_lookup]|].
    eapply extends_slotVal; [exact Hext2|].
    eapply wrote_fresh_slot; [exact Hw|exact Hu|].
    eapply extends_slotVal; [|exact Hn]. chain_ext.
  - fwd. sizes. exists (next s2). split; [declares_call|chain_field].
  - fwd. sizes. exists (next s2). split; [declares_call|chain_field].
Qed.

Lemma refDeclaration_typed head ts f seed s d t :
  refDeclaration head ts f seed s = Ok d t ->
  exists call, declaresCall (heap t) d call /\ refTyped ts (heap t) f call.
Proof.
  intros H. unfold refDeclaration in H.
  apply bind_Ok in H as (callee & s1 & _ & H).
  apply bind_Ok in H as (arg & s2 & _ & H).
  unfold_builders H. unfold refTyped, declaresCall, instantiated.
  apply bind_Ok in H as (call & s3 & Hcall & H).
  apply bind_Ok in H as (id & s4 & Ha & H).
  apply bind_Ok in H as (value & s7 & Hv & H).
  destruct ts; [destruct (field_typeAnnotation f) as [ta|]|].
  - apply bind_Ok in Hv as (n & s8 & Hn & Hv). apply pathNode_Ok in Hn as [-> Hn].
    fwd. sizes. typed_write (next s2) t.
    exists (next s2). split; [declares_call|].
    exists n. split; [eexists; split; [chain_field|chain_lookup]|].
    eapply extends_slotVal; [exact Hext2|].
    eapply wrote_fresh_slot; [exact Hw|exact Hu|].
    eapply extends_slotVal; [|exact Hn]. chain_ext.
  - fwd. sizes. exists (next s2). split; [declares_call|chain_field].
  - fwd. sizes. exists (next s2). split; [declares_call|chain_field].
Qed.

(** The hooks are given a type argument in TypeScript only, and only for a
    field with a recorded annotation: the declaration of a state field
    initialises its pattern with the call of [useState], and that of a ref
    with the call of [useRef]; the call has the one type argument of the
    annotation (for a state field typed by a method, the function type of
    its parameters and return type), and no [typeParameters] otherwise. *)
Theorem hooks_type_arguments head ts s d t :
  (forall sf, stateDeclaration head ts sf s = Ok d t ->
     exists call, declaresCall (heap t) d call /\ stateTyped ts (heap t) sf call) /\
  (forall f, (forall fn, field_type f <> user_defined_function fn) ->
     fieldDeclaration head ts f s = Ok d t ->
     exists call, declaresCall (heap t) d call /\ refTyped ts (heap t) f call).
Proof.
  split; [intros sf; apply stateDeclaration_typed|].
  intros f Hf H. unfold fieldDeclaration in H.
  destruct (field_type f) as [fn| |ri]; [by destruct (Hf fn)| |];
    by eapply refDeclaration_typed.
Qed.

(** C10: [toTSEntity] returns only on an expression built from identifiers
    and non-computed member accesses with an identifier as property, and
    returns on every such expression given the calls it needs (identifiers
    and qualified names being entity names in Babel's table); on any other
    shape it throws a plain [Error] naming the node type, and that error,
    thrown by the transformation of a class, is not caught by the visitor: it
    ends the run. *)
Theorem C10_type_entity_or_abort fuel e s :
  (forall r t, toTSEntity_rec fuel e s = Ok r t ->
     exists d, entityExpr (heap s) e d) /\
  (forall d, entityExpr (heap s) e d -> d < fuel ->
     aliasHas "TSEntityName" "Identifier" = true ->
     aliasHas "TSEntityName" "TSQualifiedName" = true ->
     exists r t, toTSEntity_rec fuel e s = Ok r t) /\
  (forall d ty, otherExpr (heap s) e d ty -> d < fuel ->
     toTSEntity_rec fuel e s
     = Throw (Error ("Cannot convert to TSEntityName: " +:+ showVal ty)) s) /\
  (forall ts p head declPath body m t,
     analyzeHead p s = Some head -> parentPath p = Some declPath ->
     analyzeBody p head s = inr body ->
     transformClass head body ts s = Throw (Error m) t ->
     ClassDeclaration ts p s = Throw (Error m) t /\
     forall ps, visitAll ts (p :: ps) s = Throw (Error m) t).
Proof.
  split; [|split; [|split]].
  - intros r t. apply toTSEntity_only.
  - intros d Hd Hf Hid Hqn.
    destruct (toTSEntity_succeeds fuel Hid Hqn s e d Hd Hf) as (r & t & H & _).
    eauto.
  - intros d ty. apply toTSEntity_throws.
  - intros ts p head declPath body m t Hh Hp Hb Ht.
    apply (ClassDeclaration_rethrows ts p s head declPath); eauto.
Qed.

End Declassify.

Arguments Ok {ScopeState A} a s.
Arguments Throw {ScopeState A} e s.
Arguments State {ScopeState} heap scopes.
Arguments heap {ScopeState} s.
Arguments next {ScopeState} s.
Arguments scopes {ScopeState} s.
Arguments functionDeclarationFrom {ScopeState} aliasHas node name.
Arguments functionExpressionFrom {ScopeState} aliasHas node name.
Arguments arrowFunctionExpressionFrom {ScopeState} aliasHas node.

(** * Concrete trees *)

(** Reading a tree: [fetch h v [F "body"; F "type"]] is [v.body.type]. *)
Inductive step := F (k : string) | I (i : nat).

Fixpoint fetch (h : store) (v : val) (steps : list step) : val :=
  match steps with
  | [] => v
  | F k :: rest =>
      match v with
      | VRef l => match h !! l with
                  | Some o => fetch h (prop o k) rest
                  | None => VUndef
                  end
      | _ => VUndef
      end
  | I i :: rest =>
      match v with
      | VArr ls => match ls !! i with
                   | Some l => fetch h (VRef l) rest
                   | None => VUndef
                   end
      | _ => VUndef
      end
  end.

(** What a computation returns, read along [steps]. *)
Definition resultAt {ScopeState} (r : outcome ScopeState loc) (steps : list step)
    : option val :=
  match r with
  | Ok f t => Some (fetch (heap t) (VRef f) steps)
  | Throw _ _ => None
  end.

(** The store that holds the objects [os] at locations [0], [1], ... *)
Definition mkState {ScopeState} (os : list obj) (sc : ScopeState) : state ScopeState :=
  State os sc.

(** The node types under the aliases that the builders check, in
    [@babel/types] 7. *)
Definition babel_aliases : list (string * list string) :=
  [("Expression",
    ["ArrayExpression"; "AssignmentExpression"; "BinaryExpression"; "CallExpression";
     "ConditionalExpression"; "FunctionExpression"; "Identifier"; "StringLiteral";
     "NumericLiteral"; "NullLiteral"; "BooleanLiteral"; "RegExpLiteral";
     "LogicalExpression"; "MemberExpression"; "NewExpression"; "ObjectExpression";
     "SequenceExpression"; "ParenthesizedExpression"; "ThisExpression";
     "UnaryExpression"; "UpdateExpression"; "ArrowFunctionExpression";
     "ClassExpression"; "MetaProperty"; "Super"; "TaggedTemplateExpression";
     "TemplateLiteral"; "YieldExpression"; "AwaitExpression"; "Import";
     "BigIntLiteral"; "OptionalMemberExpression"; "OptionalCallExpression";
     "TypeCastExpression"; "JSXElement"; "JSXFragment"; "BindExpression";
     "DoExpression"; "RecordExpression"; "TupleExpression"; "DecimalLiteral";
     "ModuleExpression"; "TopicReference"; "PipelineTopicExpression";
     "PipelineBareFunction"; "PipelinePrimaryTopicReference";
     "TSInstantiationExpression"; "TSAsExpression"; "TSSatisfiesExpression";
     "TSTypeAssertion"; "TSNonNullExpression"]);
   ("Pattern", ["AssignmentPattern"; "ArrayPattern"; "ObjectPattern"]);
   ("PatternLike",
    ["Identifier"; "RestElement"; "AssignmentPattern"; "ArrayPattern"; "ObjectPattern";
     "TSAsExpression"; "TSSatisfiesExpression"; "TSTypeAssertion";
     "TSNonNullExpression"]);
   ("LVal",
    ["Identifier"; "MemberExpression"; "RestElement"; "AssignmentPattern";
     "ArrayPattern"; "ObjectPattern"; "TSParameterProperty"; "TSAsExpression";
     "TSSatisfiesExpression"; "TSTypeAssertion"; "TSNonNullExpression"]);
   ("Statement",
    ["BlockStatement"; "BreakStatement"; "ContinueStatement"; "DebuggerStatement";
     "DoWhileStatement"; "EmptyStatement"; "ExpressionStatement"; "ForInStatement";
     "ForStatement"; "FunctionDeclaration"; "IfStatement"; "LabeledStatement";
     "ReturnStatement"; "SwitchStatement"; "ThrowStatement"; "TryStatement";
     "VariableDeclaration"; "WhileStatement"; "WithStatement"; "ClassDeclaration";
     "ExportAllDeclaration"; "ExportDefaultDeclaration"; "ExportNamedDeclaration";
     "ForOfStatement"; "ImportDeclaration"; "DeclareClass"; "DeclareFunction";
     "DeclareInterface"; "DeclareModule"; "DeclareModuleExports"; "DeclareTypeAlias";
     "DeclareOpaqueType"; "DeclareVariable"; "DeclareExportDeclaration";
     "DeclareExportAllDeclaration"; "InterfaceDeclaration"; "OpaqueType"; "TypeAlias";
     "EnumDeclaration"; "TSDeclareFunction"; "TSInterfaceDeclaration";
     "TSTypeAliasDeclaration"; "TSEnumDeclaration"; "TSModuleDeclaration";
     "TSImportEqualsDeclaration"; "TSExportAssignment";
     "TSNamespaceExportDeclaration"]);
   ("TSType",
    ["TSAnyKeyword"; "TSBooleanKeyword"; "TSBigIntKeyword"; "TSIntrinsicKeyword";
     "TSNeverKeyword"; "TSNullKeyword"; "TSNumberKeyword"; "TSObjectKeyword";
     "TSStringKeyword"; "TSSymbolKeyword"; "TSUndefinedKeyword"; "TSUnknownKeyword";
     "TSVoidKeyword"; "TSThisType"; "TSFunctionType"; "TSConstructorType";
     "TSTypeReference"; "TSTypePredicate"; "TSTypeQuery"; "TSTypeLiteral";
     "TSArrayType"; "TSTupleType"; "TSOptionalType"; "TSRestType"; "TSUnionType";
     "TSIntersectionType"; "TSConditionalType"; "TSInferType"; "TSParenthesizedType";
     "TSTypeOperator"; "TSIndexedAccessType"; "TSMappedType"; "TSLiteralType";
     "TSExpressionWithTypeArguments"; "TSImportType"]);
   ("TSEntityName", ["Identifier"; "TSQualifiedName"])].

Definition babel_alias (alias ty : string) : bool :=
  existsb (fun '(a, tys) => String.eqb a alias && existsb (String.eqb ty) tys)
    babel_aliases.

(** [() => x] *)
Definition arrow_x_node : obj :=
  mkObj "ArrowFunctionExpression"
    [("params", VArr []); ("body", VRef 1); ("async", VBool false);
     ("generator", VBool false); ("expression", VBool true)].
Definition x_node : obj := mkObj "Identifier" [("name", VStr "x")].
Definition arrow_x : state unit := mkState [arrow_x_node; x_node] tt.

(** C6 fails as stated: converted to an arrow expression, [() => x] keeps
    the identifier [x] as its body; no block with a return statement is made. *)
Lemma C6_counterexample :
  resultAt (arrowFunctionExpressionFrom babel_alias 0 arrow_x) [F "body"; F "type"]
  = Some (VStr "Identifier").
Proof. vm_compute. reflexivity. Qed.

(** The other two conversions make the block [{ return x; }] of it. *)
Example arrow_x_block :
  resultAt (functionExpressionFrom babel_alias 0 VUndef arrow_x)
    [F "body"; F "body"; I 0; F "argument"; F "name"]
  = Some (VStr "x").
Proof. vm_compute. reflexivity. Qed.

(** [async function* g(a): T {}] *)
Definition generator_node : obj :=
  mkObj "FunctionExpression"
    [("id", VRef 1); ("params", VArr [2]); ("body", VRef 3);
     ("generator", VBool true); ("async", VBool true); ("returnType", VRef 4)].
Definition generator_g : state unit :=
  mkState
    [ generator_node;
      mkObj "Identifier" [("name", VStr "g")];
      mkObj "Identifier" [("name", VStr "a")];
      mkObj "BlockStatement" [("body", VArr []); ("directives", VArr [])];
      mkObj "TSTypeAnnotation" [("typeAnnotation", VRef 5)];
      mkObj "TSTypeReference" [("typeName", VRef 6)];
      mkObj "Identifier" [("name", VStr "T")] ] tt.

Lemma C6_witness :
  (exists f t, functionDeclarationFrom babel_alias 0 VUndef generator_g = Ok f t /\
     normalizedFunction "FunctionDeclaration" generator_node VUndef (heap t) f) /\
  (exists f t, functionExpressionFrom babel_alias 0 VUndef generator_g = Ok f t /\
     normalizedFunction "FunctionExpression" generator_node VUndef (heap t) f) /\
  (exists f t, arrowFunctionExpressionFrom babel_alias 0 generator_g = Ok f t /\
     arrowOf generator_node (heap t) f).
Proof.
  apply (C6_normalizer_conversions unit babel_alias 0 VUndef generator_node generator_g);
    vm_compute; reflexivity.
Defined.

(** The flags and the annotation of [async function* g(a): T {}], in the
    function declaration made of it. *)
Example generator_carried :
  let r := functionDeclarationFrom babel_alias 0 VUndef generator_g in
  (resultAt r [F "generator"], resultAt r [F "async"],
   resultAt r [F "returnType"; F "typeAnnotation"; F "typeName"; F "name"],
   resultAt r [F "id"; F "name"])
  = (Some (VBool true), Some (VBool true), Some (VStr "T"), Some (VStr "g")).
Proof. vm_compute. reflexivity. Qed.

(** The builders check their arguments: a function whose [generator] is the
    text [yes] is refused, with Babel's message. *)
Example generator_refused :
  functionDeclarationFrom babel_alias 0 VUndef
    (mkState [<["generator" := VStr "yes"]> generator_node;
              mkObj "Identifier" [("name", VStr "g")];
              mkObj "Identifier" [("name", VStr "a")];
              mkObj "BlockStatement" [("body", VArr []); ("directives", VArr [])]] tt)
  = Throw (TypeError "Property generator expected type of boolean but got string")
      (mkState [<["generator" := VStr "yes"]> generator_node;
                mkObj "Identifier" [("name", VStr "g")];
                mkObj "Identifier" [("name", VStr "a")];
                mkObj "BlockStatement" [("body", VArr []); ("directives", VArr [])]] tt).
Proof. vm_compute. reflexivity. Qed.

(** * A component, run through the rewriter

    [import React from "react";
     type Props = { step: number };
     class Counter extends React.Component<Props> {
       state = { count: 0 };
       box = React.createRef();
       timer = 5;
       bump() { this.setState({ count: this.state.count + 1 }); }
       render() {
         return show(this.state.count, this.box, this.timer, this.bump,
                     this.props.step);
       }
       static defaultProps = { step: 1 };
     }] *)

(** A scope tracker for the examples: the names bound so far.  [generateUid]
    is Babel's: [_name], then [_name2], [_name3], ... *)
Definition Names := list string.

Definition bound (name : string) (st : Names) : bool := existsb (String.eqb name) st.

Definition digit (d : nat) : string :=
  String (Ascii.ascii_of_nat (48 + d)) EmptyString.

Fixpoint uidFrom (fuel i : nat) (name : string) (st : Names) : string :=
  let candidate := "_" +:+ name +:+ (if Nat.ltb 1 i then digit i else "") in
  match fuel with
  | 0 => candidate
  | S fuel' => if bound candidate st then uidFrom fuel' (S i) name st else candidate
  end.

Definition ex_getBinding (_ : Scope) (name : string) (st : Names) : bool := bound name st.
Definition ex_generateUid (_ : Scope) (name : string) (st : Names) : string * Names :=
  let uid := uidFrom (length st) 1 name st in (uid, uid :: st).
Definition ex_rename (_ : Scope) (_ _ : string) (s : state Names) : state Names := s.
Definition ex_remove (_ : path) (s : state Names) : state Names := s.
Definition ex_needsProps (body : ComponentBody) : bool :=
  Nat.ltb 0 (length (props_sites body))
  || existsb (fun np => needsAlias np.2) (props body).

Definition node (ty : string) (fields : list (string * val)) : obj := mkObj ty fields.
Definition ident (name : string) : obj := mkObj "Identifier" [("name", VStr name)].
Definition num (n : string) : obj := mkObj "NumericLiteral" [("value", VStr n)].
Definition member (object property : loc) : obj :=
  mkObj "MemberExpression"
    [("object", VRef object); ("property", VRef property); ("computed", VBool false)].
Definition slot (l : loc) (k : string) : path := Path None l k None 0.
Definition item (l : loc) (k : string) (i : nat) : path := Path None l k (Some i) 0.

Definition counter_class : obj :=
  node "ClassDeclaration"
    [("id", VRef 13); ("superClass", VRef 15);
     ("superTypeParameters", VRef 18); ("body", VRef 21)].

Definition counter_heap : store :=
  [ (* 0 *) node "File" [("program", VRef 1)];
    (* 1 *) node "Program" [("body", VArr [2; 6; 14])];
    (* 2 *) node "ImportDeclaration" [("specifiers", VArr [3]); ("source", VRef 5)];
    (* 3 *) node "ImportDefaultSpecifier" [("local", VRef 4)];
    (* 4 *) ident "React";
    (* 5 *) node "StringLiteral" [("value", VStr "react")];
    (* 6 *) node "TSTypeAliasDeclaration" [("id", VRef 7); ("typeAnnotation", VRef 8)];
    (* 7 *) ident "Props";
    (* 8 *) node "TSTypeLiteral" [("members", VArr [9])];
    (* 9 *) node "TSPropertySignature" [("key", VRef 10); ("typeAnnotation", VRef 11)];
    (* 10 *) ident "step";
    (* 11 *) node "TSTypeAnnotation" [("typeAnnotation", VRef 12)];
    (* 12 *) node "TSNumberKeyword" [];
    (* 13 *) ident "Counter";
    (* 14 *) counter_class;
    (* 15 *) member 16 17;
    (* 16 *) ident "React";
    (* 17 *) ident "Component";
    (* 18 *) node "TSTypeParameterInstantiation" [("params", VArr [19])];
    (* 19 *) node "TSTypeReference" [("typeName", VRef 20)];
    (* 20 *) ident "Props";
    (* 21 *) node "ClassBody" [("body", VArr [22; 28; 33; 36; 50; 61])];
    (* 22 *) node "ClassProperty" [("key", VRef 23); ("value", VRef 24)];
    (* 23 *) ident "state";
    (* 24 *) node "ObjectExpression" [("properties", VArr [25])];
    (* 25 *) node "ObjectProperty" [("key", VRef 26); ("value", VRef 27)];
    (* 26 *) ident "count";
    (* 27 *) num "0";
    (* 28 *) node "ClassProperty" [("key", VRef 29); ("value", VRef 30)];
    (* 29 *) ident "box";
    (* 30 *) node "CallExpression" [("callee", VRef 31); ("arguments", VArr [])];
    (* 31 *) member 16 32;
    (* 32 *) ident "createRef";
    (* 33 *) node "ClassProperty" [("key", VRef 34); ("value", VRef 35)];
    (* 34 *) ident "timer";
    (* 35 *) num "5";
    (* 36 *) node "ClassMethod"
               [("key", VRef 37); ("params", VArr []); ("body", VRef 38);
                ("generator", VBool false); ("async", VBool false)];
    (* 37 *) ident "bump";
    (* 38 *) node "BlockStatement" [("body", VArr [39]); ("directives", VArr [])];
    (* 39 *) node "ExpressionStatement" [("expression", VRef 40)];
    (* 40 *) node "CallExpression" [("callee", VRef 41); ("arguments", VArr [42])];
    (* 41 *) member 48 49;
    (* 42 *) node "ObjectExpression" [("properties", VArr [43])];
    (* 43 *) node "ObjectProperty" [("key", VRef 44); ("value", VRef 45)];
    (* 44 *) ident "count";
    (* 45 *) node "BinaryExpression"
               [("operator", VStr "+"); ("left", VRef 46); ("right", VRef 47)];
    (* 46 *) member 67 26;
    (* 47 *) num "1";
    (* 48 *) node "ThisExpression" [];
    (* 49 *) ident "setState";
    (* 50 *) node "ClassMethod"
               [("key", VRef 51); ("params", VArr []); ("body", VRef 52);
                ("generator", VBool false); ("async", VBool false)];
    (* 51 *) ident "render";
    (* 52 *) node "BlockStatement" [("body", VArr [53]); ("directives", VArr [])];
    (* 53 *) node "ReturnStatement" [("argument", VRef 54)];
    (* 54 *) node "CallExpression"
               [("callee", VRef 55); ("arguments", VArr [56; 57; 58; 59; 60])];
    (* 55 *) ident "show";
    (* 56 *) member 67 26;
    (* 57 *) member 48 29;
    (* 58 *) member 48 34;
    (* 59 *) member 48 37;
    (* 60 *) member 68 65;
    (* 61 *) node "ClassProperty"
               [("key", VRef 62); ("value", VRef 63); ("static", VBool true)];
    (* 62 *) ident "defaultProps";
    (* 63 *) node "ObjectExpression" [("properties", VArr [64])];
    (* 64 *) node "ObjectProperty" [("key", VRef 65); ("value", VRef 66)];
    (* 65 *) ident "step";
    (* 66 *) num "1";
    (* 67 *) member 48 23;
    (* 68 *) member 48 69;
    (* 69 *) ident "props" ].

Definition counter : state Names := State counter_heap [].

Definition programPath : path := slot 0 "program".
Definition importPath : path := Path (Some programPath) 1 "body" (Some 0) 0.
Definition reactSpec : path := Path (Some importPath) 2 "specifiers" (Some 0) 0.
Definition counterPath : path := Path (Some programPath) 1 "body" (Some 2) 0.

Definition counter_head : ComponentHead :=
  {| superClassRef := ImportRef ns reactSpec;
     head_props := Some (item 18 "params" 0) |}.

Definition step_prop : PropBinding :=
  {| aliases := [];
     newAliasName := "step";
     defaultValue := Some (slot 64 "value");
     typing := Some (item 8 "members" 0);
     needsAlias := true;
     prop_sites := [item 54 "arguments" 4] |}.

Definition count_state : StateField :=
  {| localName := "count";
     localSetterName := "setCount";
     init := Some (slot 25 "value");
     typeAnnotation := None;
     state_sites :=
       [StateExpr (item 54 "arguments" 0);
        StateExpr (slot 45 "left");
        StateSetState (slot 39 "expression") (slot 43 "value")] |}.

Definition box_field : UserField :=
  {| field_type := user_defined_ref;
     field_localName := "box";
     field_typeAnnotation := None;
     field_sites := [{| fsite_type := "expr"; fsite_path := item 54 "arguments" 1 |}] |}.

Definition timer_field : UserField :=
  {| field_type := user_defined_direct_ref (slot 33 "value");
     field_localName := "timer";
     field_typeAnnotation := None;
     field_sites := [{| fsite_type := "expr"; fsite_path := item 54 "arguments" 2 |}] |}.

Definition bump_field : UserField :=
  {| field_type := user_defined_function (MethodInit (item 21 "body" 3));
     field_localName := "bump";
     field_typeAnnotation := None;
     field_sites := [{| fsite_type := "expr"; fsite_path := item 54 "arguments" 3 |}] |}.

Definition counter_body : ComponentBody :=
  {| props := [("step", step_prop)];
     hasDefaults := true;
     props_sites := [];
     body_state := [("count", count_state)];
     fields := [("box", box_field); ("timer", timer_field); ("bump", bump_field)];
     removePaths := [];
     render_path := item 21 "body" 4;
     renames := [] |}.

Definition counter_run : outcome Names (loc * val) :=
  transformClass Names babel_alias ex_getBinding ex_generateUid ex_rename ex_remove ex_needsProps
    counter_head counter_body true counter.

Definition final {A} (r : outcome Names A) : state Names :=
  match r with Ok _ t => t | Throw _ t => t end.

Definition counter_out : state Names := final counter_run.
Definition counter_f : loc :=
  Eval vm_compute in match counter_run with Ok (f, _) _ => f | Throw _ _ => 0 end.
Definition counter_ty : val :=
  Eval vm_compute in match counter_run with Ok (_, ty) _ => ty | Throw _ _ => VUndef end.

(** The analysis, as it comes out on the component. *)
Definition ex_analyzeHead (_ : path) (_ : state Names) : option ComponentHead :=
  Some counter_head.
Definition ex_analyzeBody (_ : path) (_ : ComponentHead) (_ : state Names)
    : exn + ComponentBody := inr counter_body.
(** An analysis that gives up. *)
Definition ex_rejectBody (_ : path) (_ : ComponentHead) (_ : state Names)
    : exn + ComponentBody := inl (AnalysisError "Unsupported member").

Definition ex_ClassDeclaration analyzeBody :=
  ClassDeclaration Names babel_alias ex_getBinding ex_generateUid ex_rename ex_remove ex_needsProps
    ex_analyzeHead analyzeBody.
Definition ex_visitAll analyzeBody :=
  visitAll Names babel_alias ex_getBinding ex_generateUid ex_rename ex_remove ex_needsProps
    ex_analyzeHead analyzeBody.

(** The statements of the function made of [Counter], and what its sites
    hold. *)
Example counter_statements :
  map (fun i => fetch (heap counter_out) (VRef counter_f) [F "body"; F "body"; I i; F "type"])
      [0; 1; 2; 3; 4; 5]
  = [VStr "VariableDeclaration"; VStr "VariableDeclaration"; VStr "VariableDeclaration";
     VStr "VariableDeclaration"; VStr "FunctionDeclaration"; VStr "ReturnStatement"].
Proof. vm_compute. reflexivity. Qed.

Example counter_sites :
  map (fun i => (fetch (heap counter_out) (VRef 54) [F "arguments"; I i; F "type"],
                 fetch (heap counter_out) (VRef 54) [F "arguments"; I i; F "name"]))
      [0; 1; 2; 3; 4]
  = [(VStr "Identifier", VStr "count"); (VStr "Identifier", VStr "box");
     (VStr "MemberExpression", VUndef); (VStr "Identifier", VStr "bump");
     (VStr "Identifier", VStr "step")].
Proof. vm_compute. reflexivity. Qed.

Lemma C1_witness :
  exists t,
    ex_ClassDeclaration ex_rejectBody true counterPath counter = Ok tt t /\
    (forall ps, ex_visitAll ex_rejectBody true (counterPath :: ps) counter
                = ex_visitAll ex_rejectBody true ps t) /\
    scopes t = scopes counter /\
    next t = S (next counter) /\
    heap t !! next counter
    = Some (filled (VBool true) (VBool false)
              (mkObj "CommentBlock" [("value", VStr (disableText "Unsupported member"))])) /\
    heap t !! 14
    = Some (<["original" := VUndef]>
              (<["comments" := VArr ((next counter :: []) ++ [] ++ [])]>
                 (<["leadingComments" := VArr (next counter :: [])]> counter_class))) /\
    (forall l (x : obj), l <> 14 -> heap counter !! l = Some x ->
       heap t !! l = Some (flagged [] [] l x)).
Proof.
  apply (proj1 (C1_diagnostic_boundary Names babel_alias ex_getBinding ex_generateUid ex_rename
                  ex_remove ex_needsProps ex_analyzeHead ex_rejectBody true counterPath
                  counter counter_head programPath eq_refl eq_refl)
           "Unsupported member" 14 counter_class [] [] []).
  - reflexivity.
  - vm_compute. reflexivity.
  - vm_compute. reflexivity.
  - vm_compute. lia.
  - reflexivity.
  - reflexivity.
  - reflexivity.
  - intros H. by apply elem_of_nil in H.
  - intros x H. by apply elem_of_nil in H.
Defined.

(** A run that returns [a] ends in its final state. *)
Lemma run_final {A} (r : outcome Names A) (a : A) :
  match r with Ok x _ => x = a | Throw _ _ => False end -> r = Ok a (final r).
Proof. destruct r; [by intros ->|done]. Qed.




Lemma C4_witness :
  (if hasDefaults counter_body then
     forall pb site, (pb, site) ∈ propJobs counter_body ->
       exists n, slotVal (heap counter_out) site = VRef n /\
         field (heap counter_out) n "type" = VStr "Identifier" /\
         field (heap counter_out) n "name" = VStr (newAliasName pb)
   else
     forall site, site ∈ props_sites counter_body ->
       exists pr, slotVal (heap counter_out) site = VRef pr /\
         forall m, slotVal (heap counter) site = VRef m ->
           apart (props_sites counter_body) (fieldPath m "property") = true ->
           field (heap counter) m "property" = VRef pr) /\
  exists params,
    field (heap counter_out) counter_f "type" = VStr "ArrowFunctionExpression" /\
    field (heap counter_out) counter_f "params" = VArr params /\
    if ex_needsProps counter_body
    then exists p, params = [p] /\ heap counter_out !! p = Some (identifierObj "props")
    else params = [].
Proof.
  apply (C4_prop_sites Names babel_alias ex_getBinding ex_generateUid ex_rename ex_remove
           ex_needsProps counter_head counter_body true counter counter
           counter_f counter_ty counter_out).
  - reflexivity.
  - unfold counter_out, counter_run. apply run_final. vm_compute. reflexivity.
  - vm_compute. reflexivity.
  - vm_compute. reflexivity.
  - vm_compute. reflexivity.
Defined.




Lemma C9_witness :
  exists t decl c,
    ex_ClassDeclaration ex_analyzeBody true counterPath counter = Ok tt t /\
    slotVal (heap t) counterPath = VRef decl /\
    isConstDeclaration (next counter_out) (heap t) decl c counter_f /\
    isComponentId (next counter_out) (heap t) true (ident "Counter") counter_ty c.
Proof.
  assert (transformClass Names babel_alias ex_getBinding ex_generateUid ex_rename ex_remove
            ex_needsProps counter_head counter_body true counter
          = Ok (counter_f, counter_ty) counter_out) as Hrun.
  { unfold counter_out, counter_run. apply run_final. vm_compute. reflexivity. }
  assert (slotVal (heap counter_out) counterPath = VRef 14) as Hclass.
  { vm_compute. reflexivity. }
  assert (heap counter_out !! 14 = Some counter_class) as Hco.
  { vm_compute. reflexivity. }
  apply (proj1 (C9_replacement Names babel_alias ex_getBinding ex_generateUid ex_rename ex_remove
                  ex_needsProps ex_analyzeHead ex_analyzeBody true counterPath counter
                  counter_head programPath counter_body counter_f counter_ty counter_out
                  14 counter_class eq_refl eq_refl eq_refl eq_refl
                  eq_refl eq_refl eq_refl Hrun Hclass Hco)
           ltac:(vm_compute; reflexivity) 13 (ident "Counter")).
  - reflexivity.
  - vm_compute. reflexivity.
  - reflexivity.
Defined.

(** * The import resolver on a name that is taken

    [import { Component } from "react"], in a scope that binds [useState]. *)
Definition taken_heap : store :=
  [ (* 0 *) node "Program" [("body", VArr [1])];
    (* 1 *) node "ImportDeclaration" [("specifiers", VArr [2]); ("source", VRef 5)];
    (* 2 *) node "ImportSpecifier" [("local", VRef 3); ("imported", VRef 4)];
    (* 3 *) ident "Component";
    (* 4 *) ident "Component";
    (* 5 *) node "StringLiteral" [("value", VStr "react")] ].

Definition taken : state Names := State taken_heap ["useState"].
Definition free : state Names := State taken_heap [].

Definition taken_import : path := item 0 "body" 0.
Definition taken_spec : path := Path (Some taken_import) 1 "specifiers" (Some 0) 0.

(** Two requests for [name]: the names of the identifiers they return, and
    the specifiers afterwards, as [(local, imported)]. *)
Definition twice (name : string) (s : state Names)
    : option (val * val * list (val * val)) :=
  let get := getReactImport Names babel_alias ex_getBinding ex_generateUid name
               (ImportRef named taken_spec) in
  match bind Names get (fun a => bind Names get (fun b => ret Names (a, b))) s with
  | Ok (a, b) t =>
      Some (field (heap t) a "name", field (heap t) b "name",
            match field (heap t) 1 "specifiers" with
            | VArr specs =>
                map (fun sp => (fetch (heap t) (VRef sp) [F "local"; F "name"],
                                fetch (heap t) (VRef sp) [F "imported"; F "name"])) specs
            | _ => []
            end)
  | Throw _ _ => None
  end.

(** When the name is free, the second request finds the specifier that the
    first one has put in. *)
Example import_reused :
  twice "useState" free
  = Some (VStr "useState", VStr "useState",
          [(VStr "Component", VStr "Component"); (VStr "useState", VStr "useState")]).
Proof. vm_compute. reflexivity. Qed.

(** C7 fails on the code: when [useState] is bound in the scope, the
    specifier that the first request puts in imports [_useState], the name
    made up for the local, and not [useState]; the second request finds no
    import of [useState] and puts in another specifier. *)
Theorem C7_import_not_reused :
  twice "useState" taken
  = Some (VStr "_useState", VStr "_useState2",
          [(VStr "Component", VStr "Component");
           (VStr "_useState", VStr "_useState");
           (VStr "_useState2", VStr "_useState2")]).
Proof. vm_compute. reflexivity. Qed.

(** * The extra properties, on the examples *)


(** [useState] is not imported yet and is free: a specifier is put in. *)
Lemma getReactImport_named_witness :
  match [2] with
  | [] => exists t, getReactImport Names babel_alias ex_getBinding ex_generateUid "useState"
                      (ImportRef named taken_spec) free
                    = Throw (TypeError "Cannot read properties of undefined") t
  | _ => exists r t,
      getReactImport Names babel_alias ex_getBinding ex_generateUid "useState"
        (ImportRef named taken_spec) free = Ok r t /\
      match firstImport (heap free) "useState" [2] with
      | Some _ => importFound Names "useState" taken_import free r t
      | None =>
          importInserted Names ex_getBinding ex_generateUid "useState" taken_import
            free r t
      end
  end.
Proof.
  apply (getReactImport_named Names babel_alias ex_getBinding ex_generateUid "useState" taken_spec
           taken_import 1 [2] free); vm_compute; reflexivity.
Defined.

(** The two requests for [useState] when the name is bound. *)
Definition taken_once : outcome Names loc :=
  getReactImport Names babel_alias ex_getBinding ex_generateUid "useState"
    (ImportRef named taken_spec) taken.
Definition taken_again : outcome Names loc :=
  getReactImport Names babel_alias ex_getBinding ex_generateUid "useState"
    (ImportRef named taken_spec) (final taken_once).

Lemma getReactImport_twice_witness :
  exists spec,
    field (heap (final taken_once)) 1 "specifiers" = VArr ([2] ++ [spec]) /\
    if String.eqb (importLocal Names ex_getBinding ex_generateUid (scope taken_import)
                     "useState" (scopes taken)) "useState"
    then field (heap (final taken_again)) 1 "specifiers" = VArr ([2] ++ [spec]) /\
         heap (final taken_again) !! 13 = Some (identifierObj "useState")
    else exists spec' lo im lo' im',
         spec' <> spec /\
         field (heap (final taken_again)) 1 "specifiers" = VArr ([2] ++ [spec; spec']) /\
         heap (final taken_again) !! spec
         = Some (mkObj "ImportSpecifier" [("local", VRef lo); ("imported", VRef im)]) /\
         heap (final taken_again) !! im
         = Some (identifierObj (importLocal Names ex_getBinding ex_generateUid
                                  (scope taken_import) "useState" (scopes taken))) /\
         heap (final taken_again) !! spec'
         = Some (mkObj "ImportSpecifier" [("local", VRef lo'); ("imported", VRef im')]) /\
         heap (final taken_again) !! im'
         = Some (identifierObj (importLocal Names ex_getBinding ex_generateUid
                                  (scope taken_import) "useState"
                                  (scopes (final taken_once)))).
Proof.
  apply (getReactImport_twice Names babel_alias ex_getBinding ex_generateUid "useState" taken_spec
           taken_import 1 [2] taken 9 (final taken_once) 13 (final taken_again)).
  - reflexivity.
  - vm_compute. reflexivity.
  - vm_compute. reflexivity.
  - vm_compute. reflexivity.
  - vm_compute. reflexivity.
  - unfold taken_once. apply run_final. vm_compute. reflexivity.
  - unfold taken_again. apply run_final. vm_compute. reflexivity.
Defined.

(** [React.FC] *)
Definition react_fc : state Names :=
  State [ member 1 2; ident "React"; ident "FC" ] [].



(** [React.FC], asked of a global [React]: the member access is made. *)
Lemma getReactImport_qualified_witness :
  exists r t,
    getReactImport Names babel_alias ex_getBinding ex_generateUid "FC" (GlobalRef "React")
      react_fc = Ok r t /\
    freshMember Names "React" "FC" react_fc r t.
Proof.
  apply (proj1 (getReactImport_qualified Names babel_alias ex_getBinding ex_generateUid
                  "FC" react_fc eq_refl) "React").
Defined.

(** [React.FC] is built from identifiers and one member access: it has a
    type entity. *)
Lemma C10_witness :
  exists r t, toTSEntity_rec Names babel_alias 3 0 react_fc = Ok r t.
Proof.
  apply (proj1 (proj2 (C10_type_entity_or_abort Names babel_alias ex_getBinding
                         ex_generateUid ex_rename ex_remove ex_needsProps ex_analyzeHead
                         ex_analyzeBody 3 0 react_fc)) 1).
  - eapply entity_member with (object := 1);
      [reflexivity| |eapply entity_identifier; reflexivity].
    split; [reflexivity|]. split; [reflexivity|]. split; [|reflexivity].
    eexists _, _. split; [reflexivity|]. split; reflexivity.
  - lia.
  - reflexivity.
  - reflexivity.
Defined.
